(** * Network specialization: a shallow embedding of [Graph]

    The development follows [src/core/subgraph_specializer.py]: the class
    [Graph] with its constructor, [specialize], [original], [dynamics],
    [iterate], [_linear_dynamics], [stability_matrix] and
    [spectral_radius].

    Modelling conventions.
    - The labels and the elements of a base list are values of [pyval]: a
      [str], an [int] (or numpy integer) or [None]. Lists that hold other
      Python values (floats, lists, ...) are not covered.
    - Exceptions are values of [error]; a call that may raise returns a
      [result].
    - A scipy sparse matrix is a shape together with its entry function. The
      weights are 64-bit integers: [M.sum()] and the product of two such
      sums are computed by numpy in 64 bits and wrap around ([wrap64]).
    - The states of [dynamics] and [iterate] are integers held in float64
      (or int64) arrays. Arithmetic on them is exact as long as every value
      and every partial sum has absolute value at most [2^53]; the
      definitions follow the code within this range and stop with [Inexact]
      where a value leaves it (the code goes on with a rounded or wrapped
      value, or raises [OverflowError]).
    - [labeler] is a Python dict that the code iterates, so it is an
      insertion-ordered association list; [indexer] and [origin] are only
      looked up and are finite maps.
    - [specialize] assigns to attributes of [self] and to the elements of
      the caller's list, so it returns the caller's list and the object as
      they are after the call, next to the value returned or the exception
      raised. The constructor keeps the list of labels it is given, so the
      caller's list may be the object's own list of labels:
      [specialize] is the call on any other list, [specialize_own] the call
      [g.specialize(g.labels)].
    - The numerical routines behind [stability_matrix] and
      [spectral_radius] (differentiation, eigenvalues, float64 operations)
      are parameters of the definitions. *)

From Stdlib Require Import ZArith Ascii String DecimalString DecimalNat.
From stdpp Require Import base gmap strings list fin_maps.

Open Scope Z_scope.

(** ** Python values, exceptions *)

Inductive pyval :=
  | VStr (s : string)   (* a str *)
  | VInt (z : Z)        (* an int, or a numpy integer *)
  | VNone.              (* None *)

(** The exceptions, and [Inexact]: no exception, but the point at which
    the arithmetic on states stops being exact and is not followed. *)
Inductive error :=
  | ValueError | KeyError | IndexError | TypeError | AttributeError
  | Inexact.

Inductive result (A : Type) :=
  | Ok (a : A)
  | Err (e : error).
Arguments Ok {A} a.
Arguments Err {A} e.

#[global] Instance result_ret : MRet result := fun A a => Ok a.
#[global] Instance result_bind : MBind result := fun A B f m =>
  match m with Ok a => f a | Err e => Err e end.

Definition is_ok {A} (r : result A) : bool :=
  match r with Ok _ => true | Err _ => false end.

#[global] Instance pyval_eq_dec : EqDecision pyval.
Proof. solve_decision. Defined.

Definition pyval_enc (v : pyval) : string + Z + unit :=
  match v with
  | VStr s => inl (inl s)
  | VInt z => inl (inr z)
  | VNone => inr tt
  end.

Definition pyval_dec (x : string + Z + unit) : pyval :=
  match x with
  | inl (inl s) => VStr s
  | inl (inr z) => VInt z
  | inr _ => VNone
  end.

#[global] Instance pyval_countable : Countable pyval.
Proof.
  refine (inj_countable' pyval_enc pyval_dec _).
  intros []; reflexivity.
Defined.

(** [for x in xs: ...] over a body that may raise. *)
Fixpoint mapM {A B} (f : A -> result B) (l : list A) : result (list B) :=
  match l with
  | [] => Ok []
  | x :: l' => y ← f x; ys ← mapM f l'; mret (y :: ys)
  end.

(** ** Strings *)

(** [f'{i}'] for a non-negative integer. *)
Definition str_of_nat (i : nat) : string :=
  NilEmpty.string_of_uint (Nat.to_uint i).

(** [s.find(c)]: the first position of [c], or [-1]. *)
Fixpoint str_find (c : ascii) (s : string) : Z :=
  match s with
  | EmptyString => -1
  | String a s' =>
      if Ascii.eqb a c then 0
      else let k := str_find c s' in if k =? -1 then -1 else k + 1
  end.

(** [s[:k]] for [0 <= k]. *)
Definition str_prefix (k : Z) (s : string) : string :=
  String.substring 0 (Z.to_nat k) s.

(** ** Sparse matrices *)

Record spmatrix := SpMatrix {
  nrows : nat;
  ncols : nat;
  entry : nat -> nat -> Z
}.

(** A matrix written out by rows (absent positions are zero). *)
Definition of_rows (r c : nat) (rows : list (list Z)) : spmatrix :=
  SpMatrix r c (fun i j => nth j (nth i rows []) 0).

Definition to_rows (M : spmatrix) : list (list Z) :=
  (fun i => entry M i <$> seq 0 (ncols M)) <$> seq 0 (nrows M).

(** Index of a Python sequence of length [len]: negative integers count from
    the end; anything out of range, or not an integer, is refused. *)
Definition norm_index (bad : error) (len : nat) (k : pyval) : result nat :=
  match k with
  | VInt z =>
      if (0 <=? z) && (z <? Z.of_nat len) then Ok (Z.to_nat z)
      else if (- Z.of_nat len <=? z) && (z <? 0) then Ok (Z.to_nat (Z.of_nat len + z))
      else Err IndexError
  | _ => Err bad
  end.

(** [M[p,:][:,p]] for an index list [p]. *)
Definition fancy (M : spmatrix) (p : list pyval) : result spmatrix :=
  rs ← mapM (norm_index IndexError (nrows M)) p;
  cs ← mapM (norm_index IndexError (ncols M)) p;
  mret (SpMatrix (length rs) (length cs)
          (fun i j => entry M (nth i rs 0%nat) (nth j cs 0%nat))).

(** [M[a:,:]], [M[:a,:]], [M[:,a:]], [M[:,:a]]. *)
Definition rows_from (a : nat) (M : spmatrix) : spmatrix :=
  SpMatrix (nrows M - a) (ncols M) (fun i j => entry M (i + a) j).
Definition rows_upto (a : nat) (M : spmatrix) : spmatrix :=
  SpMatrix (Nat.min a (nrows M)) (ncols M) (entry M).
Definition cols_from (a : nat) (M : spmatrix) : spmatrix :=
  SpMatrix (nrows M) (ncols M - a) (fun i j => entry M i (j + a)).
Definition cols_upto (a : nat) (M : spmatrix) : spmatrix :=
  SpMatrix (nrows M) (Nat.min a (ncols M)) (entry M).

(** The sum of all entries. *)
Definition zsum (l : list Z) : Z := foldr Z.add 0 l.
Definition msum (M : spmatrix) : Z :=
  zsum ((fun i => zsum (entry M i <$> seq 0 (ncols M))) <$> seq 0 (nrows M)).

(** A 64-bit signed integer: the value that is left of [z] in 64 bits. *)
Definition wrap64 (z : Z) : Z := (z + 2 ^ 63) mod 2 ^ 64 - 2 ^ 63.

(** [M.sum()] on a matrix of 64-bit integers. *)
Definition msum64 (M : spmatrix) : Z := wrap64 (msum M).

(** [np.argwhere(M != 0)]: the positions of the non-zero entries, row by
    row and, in a row, by column. *)
Definition argwhere (M : spmatrix) : list (nat * nat) :=
  i ← seq 0 (nrows M);
  j ← seq 0 (ncols M);
  if decide (entry M i j = 0) then [] else [(i, j)].

(** [sp.block_diag(blocks)]. *)
Fixpoint block_diag (blocks : list spmatrix) : spmatrix :=
  match blocks with
  | [] => SpMatrix 0 0 (fun _ _ => 0)
  | B :: rest =>
      let R := block_diag rest in
      SpMatrix (nrows B + nrows R) (ncols B + ncols R)
        (fun i j =>
           if (i <? nrows B)%nat then
             if (j <? ncols B)%nat then entry B i j else 0
           else
             if (j <? ncols B)%nat then 0
             else entry R (i - nrows B) (j - ncols B))
  end.

(** [S[i,j] = v] on a lil matrix, for non-negative [i], [j]. *)
Definition setitem (S_ : spmatrix) (i j : nat) (v : Z) : result spmatrix :=
  if (i <? nrows S_)%nat && (j <? ncols S_)%nat then
    Ok (SpMatrix (nrows S_) (ncols S_)
          (fun i' j' => if (i' =? i)%nat && (j' =? j)%nat then v else entry S_ i' j'))
  else Err IndexError.

(** ** The class [Graph] *)

(** A matrix of unary functions on node states, with an entry at every
    pair of original indices. *)
Definition fmatrix := nat -> nat -> Z -> Z.

Record Graph := MkGraph {
  A : spmatrix;
  n : nat;
  labels : list pyval;
  indices : list nat;
  labeler : list (nat * pyval);
  indexer : gmap pyval nat;
  origin : gmap pyval nat;
  F : option fmatrix
}.

(** [d[k] = v] on an insertion-ordered dict. *)
Fixpoint dict_set {V} (k : nat) (v : V) (d : list (nat * V)) : list (nat * V) :=
  match d with
  | [] => [(k, v)]
  | (k', v') :: d' =>
      if (k' =? k)%nat then (k', v) :: d' else (k', v') :: dict_set k v d'
  end.

(** [dict(zip(ks, vs))] for integer keys. *)
Definition dict_of_list {V} (kvs : list (nat * V)) : list (nat * V) :=
  foldl (fun d kv => dict_set kv.1 kv.2 d) [] kvs.

(** [d[k]] for a dict with integer keys. *)
Fixpoint dict_find {V} (k : nat) (d : list (nat * V)) : option V :=
  match d with
  | [] => None
  | (k', v) :: d' => if (k' =? k)%nat then Some v else dict_find k d'
  end.

Definition dict_get {V} (d : list (nat * V)) (k : pyval) : result V :=
  match k with
  | VInt z =>
      if 0 <=? z then
        match dict_find (Z.to_nat z) d with Some v => Ok v | None => Err KeyError end
      else Err KeyError
  | _ => Err KeyError
  end.

(** [dict(zip(ks, vs))] for label keys: a later pair overwrites. *)
Definition map_of_list (kvs : list (pyval * nat)) : gmap pyval nat :=
  foldl (fun m kv => <[kv.1 := kv.2]> m) ∅ kvs.

(** What may be passed as [labels]. *)
Inductive labels_arg :=
  | LNone
  | LList (l : list pyval)
  | LTuple (l : list pyval).

Definition is_str (v : pyval) : bool :=
  match v with VStr _ => true | _ => false end.

(** The attributes [Graph.__init__] sets once the arguments are accepted. *)
Definition new_graph (A0 : spmatrix) (lbls : list pyval)
    (F0 : option fmatrix) (origin0 : option (gmap pyval nat)) : Graph :=
  let n0 := nrows A0 in
  let idx := map_of_list (zip lbls (seq 0 n0)) in
  {| A := A0; n := n0; labels := lbls; indices := seq 0 n0;
     labeler := dict_of_list (zip (seq 0 n0) lbls);
     indexer := idx;
     origin := match origin0 with
               | Some o => if decide (o = ∅) then idx else o
               | None => idx
               end;
     F := F0 |}.

(** [Graph.__init__(A, labels, F, origin)]. Every value of [pyval] can be
    hashed, so building the two dicts does not raise. *)
Definition Graph_init (A0 : spmatrix) (labels0 : labels_arg)
    (F0 : option fmatrix) (origin0 : option (gmap pyval nat)) : result Graph :=
  let n0 := nrows A0 in
  if negb (n0 =? ncols A0)%nat then Err ValueError
  else
    lbls ← match labels0 with
           | LNone => Ok ((fun i => VStr (str_of_nat i)) <$> seq 0 n0)
           | LTuple _ => Err ValueError
           | LList l =>
               if negb (length l =? n0)%nat then Err ValueError
               else match l with
                    | [] => Err IndexError
                    | l0 :: _ => if is_str l0 then Ok l else Err ValueError
                    end
           end;
    mret (new_graph A0 lbls F0 origin0).

(** [Graph._update_indexer]. *)
Definition _update_indexer (self : Graph) : gmap pyval nat :=
  map_of_list (zip (labeler self).*2 (labeler self).*1).

(** [for x in xs: s = body(x, s)] over a body that may raise. *)
Fixpoint foldM {X St} (f : X -> St -> result St) (l : list X) (s : St) : result St :=
  match l with
  | [] => Ok s
  | x :: l' => s' ← f x s; foldM f l' s'
  end.

(** The loop [for i, k in enumerate(base): base[i] = self.indexer[k]]: the
    list as the loop leaves it, and whether a lookup raised. *)
Fixpoint resolve_base (idx : gmap pyval nat) (base : list pyval)
    : list pyval * result unit :=
  match base with
  | [] => ([], Ok tt)
  | k :: rest =>
      match idx !! k with
      | None => (k :: rest, Err KeyError)
      | Some i =>
          let '(rest', r) := resolve_base idx rest in
          (VInt (Z.of_nat i) :: rest', r)
      end
  end.

(** One pass of the body of the rewiring loop, for the pairing numbered
    [i]. *)
Definition rewire_step (base_len spec_len : nat) (in_graph out_graph : spmatrix)
    (in_edge out_edge : nat * nat) (st : spmatrix * nat) : result (spmatrix * nat) :=
  let '(S_, i) := st in
  let base_offset := (base_len + i * spec_len)%nat in
  let in_offset := (base_offset + in_edge.1)%nat in
  let out_offset := (base_offset + out_edge.2)%nat in
  S1 ← setitem S_ in_offset in_edge.2 (entry in_graph in_edge.1 in_edge.2);
  S2 ← setitem S1 out_edge.1 out_offset (entry out_graph out_edge.1 out_edge.2);
  mret (S2, (i + 1)%nat).

Definition rewire (base_len spec_len : nat) (in_graph out_graph : spmatrix)
    (in_edges out_edges : list (nat * nat)) (S0 : spmatrix) : result (spmatrix * nat) :=
  foldM (fun in_edge =>
           foldM (rewire_step base_len spec_len in_graph out_graph in_edge) out_edges)
        in_edges (S0, 0%nat).

(** [labels[k] = v] on a Python list, for a non-negative [k]. *)
Definition list_set {X} (l : list X) (k : nat) (v : X) : result (list X) :=
  if (k <? length l)%nat then Ok (<[k := v]> l) else Err IndexError.

(** [a + b] where [b] is a str. *)
Definition str_add (a : pyval) (b : string) : result pyval :=
  match a with
  | VStr s => Ok (VStr (s ++ b))
  | _ => Err TypeError
  end.

(** The loops that label the copies. *)
Definition copy_labels (old : list pyval) (base_len spec_len num_copies : nat)
    : result (list pyval) :=
  foldM (fun i =>
           foldM (fun j lbls =>
                    let copy_index := (base_len + i * spec_len + j)%nat in
                    let orig_index := (base_len + j)%nat in
                    lab ← match old !! orig_index with
                          | Some l => Ok l
                          | None => Err IndexError
                          end;
                    new ← str_add lab ("." ++ str_of_nat (i + 1));
                    list_set lbls copy_index new)
                 (seq 0 spec_len))
        (seq 0 num_copies)
        (take base_len old ++ replicate (num_copies * spec_len) VNone).

(** The part of [specialize] after the attributes of [self] are permuted:
    counts the ways in and out, builds the block-diagonal matrix, rewires the
    boundary edges, labels the copies and constructs the result. *)
Definition num_in (self : Graph) (base_len : nat) : Z :=
  msum64 (cols_upto base_len (rows_from base_len (A self))).
Definition num_out (self : Graph) (base_len : nat) : Z :=
  msum64 (cols_from base_len (rows_upto base_len (A self))).
(** [int(num_in * num_out)]: the product of two numpy 64-bit integers. *)
Definition num_copies (self : Graph) (base_len : nat) : Z :=
  wrap64 (num_in self base_len * num_out self base_len).

Definition assemble (self : Graph) (base_len spec_len : nat) : result Graph :=
  let in_graph := cols_upto base_len (rows_from base_len (A self)) in
  let out_graph := cols_from base_len (rows_upto base_len (A self)) in
  let copies := Z.to_nat (num_copies self base_len) in
  let in_edges := argwhere in_graph in
  let out_edges := argwhere out_graph in
  let S0 := block_diag
              (cols_upto base_len (rows_upto base_len (A self))
               :: replicate copies (cols_from base_len (rows_from base_len (A self)))) in
  '(S_, _) ← rewire base_len spec_len in_graph out_graph in_edges out_edges S0;
  lbls ← copy_labels (labels self) base_len spec_len copies;
  Graph_init S_ (LList lbls) (F self) (Some (origin self)).

(** What a call of [specialize] leaves behind: the caller's list, the object
    and the value returned or exception raised. *)
Record outcome := Outcome {
  caller_base : list pyval;
  self_after : Graph;
  returned : result Graph
}.

Definition set_labeler (l : list (nat * pyval)) (g : Graph) : Graph :=
  {| A := A g; n := n g; labels := labels g; indices := indices g;
     labeler := l; indexer := indexer g; origin := origin g; F := F g |}.
Definition set_indexer (m : gmap pyval nat) (g : Graph) : Graph :=
  {| A := A g; n := n g; labels := labels g; indices := indices g;
     labeler := labeler g; indexer := m; origin := origin g; F := F g |}.
Definition set_labels (l : list pyval) (g : Graph) : Graph :=
  {| A := A g; n := n g; labels := l; indices := indices g;
     labeler := labeler g; indexer := indexer g; origin := origin g; F := F g |}.
Definition set_A (M : spmatrix) (g : Graph) : Graph :=
  {| A := M; n := n g; labels := labels g; indices := indices g;
     labeler := labeler g; indexer := indexer g; origin := origin g; F := F g |}.

(** [i not in base] for a numpy integer [i]. *)
Definition not_in (base : list pyval) (i : nat) : bool :=
  negb (bool_decide (VInt (Z.of_nat i) ∈ base)).

(** [list[k]] for a Python list. *)
Definition list_get {X} (l : list X) (k : pyval) : result X :=
  i ← norm_index TypeError (length l) k;
  match l !! i with Some x => Ok x | None => Err IndexError end.

(** [[i for i in self.indices if i not in base]] and [base + spec_set]. *)
Definition spec_set (self : Graph) (base : list pyval) : list nat :=
  filter (fun i => not_in base i) (indices self).
Definition permute (self : Graph) (base : list pyval) : list pyval :=
  base ++ ((fun i => VInt (Z.of_nat i)) <$> spec_set self base).

(** [{i : self.labeler[permute[i]] for i in range(self.n)}]. *)
Definition permute_labeler (self : Graph) (p : list pyval) : result (list (nat * pyval)) :=
  mapM (fun i => k ← list_get p (VInt (Z.of_nat i));
                 v ← dict_get (labeler self) k;
                 mret (i, v)) (seq 0 (n self)).

(** [Graph.specialize(base)], for [base] a Python list (so that
    [base = list(base)] changes nothing) other than the list [self.labels]
    itself. The attributes of [self] are assigned one after the other; an
    exception leaves the object as the assignments made so far have left
    it. *)
Definition specialize (self : Graph) (base : list pyval) : outcome :=
  match base with
  | [] => Outcome base self (Err IndexError)
  | b0 :: _ =>
      let '(base1, r) :=
        match b0 with
        | VStr _ => resolve_base (indexer self) base
        | VInt _ => (base, Ok tt)
        | VNone => (base, Err ValueError)
        end in
      match r with
      | Err e => Outcome base1 self (Err e)
      | Ok _ =>
          if (n self <? length base1)%nat then Outcome base1 self (Err ValueError)
          else
            let spec_set := spec_set self base1 in
            let permute := permute self base1 in
            match permute_labeler self permute with
            | Err e => Outcome base1 self (Err e)
            | Ok lab' =>
                let self1 := set_labeler lab' self in
                let self2 := set_indexer (_update_indexer self1) self1 in
                match mapM (list_get (labels self2)) permute with
                | Err e => Outcome base1 self2 (Err e)
                | Ok lbls' =>
                    let self3 := set_labels lbls' self2 in
                    match fancy (A self3) permute with
                    | Err e => Outcome base1 self3 (Err e)
                    | Ok A' =>
                        let self4 := set_A A' self3 in
                        Outcome base1 self4
                          (assemble self4 (length base1) (length spec_set))
                    end
                end
            end
      end
  end.

(** [self.specialize(self.labels)]: the base is the very list the object
    holds as its labels (the constructor keeps the list it is given). When
    its first element is a string, the loop that resolves the labels writes
    the indices into [self.labels]; from there on the list is only read, and
    the call goes on as a call on that list of indices. When its first
    element is no string, or there is none, the list is not written to. *)
Definition specialize_own (self : Graph) : outcome :=
  match labels self with
  | VStr _ :: _ =>
      let '(base1, r) := resolve_base (indexer self) (labels self) in
      let self0 := set_labels base1 self in
      match r with
      | Err e => Outcome base1 self0 (Err e)
      | Ok _ => specialize self0 base1
      end
  | _ => specialize self (labels self)
  end.

(** [Graph.original(i)]. *)
Definition original (self : Graph) (i : nat) : result nat :=
  label ← dict_get (labeler self) (VInt (Z.of_nat i));
  match label with
  | VStr s =>
      let temp_ind := str_find "."%char s in
      let s' := if negb (temp_ind =? -1) then str_prefix temp_ind s else s in
      match origin self !! VStr s' with
      | Some o => Ok o
      | None => Err KeyError
      end
  | _ => Err AttributeError
  end.

(** ** Dynamics *)

(** [M[i,j]] for non-negative [i], [j]. *)
Definition getitem (M : spmatrix) (i j : nat) : result Z :=
  if (i <? nrows M)%nat && (j <? ncols M)%nat then Ok (entry M i j)
  else Err IndexError.

(** The integers on which float64 (and int64) arithmetic is exact. *)
Definition is_exact (z : Z) : bool := Z.abs z <=? 2 ^ 53.
Definition checked (z : Z) : result Z := if is_exact z then Ok z else Err Inexact.

(** [M @ v] for a float64 vector [v]: the sum of the products along a row,
    in float64. Whatever the order in which the products are added, the sum
    is exact when the absolute values of the products add up to no more than
    [2^53]. *)
Definition dot (M : spmatrix) (i : nat) (v : list Z) : Z :=
  zsum ((fun j => entry M i j * nth j v 0) <$> seq 0 (ncols M)).
Definition dot_abs (M : spmatrix) (i : nat) (v : list Z) : Z :=
  zsum ((fun j => Z.abs (entry M i j * nth j v 0)) <$> seq 0 (ncols M)).
Definition matvec (M : spmatrix) (v : list Z) : result (list Z) :=
  if (ncols M =? length v)%nat then
    if forallb is_exact v && forallb (fun i => dot_abs M i v <=? 2 ^ 53) (seq 0 (nrows M))
    then Ok ((fun i => dot M i v) <$> seq 0 (nrows M))
    else Err Inexact
  else Err ValueError.

(** [t[i] = row] on a two-dimensional float64 array with rows of length
    [w]: a row of length one is broadcast, and the values stored are
    converted to float64. *)
Definition set_row (t : list (list Z)) (w i : nat) (row : list Z)
    : result (list (list Z)) :=
  if (i <? length t)%nat then
    row' ← (if (length row =? w)%nat then Ok row
            else match row with
                 | [x] => Ok (replicate w x)
                 | _ => Err ValueError
                 end);
    if forallb is_exact row' then Ok (<[i := row']> t) else Err Inexact
  else Err IndexError.

(** [Graph.dynamics(t0)], with the functional matrix [f] of the object. The
    function [f a b] stands for what the entry [F[a,b]] computes on a state
    that is an integer. *)
Definition dynamics (self : Graph) (f : fmatrix) (t0 : list Z) : result (list Z) :=
  if forallb is_exact t0 then
    foldM (fun i t =>
             o_i ← original self i;
             foldM (fun j t =>
                      o_j ← original self j;
                      old ← match t !! i with Some x => Ok x | None => Err IndexError end;
                      if (i =? j)%nat then
                        v ← checked (f o_i o_j (nth j t0 0));
                        new ← checked (old + v);
                        list_set t i new
                      else
                        a ← getitem (A self) i j;
                        v ← checked (f o_i o_j (nth j t0 0));
                        p ← checked (a * v);
                        new ← checked (old + p);
                        list_set t i new)
                   (seq 0 (length t0)) t)
          (seq 0 (n self)) (replicate (length t0) 0)
  else Err Inexact.

(** The loop [for i in range(1, iters): t[i] = step(t[i-1])]. *)
Definition run (step : list Z -> result (list Z)) (w iters : nat)
    (t : list (list Z)) : result (list (list Z)) :=
  foldM (fun i t =>
           prev ← match t !! (i - 1)%nat with
                  | Some r => Ok r
                  | None => Err IndexError
                  end;
           next ← step prev;
           set_row t w i next)
        (seq 1 (iters - 1)) t.

(** [Graph._linear_dynamics(iters, initial_condition)]. *)
Definition _linear_dynamics (self : Graph) (iters : nat) (initial_condition : list Z)
    : result (list (list Z)) :=
  let t := replicate iters (replicate (n self) 0) in
  t ← set_row t (n self) 0 initial_condition;
  run (matvec (A self)) (n self) iters t.

(** [Graph.iterate(iters, initial_condition)], without plotting. *)
Definition iterate (self : Graph) (iters : nat) (initial_condition : list Z)
    : result (list (list Z)) :=
  match F self with
  | None => _linear_dynamics self iters initial_condition
  | Some f =>
      let t := replicate iters (replicate (n self) 0) in
      t ← set_row t (n self) 0 initial_condition;
      run (dynamics self f) (n self) iters t
  end.

(** ** Matrix powers, for comparison with the linear dynamics *)

Definition identity (k : nat) : spmatrix :=
  SpMatrix k k (fun i j => if (i =? j)%nat then 1 else 0).

Definition mmul (M N : spmatrix) : spmatrix :=
  SpMatrix (nrows M) (ncols N)
    (fun i j => zsum ((fun k => entry M i k * entry N k j) <$> seq 0 (ncols M))).

Fixpoint mpow (M : spmatrix) (t : nat) : spmatrix :=
  match t with
  | O => identity (nrows M)
  | S t' => mmul M (mpow M t')
  end.

(** The product of a matrix and a vector of matching length. *)
Definition apply (M : spmatrix) (v : list Z) : list Z :=
  (fun i => dot M i v) <$> seq 0 (nrows M).

(** The linear dynamics stay exact for [k] rows from [x0]: the initial state
    is in the exact range and, for each state from which a step is taken,
    the products along every row add up in absolute value to at most
    [2^53]. *)
Definition row_sums_exact (M : spmatrix) (x : list Z) : bool :=
  forallb (fun i => dot_abs M i x <=? 2 ^ 53) (seq 0 (nrows M)).
Definition linear_exact (M : spmatrix) (x0 : list Z) (k : nat) : bool :=
  forallb is_exact x0
  && forallb (fun t => row_sums_exact M (apply (mpow M t) x0)) (seq 0 (k - 1)).

(** ** Auxiliary notions used in the statements *)

(** The pairings of a nested loop, the outer index moving slowest. *)
Definition pairings {X Y} (xs : list X) (ys : list Y) : list (X * Y) :=
  x ← xs; y ← ys; [(x, y)].

(** What the constructor establishes when every label is a string, and
    [specialize] keeps when it rearranges the object: the matrix and the
    label list cover the [n] nodes, and the two dicts follow the labels. *)
Record wf (g : Graph) : Prop := Wf {
  wf_rows : (n g <= nrows (A g))%nat;
  wf_cols : (n g <= ncols (A g))%nat;
  wf_labels : (n g <= length (labels g))%nat;
  wf_str : Forall (fun v => is_str v = true) (labels g);
  wf_indices : indices g = seq 0 (n g);
  wf_labeler : labeler g = zip (seq 0 (n g)) (labels g);
  wf_indexer : indexer g = map_of_list (zip (labels g) (seq 0 (n g)))
}.

(** A base selection: a valid index of the network, or one of its labels. *)
Definition known_index (g : Graph) (b : pyval) : bool :=
  match b with
  | VInt z => (0 <=? z) && (z <? Z.of_nat (n g))
  | _ => false
  end.
Definition known_label (g : Graph) (b : pyval) : bool :=
  match b with
  | VStr _ => bool_decide (is_Some (indexer g !! b))
  | _ => false
  end.
Definition homogeneous_known (g : Graph) (base : list pyval) : bool :=
  forallb (known_index g) base || forallb (known_label g) base.
Definition valid_base (g : Graph) (base : list pyval) : bool :=
  negb (bool_decide (base = [])) && (length base <=? n g)%nat
  && homogeneous_known g base.

(** The indices a base selection stands for, in the order given. *)
Definition base_indices (g : Graph) (base : list pyval) : list nat :=
  (fun b => match b with
            | VInt z => Z.to_nat z
            | _ => default 0%nat (indexer g !! b)
            end) <$> base.

(** The nodes outside the base, in their original order, and the order in
    which [specialize] arranges the nodes. *)
Definition rest_of (g : Graph) (bs : list nat) : list nat :=
  filter (fun i => i ∉ bs) (seq 0 (n g)).
Definition node_order (g : Graph) (bs : list nat) : list nat :=
  bs ++ rest_of g bs.

(** The network with its nodes rearranged in the order [p]. *)
Definition rearranged (g : Graph) (p : list nat) : Graph :=
  let lab := (fun i => (i, nth (nth i p 0%nat) (labels g) VNone)) <$> seq 0 (n g) in
  {| A := SpMatrix (length p) (length p)
            (fun i j => entry (A g) (nth i p 0%nat) (nth j p 0%nat));
     n := n g;
     labels := (fun k => nth k (labels g) VNone) <$> p;
     indices := indices g;
     labeler := lab;
     indexer := map_of_list (zip lab.*2 lab.*1);
     origin := origin g;
     F := F g |}.

(** A node index as the Python integer that stands for it. *)
Definition as_int (i : nat) : pyval := VInt (Z.of_nat i).

(** The body of the rewiring loop on a pairing, and the position of
    boundary edges: inside the cross blocks. *)
Definition rewire_pair (bl sl : nat) (in_graph out_graph : spmatrix)
    (xy : (nat * nat) * (nat * nat)) :=
  rewire_step bl sl in_graph out_graph xy.1 xy.2.
Definition in_bounds (bl sl : nat) (xy : (nat * nat) * (nat * nat)) : Prop :=
  (xy.1.1 < sl)%nat /\ (xy.1.2 < bl)%nat /\ (xy.2.1 < bl)%nat /\ (xy.2.2 < sl)%nat.

(** The matrix after a successful [M[i,j] = v]. *)
Definition put (M : spmatrix) (i j : nat) (v : Z) : spmatrix :=
  SpMatrix (nrows M) (ncols M)
    (fun i' j' => if (i' =? i)%nat && (j' =? j)%nat then v else entry M i' j').

(** The matrix after the pairing numbered [i] is rewired. *)
Definition rewired (bl sl : nat) (in_graph out_graph : spmatrix)
    (xy : (nat * nat) * (nat * nat)) (S0 : spmatrix) (i : nat) : spmatrix :=
  put (put S0 (bl + i * sl + xy.1.1) xy.1.2 (entry in_graph xy.1.1 xy.1.2))
      xy.2.1 (bl + i * sl + xy.2.2) (entry out_graph xy.2.1 xy.2.2).

(** The pairing, if any, that the loop started at number [i0] rewires into
    copy [c]. *)
Definition pairing_of (ps : list ((nat * nat) * (nat * nat))) (i0 c : nat) :=
  if decide (i0 <= c)%nat then ps !! (c - i0)%nat else None.

(** The label of the node at position [j] of copy [i] (counted from 0). *)
Definition copy_label (old : list pyval) (base_len i j : nat) : pyval :=
  match nth (base_len + j) old VNone with
  | VStr s => VStr (s ++ "." ++ str_of_nat (i + 1))
  | v => v
  end.

(** The boundary of a base selection on the network as given: the block of
    edges from the base into the other nodes (row = position among the other
    nodes, column = position in the base), the block of edges from the other
    nodes into the base, the number of copies and the pairings of boundary
    edges. *)
Definition into_spec (g : Graph) (bs : list nat) : spmatrix :=
  let rest := rest_of g bs in
  SpMatrix (length rest) (length bs)
    (fun r y => entry (A g) (nth r rest 0%nat) (nth y bs 0%nat)).
Definition out_of_spec (g : Graph) (bs : list nat) : spmatrix :=
  let rest := rest_of g bs in
  SpMatrix (length bs) (length rest)
    (fun x r => entry (A g) (nth x bs 0%nat) (nth r rest 0%nat)).
Definition copies (g : Graph) (bs : list nat) : Z :=
  wrap64 (msum64 (into_spec g bs) * msum64 (out_of_spec g bs)).
Definition boundary_pairings (g : Graph) (bs : list nat)
    : list ((nat * nat) * (nat * nat)) :=
  pairings (argwhere (into_spec g bs)) (argwhere (out_of_spec g bs)).

(** ** Example networks *)

(** Four nodes on a directed ring 3 -> 2 -> 1 -> 0 -> 3, unit weights. *)
Definition ring4 : Graph :=
  new_graph (of_rows 4 4 [[0;1;0;0]; [0;0;1;0]; [0;0;0;1]; [1;0;0;0]])
            [VStr "a"; VStr "b"; VStr "c"; VStr "d"] None None.

(** Two nodes joined in both directions, with weights 1 and 2. *)
Definition pair21 : Graph :=
  new_graph (of_rows 2 2 [[0;1]; [2;0]]) [VStr "0"; VStr "1"] None None.

(** The network returned by a call, where it returns. *)
Definition result_of (g : Graph) (base : list pyval) : Graph :=
  match returned (specialize g base) with
  | Ok g' => g'
  | Err _ => g
  end.

(** Three nodes, edges 1 -> 0 of weight 2 and 2 -> 0 of weight 1. *)
Definition fan3 : Graph :=
  new_graph (of_rows 3 3 [[0;2;1]; [0;0;0]; [0;0;0]])
            [VStr "0"; VStr "1"; VStr "2"] None None.

(** Two nodes joined in both directions, with weights 1 and -1. *)
Definition cancel2 : Graph :=
  new_graph (of_rows 2 2 [[0;-1]; [1;0]]) [VStr "0"; VStr "1"] None None.

(** Three nodes: node 0 sends edges of weights 1 and -1 to nodes 1 and 2,
    and node 1 sends an edge of weight 1 back. *)
Definition cancel3 : Graph :=
  new_graph (of_rows 3 3 [[0;1;0]; [1;0;0]; [-1;0;0]])
            [VStr "0"; VStr "1"; VStr "2"] None None.

(** Two nodes joined in both directions with weights 6 and
    3074457345618258603, whose product is [2^64 + 2]. *)
Definition wide2 : Graph :=
  new_graph (of_rows 2 2 [[0; 3074457345618258603]; [6; 0]])
            [VStr "0"; VStr "1"] None None.

(** The range of a 64-bit signed integer. *)
Definition in64 (z : Z) : Prop := - 2 ^ 63 <= z < 2 ^ 63.

(** ** Resolving labels *)

(** The label a node's label stands for: what [original] looks up. *)
Definition canonical (s : string) : string :=
  let temp_ind := str_find "."%char s in
  if negb (temp_ind =? -1) then str_prefix temp_ind s else s.

(** The part of a string before its first dot. *)
Fixpoint upto_dot (s : string) : string :=
  match s with
  | EmptyString => EmptyString
  | String a s' => if Ascii.eqb a "."%char then EmptyString else String a (upto_dot s')
  end.

(** A label resolves when it is a string whose canonical label [o] maps
    below [n0]. *)
Definition resolves (o : gmap pyval nat) (n0 : nat) (v : pyval) : Prop :=
  exists s i, v = VStr s /\ o !! VStr (canonical s) = Some i /\ (i < n0)%nat.

(** A label without a dot. *)
Definition dot_free (v : pyval) : Prop :=
  exists s, v = VStr s /\ str_find "."%char s = -1.

(** The networks that come from [g0] by calls of [specialize]: the networks
    returned, and the objects as the calls leave them. *)
Inductive derived (g0 : Graph) : Graph -> Prop :=
  | derived_init : derived g0 g0
  | derived_returned g base g' :
      derived g0 g -> returned (specialize g base) = Ok g' -> derived g0 g'
  | derived_self g base :
      derived g0 g -> derived g0 (self_after (specialize g base)).

(** What the calls of [specialize] preserve: the object is well formed, its
    [origin] is [o0], and each of its labels resolves below [n0]. *)
Definition resolving (o0 : gmap pyval nat) (n0 : nat) (g : Graph) : Prop :=
  wf g /\ origin g = o0 /\ Forall (resolves o0 n0) (labels g).

(** Two nodes joined in both directions, the first with a dot in its
    label. *)
Definition dotted : Graph :=
  new_graph (of_rows 2 2 [[0;1]; [1;0]]) [VStr "a.b"; VStr "c"] None None.

(** ** Auxiliary notions for the dynamics *)

(** The original index of node [i], where [original] returns. *)
Definition origin_of (g : Graph) (i : nat) : nat :=
  match original g i with Ok o => o | Err _ => 0%nat end.

(** The weight with which node [j] enters the next state of node [i]: the
    entry of the adjacency matrix off the diagonal, and one on it. *)
Definition coupling (g : Graph) (i j : nat) : Z :=
  if (i =? j)%nat then 1 else entry (A g) i j.

(** The state of node [i] one step after [t0]. *)
Definition next_state (g : Graph) (f : fmatrix) (t0 : list Z) (i : nat) : Z :=
  zsum ((fun j => coupling g i j * f (origin_of g i) (origin_of g j) (nth j t0 0))
          <$> seq 0 (length t0)).

(** The whole state one step after [t0]. *)
Definition step (g : Graph) (f : fmatrix) (t0 : list Z) : list Z :=
  next_state g f t0 <$> seq 0 (n g).

(** One step from [t0] stays exact: the state is in the exact range and,
    for the nodes [i] and [j] that the loops reach (those below both [n]
    and the length of [t0]), every value a function gives is in the exact
    range and the absolute values of the terms of node [i] add up to at most
    [2^53], so that every product and every partial sum is exact. *)
Definition reach (g : Graph) (t0 : list Z) : nat := Nat.min (n g) (length t0).
Definition step_exact (g : Graph) (f : fmatrix) (t0 : list Z) : bool :=
  forallb is_exact t0
  && forallb (fun i =>
       forallb (fun j => is_exact (f (origin_of g i) (origin_of g j) (nth j t0 0)))
               (seq 0 (reach g t0))
       && (zsum ((fun j => Z.abs (coupling g i j
                                  * f (origin_of g i) (origin_of g j) (nth j t0 0)))
                   <$> seq 0 (reach g t0)) <=? 2 ^ 53))
     (seq 0 (reach g t0)).

(** The dynamics stay exact for [k] rows from [x0]. *)
Definition traj_exact (g : Graph) (f : fmatrix) (x0 : list Z) (k : nat) : bool :=
  forallb is_exact x0
  && forallb (fun t => step_exact g f (Nat.iter t (step g f) x0)) (seq 0 (k - 1)).

(** A functional matrix: the function at [i], [j] doubles the state and
    adds [i]. *)
Definition double_plus : fmatrix := fun i j x => 2 * x + Z.of_nat i.

(** The pair of [pair21] with this functional matrix. *)
Definition pair21f : Graph :=
  new_graph (of_rows 2 2 [[0;1]; [2;0]]) [VStr "0"; VStr "1"] (Some double_plus) None.

(** What [t[i] = next] stores in a row of length [w]. *)
Definition stored (w : nat) (next row : list Z) : Prop :=
  length row = w /\ forallb is_exact row = true
  /\ (row = next \/ exists x, next = [x] /\ row = replicate w x).

(** The step [iterate] repeats: the product with the adjacency matrix
    without a functional matrix, and [dynamics] with one. *)
Definition step_of (g : Graph) : list Z -> result (list Z) :=
  match F g with
  | None => matvec (A g)
  | Some f => dynamics g f
  end.

(** ** Labels that name the nodes apart *)

(** The label [u] is the label [v] followed by a dot and more. *)
Definition extends (u v : pyval) : Prop :=
  exists s w, v = VStr s /\ u = VStr (s ++ "." ++ w).

(** No label occurs twice, and none is another one followed by a dot and
    more, so that the label of a copy cannot meet a label there is. *)
Definition distinct_labels (l : list pyval) : Prop :=
  NoDup l /\ forall u v, u ∈ l -> v ∈ l -> ~ extends u v.

(** The networks that come from [g0] by calls of [specialize] whose base
    names no node twice: the networks returned, and the objects as the calls
    leave them. *)
Inductive reached (g0 : Graph) : Graph -> Prop :=
  | reached_init : reached g0 g0
  | reached_returned g base g' :
      reached g0 g -> NoDup (base_indices g base) ->
      returned (specialize g base) = Ok g' -> reached g0 g'
  | reached_self g base :
      reached g0 g -> NoDup (base_indices g base) ->
      reached g0 (self_after (specialize g base)).

(** An object as the constructor and a call of [specialize] on a base
    without repetition leave it: well formed, with a matrix of size [n] and
    [n] labels. *)
Definition consistent (g : Graph) : Prop :=
  wf g /\ nrows (A g) = n g /\ ncols (A g) = n g /\ length (labels g) = n g.

(** The object as the call on its own list of labels leaves it, when no
    label occurs twice: the labels are the indices, the labeler is rebuilt
    from itself, the indexer from the labeler, and the matrix is rearranged
    in the order it has. *)
Definition own_after (g : Graph) : Graph :=
  let ixs := as_int <$> seq 0 (n g) in
  let lab := (fun i => (i, nth i (labels g) VNone)) <$> seq 0 (n g) in
  let self1 := set_labeler lab (set_labels ixs g) in
  let self2 := set_indexer (_update_indexer self1) self1 in
  set_A (SpMatrix (n g) (n g)
           (fun i j => entry (A g) (nth i (seq 0 (n g)) 0%nat) (nth j (seq 0 (n g)) 0%nat)))
        (set_labels ixs self2).

(** ** Stability *)

Section Stability.

(** The numerical routines are parameters: the float64 values [val] with
    [-1. * x], [np.abs] and the maximum of two values; the sample
    [np.linspace(-10, 10, 50000)]; the derivative
    [ag.elementwise_grad(func)] of an entry of the functional matrix,
    applied to an array; the eigenvalues [la.eig(Df)[0]], complex values
    [cval] with their modulus, where the routine does not raise. *)
Variables val cval : Type.
Variables (vneg vabs : val -> val) (vmax : val -> val -> val).
Variable domain : list val.
Variable grad : (Z -> Z) -> list val -> list val.
Variable eig : list (list val) -> result (list cval).
Variable cabs : cval -> val.

(** [np.max(a)]: an empty array has no maximum. *)
Definition np_max (a : list val) : result val :=
  match a with
  | [] => Err ValueError
  | x :: a' => Ok (foldl vmax x a')
  end.

(** [Graph.stability_matrix()]: the entries of [Df] are assigned row by
    row; [self.F[o_i, o_j]] on no functional matrix raises [TypeError]. *)
Definition stability_matrix (self : Graph) : result (list (list val)) :=
  mapM (fun i =>
          o_i ← original self i;
          mapM (fun j =>
                  o_j ← original self j;
                  func ← match F self with
                         | Some f => Ok (f o_i o_j)
                         | None => Err TypeError
                         end;
                  let _range := vneg <$> grad func domain in
                  np_max (vabs <$> _range))
               (seq 0 (n self)))
       (seq 0 (n self)).

(** [Graph.spectral_radius()]. *)
Definition spectral_radius (self : Graph) : result val :=
  Df ← stability_matrix self;
  eigs ← eig Df;
  np_max (cabs <$> eigs).

(** The order of the values: [m] is a largest element of [a]. *)
Variable vle : val -> val -> Prop.

Definition is_max (a : list val) (m : val) : Prop :=
  m ∈ a /\ Forall (fun x => vle x m) a.

(** [vmax] gives the larger of two values in a total preorder (no NaN). *)
Definition max_order : Prop :=
  (forall x, vle x x)
  /\ (forall x y z, vle x y -> vle y z -> vle x z)
  /\ (forall x y, (vmax x y = x /\ vle y x) \/ (vmax x y = y /\ vle x y)).

End Stability.

(** An instance of the routines over the integers: a sample of three
    points, the forward difference for the derivative, and the diagonal of
    a matrix for its eigenvalues. *)
Definition zdomain : list Z := [-10; 0; 10].
Definition zgrad (h : Z -> Z) (x : list Z) : list Z := (fun v => h (v + 1) - h v) <$> x.
Definition zeig (Df : list (list Z)) : result (list Z) :=
  Ok ((fun i => nth i (nth i Df []) 0) <$> seq 0 (length Df)).

(** The pair with a dot in a label, and a functional matrix. *)
Definition dottedf : Graph :=
  new_graph (of_rows 2 2 [[0;1]; [1;0]]) [VStr "a.b"; VStr "c"] (Some double_plus) None.

(** * Properties *)

(** ** Loops *)

Lemma mapM_length {X Y} (f : X -> result Y) l ys :
  mapM f l = Ok ys -> length ys = length l.
Proof.
  revert ys; induction l as [|x l IH]; intros ys; simpl.
  - intros [= <-]; reflexivity.
  - destruct (f x) as [y|e]; simpl; [|discriminate].
    destruct (mapM f l) as [ys'|e]; simpl; [|discriminate].
    intros [= <-]; simpl; f_equal; apply IH; reflexivity.
Qed.

Lemma mapM_ok {X Y} (f : X -> result Y) (g : X -> Y) l :
  (forall x, x ∈ l -> f x = Ok (g x)) -> mapM f l = Ok (g <$> l).
Proof.
  induction l as [|x l IH]; intros H; simpl; [reflexivity|].
  rewrite H by left. simpl. rewrite IH; [reflexivity|].
  intros y Hy; apply H; right; exact Hy.
Qed.

Lemma mapM_err {X Y} (f : X -> result Y) l x e :
  x ∈ l -> f x = Err e -> (forall y, y ∈ l -> forall e', f y = Err e' -> e' = e) ->
  mapM f l = Err e.
Proof.
  induction l as [|y l IH]; intros Hx Hfx Hall; [inversion Hx|].
  simpl. destruct (f y) as [b|e'] eqn:Hy; simpl.
  - apply elem_of_cons in Hx as [->|Hx]; [congruence|].
    rewrite IH; [reflexivity|exact Hx|exact Hfx|].
    intros z Hz; apply Hall; right; exact Hz.
  - f_equal. eapply Hall; [left|exact Hy].
Qed.

Lemma foldM_app {X St} (f : X -> St -> result St) l1 l2 s :
  foldM f (l1 ++ l2) s = (s' ← foldM f l1 s; foldM f l2 s').
Proof.
  revert s; induction l1 as [|x l1 IH]; intros s; simpl; [reflexivity|].
  destruct (f x s) as [s'|e]; simpl; [apply IH|reflexivity].
Qed.

Lemma foldM_nested {X Y St} (f : X -> Y -> St -> result St) xs ys s :
  foldM (fun x => foldM (f x) ys) xs s
  = foldM (fun xy => f xy.1 xy.2) (pairings xs ys) s.
Proof.
  unfold pairings. revert s; induction xs as [|x xs IH]; intros s; [reflexivity|].
  cbn [foldM mbind list_bind]. rewrite foldM_app.
  assert (E : forall s0, foldM (f x) ys s0
      = foldM (fun xy => f xy.1 xy.2) (y ← ys; [(x, y)]) s0).
  { clear. induction ys as [|y ys IH]; intros s0; [reflexivity|].
    cbn. destruct (f x y s0); simpl; [apply IH|reflexivity]. }
  rewrite E. destruct (foldM _ (y ← ys; [(x, y)]) s); simpl; [apply IH|reflexivity].
Qed.

Lemma length_pairings {X Y} (xs : list X) (ys : list Y) :
  length (pairings xs ys) = (length xs * length ys)%nat.
Proof.
  unfold pairings. induction xs as [|x xs IH]; [reflexivity|].
  cbn [mbind list_bind]. rewrite length_app, IH. simpl. f_equal.
  clear. induction ys; simpl; auto.
Qed.

(** ** Dicts *)

Lemma dict_set_fresh {V} k (v : V) d :
  k ∉ d.*1 -> dict_set k v d = d ++ [(k, v)].
Proof.
  induction d as [|[k' v'] d IH]; intros H; simpl; [reflexivity|].
  simpl in H. apply not_elem_of_cons in H as [H1 H2].
  destruct (Nat.eqb_spec k' k); [congruence|]. f_equal. apply IH, H2.
Qed.

Lemma dict_of_list_fresh {V} (kvs acc : list (nat * V)) :
  NoDup (acc.*1 ++ kvs.*1) ->
  foldl (fun d kv => dict_set kv.1 kv.2 d) acc kvs = acc ++ kvs.
Proof.
  revert acc; induction kvs as [|[k v] kvs IH]; intros acc H; simpl.
  - rewrite app_nil_r; reflexivity.
  - simpl in H. rewrite dict_set_fresh.
    + rewrite IH; [rewrite <- app_assoc; reflexivity|].
      rewrite fmap_app. simpl. rewrite <- app_assoc. exact H.
    + apply NoDup_app in H as (_ & H & _). intros Hk. apply (H k Hk). left.
Qed.

Lemma fst_zip_seq {V} a m (l : list V) :
  (zip (seq a m) l).*1 = seq a (Nat.min m (length l)).
Proof.
  revert a l; induction m as [|m IH]; intros a [|x l]; simpl; try reflexivity.
  f_equal. apply IH.
Qed.

Lemma dict_of_list_zip_seq {V} m (l : list V) :
  dict_of_list (zip (seq 0 m) l) = zip (seq 0 m) l.
Proof.
  unfold dict_of_list. rewrite dict_of_list_fresh; [reflexivity|].
  simpl. rewrite fst_zip_seq. apply NoDup_seq.
Qed.

Lemma dict_find_zip_seq {V} a m (l : list V) k :
  dict_find k (zip (seq a m) l)
  = if decide (a <= k < a + m)%nat then l !! (k - a)%nat else None.
Proof.
  revert a l; induction m as [|m IH]; intros a l; simpl.
  - case_decide; [lia|reflexivity].
  - destruct l as [|x l]; simpl.
    + case_decide; reflexivity.
    + destruct (Nat.eqb_spec a k) as [->|Hne].
      * rewrite Nat.sub_diag. case_decide; [reflexivity|lia].
      * rewrite IH. repeat case_decide; try lia; try reflexivity.
        replace (k - a)%nat with (S (k - S a)) by lia. reflexivity.
Qed.

Lemma map_of_list_lookup_acc (kvs : list (pyval * nat)) (m : gmap pyval nat) k v :
  foldl (fun m kv => <[kv.1 := kv.2]> m) m kvs !! k = Some v ->
  m !! k = Some v \/ (k, v) ∈ kvs.
Proof.
  revert m; induction kvs as [|[k' v'] kvs IH]; intros m; simpl; [auto|].
  intros H. apply IH in H as [H|H]; [|right; right; exact H].
  destruct (decide (k' = k)) as [->|Hne].
  - rewrite lookup_insert_eq in H. injection H as ->. right; left.
  - rewrite lookup_insert_ne in H by exact Hne. left; exact H.
Qed.

Lemma map_of_list_lookup kvs k v :
  map_of_list kvs !! k = Some v -> (k, v) ∈ kvs.
Proof.
  intros H. apply map_of_list_lookup_acc in H as [H|H]; [|exact H].
  rewrite lookup_empty in H; discriminate.
Qed.

Lemma map_of_list_is_Some_acc (kvs : list (pyval * nat)) (m : gmap pyval nat) k :
  is_Some (m !! k) \/ k ∈ kvs.*1 ->
  is_Some (foldl (fun m kv => <[kv.1 := kv.2]> m) m kvs !! k).
Proof.
  revert m; induction kvs as [|[k' v'] kvs IH]; intros m; simpl.
  - intros [H|H]; [exact H|inversion H].
  - intros H. apply IH. destruct (decide (k' = k)) as [->|Hne].
    + left. rewrite lookup_insert_eq. eauto.
    + destruct H as [H|H].
      * left. rewrite lookup_insert_ne by exact Hne. exact H.
      * apply elem_of_cons in H as [H|H]; [congruence|right; exact H].
Qed.

Lemma map_of_list_is_Some kvs k :
  k ∈ kvs.*1 -> is_Some (map_of_list kvs !! k).
Proof. intros H. apply map_of_list_is_Some_acc. right; exact H. Qed.

(** ** Base selections *)


Lemma resolve_base_known g base :
  forallb (known_label g) base = true ->
  resolve_base (indexer g) base = (as_int <$> base_indices g base, Ok tt).
Proof.
  induction base as [|b base IH]; simpl; [reflexivity|].
  intros H. apply andb_true_iff in H as [Hb H]. rewrite (IH H).
  destruct b as [s| |]; simpl in Hb; try discriminate.
  apply bool_decide_eq_true in Hb as [i Hi]. rewrite Hi. reflexivity.
Qed.

Lemma known_index_ints g base :
  forallb (known_index g) base = true -> base = as_int <$> base_indices g base.
Proof.
  induction base as [|b base IH]; [reflexivity|].
  intros H. simpl in H. apply andb_true_iff in H as [Hb H].
  unfold base_indices. rewrite !fmap_cons. f_equal; [|apply IH, H].
  destruct b as [|z|]; simpl in Hb; try discriminate.
  unfold as_int. rewrite Z2Nat.id by lia. reflexivity.
Qed.

Lemma wf_indexer_lt g k i : wf g -> indexer g !! k = Some i -> (i < n g)%nat.
Proof.
  intros Hwf H. rewrite (wf_indexer g Hwf) in H.
  apply map_of_list_lookup in H.
  apply list_elem_of_lookup in H as [j Hj].
  apply lookup_zip_with_Some in Hj as (x & y & [= <- <-] & _ & Hy).
  apply lookup_seq in Hy. lia.
Qed.

Lemma base_indices_lt g base :
  wf g -> homogeneous_known g base = true ->
  Forall (fun i => (i < n g)%nat) (base_indices g base).
Proof.
  intros Hwf H. apply Forall_fmap, Forall_forall. intros b Hb. simpl.
  apply orb_true_iff in H as [H|H]; rewrite forallb_forall in H;
    specialize (H b (proj1 (list_elem_of_In _ _) Hb)).
  - destruct b; simpl in H; try discriminate. lia.
  - destruct b; simpl in H; try discriminate.
    apply bool_decide_eq_true in H as [i Hi]. rewrite Hi. simpl.
    eapply wf_indexer_lt; eauto.
Qed.

Lemma spec_set_rest g bs :
  wf g -> spec_set g (as_int <$> bs) = rest_of g bs.
Proof.
  intros Hwf. unfold spec_set, rest_of. rewrite (wf_indices g Hwf).
  apply list_filter_iff. intros i. unfold not_in.
  rewrite negb_True, bool_decide_spec.
  split; intros H Hi; apply H.
  - apply list_elem_of_fmap. exists i. split; [reflexivity|exact Hi].
  - apply list_elem_of_fmap in Hi as (j & Hj & Hi).
    unfold as_int in Hj. injection Hj as Hj. apply Nat2Z.inj in Hj. subst. exact Hi.
Qed.

Lemma length_filter_split {X} (P : X -> Prop) `{!forall x, Decision (P x)} (l : list X) :
  (length (filter P l) + length (filter (fun x => ~ P x) l) = length l)%nat.
Proof.
  induction l as [|x l IH]; [reflexivity|].
  rewrite !filter_cons. destruct (decide (P x)); destruct (decide (~ P x));
    simpl; try tauto; lia.
Qed.

Lemma length_rest_of g bs :
  (n g <= length bs + length (rest_of g bs))%nat.
Proof.
  unfold rest_of.
  pose proof (length_filter_split (fun i => i ∈ bs) (seq 0 (n g))) as H.
  rewrite length_seq in H.
  assert (length (filter (fun i => i ∈ bs) (seq 0 (n g))) <= length bs)%nat.
  { apply submseteq_length, NoDup_submseteq.
    - apply NoDup_filter, NoDup_seq.
    - intros x Hx. apply list_elem_of_filter in Hx as [Hx _]. exact Hx. }
  lia.
Qed.

Lemma rest_of_lt g bs : Forall (fun i => (i < n g)%nat) (rest_of g bs).
Proof.
  apply Forall_forall. intros i Hi. apply list_elem_of_filter in Hi as [_ Hi].
  apply elem_of_seq in Hi. lia.
Qed.

Lemma node_order_lt g bs :
  Forall (fun i => (i < n g)%nat) bs -> Forall (fun i => (i < n g)%nat) (node_order g bs).
Proof. intros H. apply Forall_app. split; [exact H|apply rest_of_lt]. Qed.

Lemma permute_order g bs :
  wf g -> permute g (as_int <$> bs) = as_int <$> node_order g bs.
Proof.
  intros Hwf. unfold permute, node_order. rewrite spec_set_rest by exact Hwf.
  rewrite fmap_app. reflexivity.
Qed.

Lemma norm_index_as_int bad len i :
  (i < len)%nat -> norm_index bad len (as_int i) = Ok i.
Proof.
  intros H. unfold norm_index, as_int.
  destruct (Z.leb_spec 0 (Z.of_nat i)); [|lia].
  destruct (Z.ltb_spec (Z.of_nat i) (Z.of_nat len)); [|lia].
  simpl. rewrite Nat2Z.id. reflexivity.
Qed.

Lemma list_get_as_int {X} (l : list X) i d :
  (i < length l)%nat -> list_get l (as_int i) = Ok (nth i l d).
Proof.
  intros H. unfold list_get. rewrite norm_index_as_int by exact H. simpl.
  destruct (lookup_lt_is_Some_2 l i H) as [x Hx]. rewrite Hx.
  f_equal. symmetry. apply nth_lookup_Some with (d := d) in Hx. exact Hx.
Qed.

Lemma dict_get_wf g i :
  wf g -> (i < n g)%nat -> dict_get (labeler g) (as_int i) = Ok (nth i (labels g) VNone).
Proof.
  intros Hwf H. unfold dict_get, as_int.
  destruct (Z.leb_spec 0 (Z.of_nat i)); [|lia].
  rewrite Nat2Z.id, (wf_labeler g Hwf), dict_find_zip_seq.
  case_decide; [|lia]. rewrite Nat.sub_0_r.
  assert (Hl : (i < length (labels g))%nat) by (pose proof (wf_labels g Hwf); lia).
  destruct (lookup_lt_is_Some_2 _ _ Hl) as [x Hx]. rewrite Hx.
  f_equal. symmetry. apply nth_lookup_Some with (d := VNone) in Hx. exact Hx.
Qed.

Lemma mapM_as_int {Y} (f : pyval -> result Y) (h : nat -> Y) (l : list nat) :
  (forall i, i ∈ l -> f (as_int i) = Ok (h i)) ->
  mapM f (as_int <$> l) = Ok (h <$> l).
Proof.
  induction l as [|x l IH]; intros H; [reflexivity|].
  rewrite !fmap_cons. cbn [mapM]. rewrite H by left. simpl.
  rewrite IH; [reflexivity|]. intros i Hi. apply H. right. exact Hi.
Qed.

(** On a valid base selection [specialize] rearranges the object, base first,
    and then assembles the result from the rearranged object. *)
Lemma specialize_valid g base :
  wf g -> valid_base g base = true ->
  let bs := base_indices g base in
  let g' := rearranged g (node_order g bs) in
  specialize g base
  = Outcome (as_int <$> bs) g' (assemble g' (length bs) (length (rest_of g bs))).
Proof.
  intros Hwf Hv bs g'. unfold valid_base in Hv.
  apply andb_true_iff in Hv as [Hv Hk]. apply andb_true_iff in Hv as [Hne Hlen].
  apply negb_true_iff, bool_decide_eq_false in Hne. apply Nat.leb_le in Hlen.
  pose proof (base_indices_lt g base Hwf Hk) as Hlt. fold bs in Hlt.
  assert (Hbl : length bs = length base) by (unfold bs, base_indices; apply length_fmap).
  assert (Hres : match base with
                 | [] => True
                 | b0 :: _ =>
                     match b0 with
                     | VStr _ => resolve_base (indexer g) base
                     | VInt _ => (base, Ok tt)
                     | VNone => (base, Err ValueError)
                     end = (as_int <$> bs, Ok tt)
                 end).
  { destruct base as [|b0 base']; [exact I|].
    unfold homogeneous_known in Hk. apply orb_true_iff in Hk as [Hk|Hk].
    - pose proof (known_index_ints g _ Hk) as E. fold bs in E.
      simpl in Hk. apply andb_true_iff in Hk as [Hb _].
      destruct b0; simpl in Hb; try discriminate. rewrite <- E. reflexivity.
    - pose proof (resolve_base_known g _ Hk) as E. fold bs in E.
      simpl in Hk. apply andb_true_iff in Hk as [Hb _].
      destruct b0; simpl in Hb; try discriminate. exact E. }
  unfold specialize. destruct base as [|b0 base']; [congruence|].
  rewrite Hres. clear Hres.
  rewrite length_fmap, Hbl.
  destruct (Nat.ltb_spec (n g) (length (b0 :: base'))) as [|_]; [lia|].
  rewrite spec_set_rest, permute_order by exact Hwf.
  pose proof (node_order_lt g bs Hlt) as Hp.
  pose proof (length_rest_of g bs) as Hn.
  set (p := node_order g bs) in *.
  assert (Hpl : (n g <= length p)%nat) by (unfold p, node_order; rewrite length_app; lia).
  assert (E1 : permute_labeler g (as_int <$> p)
               = Ok ((fun i => (i, nth (nth i p 0%nat) (labels g) VNone)) <$> seq 0 (n g))).
  { unfold permute_labeler. apply mapM_ok. intros i Hi. apply elem_of_seq in Hi.
    change (VInt (Z.of_nat i)) with (as_int i).
    rewrite (list_get_as_int _ i VNone) by (rewrite length_fmap; lia).
    cbn [mbind result_bind].
    assert (Hi' : (i < length p)%nat) by lia.
    destruct (lookup_lt_is_Some_2 _ _ Hi') as [x Hx].
    assert (Ex : nth i (as_int <$> p) VNone = as_int (nth i p 0%nat)).
    { apply nth_lookup_Some with (d := 0%nat) in Hx as Hx'. rewrite Hx'.
      apply nth_lookup_Some. rewrite list_lookup_fmap, Hx. reflexivity. }
    rewrite Ex, dict_get_wf; [reflexivity|exact Hwf|].
    rewrite Forall_forall in Hp. apply Hp.
    apply nth_lookup_Some with (d := 0%nat) in Hx as Hx'. rewrite Hx'.
    apply list_elem_of_lookup. eauto. }
  rewrite E1. cbn [labels set_indexer set_labeler].
  rewrite (mapM_as_int _ (fun k => nth k (labels g) VNone)).
  2:{ intros i Hi. apply list_get_as_int. pose proof (wf_labels g Hwf).
      rewrite Forall_forall in Hp. specialize (Hp i Hi). simpl in Hp. lia. }
  unfold fancy. cbn [A set_labels set_indexer set_labeler].
  rewrite !(mapM_as_int _ (fun k => k)).
  2,3: intros i Hi; apply norm_index_as_int;
       pose proof (wf_rows g Hwf); pose proof (wf_cols g Hwf);
       rewrite Forall_forall in Hp; specialize (Hp i Hi); simpl in Hp; lia.
  cbn [mbind result_bind mret result_ret]. rewrite list_fmap_id.
  unfold rest_of at 1. fold (rest_of g bs). reflexivity.
Qed.

(** ** Matrices *)

Lemma argwhere_elem M r c :
  (r, c) ∈ argwhere M <-> (r < nrows M)%nat /\ (c < ncols M)%nat /\ entry M r c <> 0.
Proof.
  unfold argwhere. rewrite list_elem_of_bind. split.
  - intros (i & Hj & Hi). apply list_elem_of_bind in Hj as (j & Hj & Hjs).
    apply elem_of_seq in Hi, Hjs. case_decide; [inversion Hj|].
    apply list_elem_of_singleton in Hj. injection Hj as -> ->. repeat split; [lia|lia|assumption].
  - intros (Hr & Hc & Hne). exists r. split; [|apply elem_of_seq; lia].
    apply list_elem_of_bind. exists c. split; [|apply elem_of_seq; lia].
    case_decide; [contradiction|]. left.
Qed.

Lemma zsum_zero l : Forall (fun z => z = 0) l -> zsum l = 0.
Proof. induction 1 as [|x l -> _ IH]; simpl; [reflexivity|]. rewrite IH. reflexivity. Qed.

Lemma argwhere_nil_msum M : argwhere M = [] -> msum M = 0.
Proof.
  intros H. unfold msum. apply zsum_zero, Forall_fmap, Forall_forall.
  intros i Hi. simpl. apply zsum_zero, Forall_fmap, Forall_forall.
  intros j Hj. simpl. apply elem_of_seq in Hi, Hj.
  destruct (decide (entry M i j = 0)) as [E|E]; [exact E|].
  assert (Hin : (i, j) ∈ argwhere M) by (apply argwhere_elem; repeat split; [lia|lia|exact E]).
  rewrite H in Hin. inversion Hin.
Qed.

Lemma setitem_ok S_ i j v :
  (i < nrows S_)%nat -> (j < ncols S_)%nat -> setitem S_ i j v = Ok (put S_ i j v).
Proof.
  intros Hi Hj. unfold setitem.
  destruct (Nat.ltb_spec i (nrows S_)); [|lia].
  destruct (Nat.ltb_spec j (ncols S_)); [|lia]. reflexivity.
Qed.

Lemma setitem_inv S_ i j v S' :
  setitem S_ i j v = Ok S' ->
  (i < nrows S_)%nat /\ (j < ncols S_)%nat /\ S' = put S_ i j v.
Proof.
  unfold setitem.
  destruct (Nat.ltb_spec i (nrows S_)); [|discriminate].
  destruct (Nat.ltb_spec j (ncols S_)); [|discriminate].
  simpl. intros [= <-]. auto.
Qed.

(** The block-diagonal matrix of a base block followed by [k] copies of one
    square block. *)
Lemma block_diag_copies_shape B k :
  nrows (block_diag (replicate k B)) = (k * nrows B)%nat /\
  ncols (block_diag (replicate k B)) = (k * ncols B)%nat.
Proof. induction k as [|k [IH1 IH2]]; simpl; [auto|]. rewrite IH1, IH2. auto. Qed.

Lemma block_diag_copies_entry B k s c c' r r' :
  nrows B = s -> ncols B = s -> (r < s)%nat -> (r' < s)%nat ->
  (c < k)%nat -> (c' < k)%nat ->
  entry (block_diag (replicate k B)) (c * s + r) (c' * s + r')
  = if (c =? c')%nat then entry B r r' else 0.
Proof.
  intros Hr Hc Hlr Hlr'. revert c c'.
  induction k as [|k IH]; intros c c' Hk Hk'; [lia|].
  cbn [replicate block_diag entry]. rewrite Hr, Hc.
  destruct c as [|c], c' as [|c']; simpl Nat.eqb.
  - simpl. destruct (Nat.ltb_spec r s); [|lia]. destruct (Nat.ltb_spec r' s); [|lia].
    reflexivity.
  - destruct (Nat.ltb_spec (0 * s + r) s); [|lia].
    destruct (Nat.ltb_spec (S c' * s + r') s); [lia|]. reflexivity.
  - destruct (Nat.ltb_spec (S c * s + r) s); [lia|].
    destruct (Nat.ltb_spec (0 * s + r') s); [|lia]. reflexivity.
  - destruct (Nat.ltb_spec (S c * s + r) s); [lia|].
    destruct (Nat.ltb_spec (S c' * s + r') s); [lia|].
    replace (S c * s + r - s)%nat with (c * s + r)%nat by lia.
    replace (S c' * s + r' - s)%nat with (c' * s + r')%nat by lia.
    apply IH; lia.
Qed.

Lemma block_pos_inj s c r c' r' :
  (r < s)%nat -> (r' < s)%nat -> (c * s + r = c' * s + r')%nat -> c = c' /\ r = r'.
Proof.
  intros Hr Hr' E.
  assert (c = c').
  { destruct (Nat.lt_trichotomy c c') as [H|[H|H]]; [|exact H|]; exfalso; nia. }
  subst. split; [reflexivity|lia].
Qed.

Section Rewiring.

Variables (bl sl : nat) (in_graph out_graph : spmatrix).

Local Abbreviation step := (rewire_pair bl sl in_graph out_graph).
Local Abbreviation in_bounds := (in_bounds bl sl).
Local Abbreviation rw := (rewired bl sl in_graph out_graph).

Lemma rewire_pair_ok xy S0 i k :
  in_bounds xy -> nrows S0 = (bl + k * sl)%nat -> ncols S0 = (bl + k * sl)%nat ->
  (i < k)%nat -> step xy (S0, i) = Ok (rw xy S0 i, (i + 1)%nat).
Proof.
  intros (H1 & H2 & H3 & H4) Hr Hc Hk. unfold rewire_pair, rewire_step.
  rewrite setitem_ok by (rewrite ?Hr, ?Hc; nia). cbn [mbind result_bind].
  rewrite setitem_ok by (cbn [put nrows ncols]; rewrite ?Hr, ?Hc; nia).
  reflexivity.
Qed.

Lemma rewire_pair_inv xy S0 i k st :
  in_bounds xy -> nrows S0 = (bl + k * sl)%nat ->
  step xy (S0, i) = Ok st -> (i < k)%nat /\ st = (rw xy S0 i, (i + 1)%nat).
Proof.
  intros (H1 & H2 & H3 & H4) Hr. unfold rewire_pair, rewire_step.
  destruct (setitem S0 _ _ _) as [S1|e] eqn:E1; [|discriminate].
  apply setitem_inv in E1 as (Hi & _ & ->). cbn [mbind result_bind].
  destruct (setitem _ _ _ _) as [S2|e] eqn:E2; [|discriminate].
  apply setitem_inv in E2 as (_ & _ & ->). cbn [mbind result_bind mret result_ret].
  intros [= <-]. split; [rewrite Hr in Hi; nia|reflexivity].
Qed.

Lemma rewire_loop_ok ps i0 k S0 :
  Forall in_bounds ps ->
  nrows S0 = (bl + k * sl)%nat -> ncols S0 = (bl + k * sl)%nat ->
  (i0 + length ps <= k)%nat ->
  exists S', foldM step ps (S0, i0) = Ok (S', (i0 + length ps)%nat).
Proof.
  intros Hb. revert i0 S0. induction Hb as [|xy ps Hxy _ IH]; intros i0 S0 Hr Hc Hk.
  - exists S0. simpl. rewrite Nat.add_0_r. reflexivity.
  - simpl in Hk. cbn [foldM]. rewrite (rewire_pair_ok xy S0 i0 k) by (assumption || lia).
    cbn [mbind result_bind].
    destruct (IH (i0 + 1)%nat (rw xy S0 i0)) as [S' HS']; [assumption|assumption|lia|].
    exists S'. rewrite HS'. do 2 f_equal. simpl. lia.
Qed.

Lemma rewire_loop_bound ps i0 k S0 :
  Forall in_bounds ps ->
  nrows S0 = (bl + k * sl)%nat -> ncols S0 = (bl + k * sl)%nat ->
  is_ok (foldM step ps (S0, i0)) = true ->
  ps = [] \/ (i0 + length ps <= k)%nat.
Proof.
  intros Hb. revert i0 S0. induction Hb as [|xy ps Hxy _ IH];
    intros i0 S0 Hr Hc Hok; [left; reflexivity|right].
  cbn [foldM] in Hok.
  destruct (step xy (S0, i0)) as [st|e] eqn:E; [|discriminate].
  apply (rewire_pair_inv _ _ _ k) in E as [Hi ->]; [|assumption..].
  cbn [mbind result_bind] in Hok. apply IH in Hok; [|assumption..].
  destruct Hok as [->|Hok]; simpl; lia.
Qed.

Lemma rewired_base xy S0 i x y :
  (x < bl)%nat -> (y < bl)%nat -> entry (rw xy S0 i) x y = entry S0 x y.
Proof.
  intros Hx Hy. unfold rewired. cbn [put entry].
  destruct (Nat.eqb_spec y (bl + i * sl + xy.2.2)); [lia|]. rewrite andb_false_r.
  destruct (Nat.eqb_spec x (bl + i * sl + xy.1.1)); [lia|]. reflexivity.
Qed.

Lemma rewired_spec xy S0 i x y :
  (bl <= x)%nat -> (bl <= y)%nat -> in_bounds xy ->
  entry (rw xy S0 i) x y = entry S0 x y.
Proof.
  intros Hx Hy (H1 & H2 & H3 & H4). unfold rewired. cbn [put entry].
  destruct (Nat.eqb_spec x xy.2.1); [lia|]. cbn [andb].
  destruct (Nat.eqb_spec y xy.1.2); [lia|]. rewrite andb_false_r. reflexivity.
Qed.

Lemma rewired_in xy S0 i c r y :
  (r < sl)%nat -> (y < bl)%nat -> in_bounds xy ->
  entry (rw xy S0 i) (bl + c * sl + r) y
  = if decide (c = i /\ (r, y) = xy.1) then entry in_graph r y
    else entry S0 (bl + c * sl + r) y.
Proof.
  intros Hr Hy (H1 & H2 & H3 & H4). unfold rewired. cbn [put entry].
  destruct (Nat.eqb_spec y (bl + i * sl + xy.2.2)); [lia|]. rewrite andb_false_r.
  destruct xy as [[ir ic] oe]. cbn [fst snd] in *.
  destruct (decide (c = i /\ (r, y) = (ir, ic))) as [[-> [= -> ->]]|D].
  - rewrite !Nat.eqb_refl. reflexivity.
  - destruct (Nat.eqb_spec (bl + c * sl + r) (bl + i * sl + ir)) as [E|E]; [|reflexivity].
    destruct (Nat.eqb_spec y ic) as [E'|E']; [|reflexivity].
    exfalso. apply D. destruct (block_pos_inj sl c r i ir) as [-> ->]; [lia..|].
    subst. auto.
Qed.

Lemma rewired_out xy S0 i c x r :
  (x < bl)%nat -> (r < sl)%nat -> in_bounds xy ->
  entry (rw xy S0 i) x (bl + c * sl + r)
  = if decide (c = i /\ (x, r) = xy.2) then entry out_graph x r
    else entry S0 x (bl + c * sl + r).
Proof.
  intros Hx Hr (H1 & H2 & H3 & H4). unfold rewired. cbn [put entry].
  destruct xy as [ie [or oc]]. cbn [fst snd] in *.
  destruct (decide (c = i /\ (x, r) = (or, oc))) as [[-> [= -> ->]]|D].
  - rewrite !Nat.eqb_refl. reflexivity.
  - destruct (Nat.eqb_spec x (bl + i * sl + ie.1)); [lia|]. cbn [andb].
    destruct (Nat.eqb_spec x or) as [E|E]; [|reflexivity].
    destruct (Nat.eqb_spec (bl + c * sl + r) (bl + i * sl + oc)) as [E'|E']; [|reflexivity].
    exfalso. apply D. destruct (block_pos_inj sl c r i oc) as [-> ->]; [lia..|].
    subst. auto.
Qed.

End Rewiring.

Section RewiringLoop.

Variables (bl sl : nat) (in_graph out_graph : spmatrix).

Local Abbreviation step := (rewire_pair bl sl in_graph out_graph).
Local Abbreviation rw := (rewired bl sl in_graph out_graph).

Lemma pairing_of_cons xy ps i0 c :
  pairing_of (xy :: ps) i0 c
  = if decide (c = i0) then Some xy else pairing_of ps (i0 + 1) c.
Proof.
  unfold pairing_of. repeat case_decide; try lia; try reflexivity.
  - subst. rewrite Nat.sub_diag. reflexivity.
  - replace (c - i0)%nat with (S (c - (i0 + 1))) by lia. reflexivity.
Qed.

Lemma rewire_loop_entries ps :
  Forall (in_bounds bl sl) ps ->
  forall i0 k S0 S' i',
  nrows S0 = (bl + k * sl)%nat ->
  foldM step ps (S0, i0) = Ok (S', i') ->
  i' = (i0 + length ps)%nat /\ nrows S' = nrows S0 /\ ncols S' = ncols S0 /\
  (forall x y, (x < bl)%nat -> (y < bl)%nat -> entry S' x y = entry S0 x y) /\
  (forall x y, (bl <= x)%nat -> (bl <= y)%nat -> entry S' x y = entry S0 x y) /\
  (forall c r y, (r < sl)%nat -> (y < bl)%nat ->
     entry S' (bl + c * sl + r) y
     = match pairing_of ps i0 c with
       | Some xy => if decide ((r, y) = xy.1) then entry in_graph r y
                    else entry S0 (bl + c * sl + r) y
       | None => entry S0 (bl + c * sl + r) y
       end) /\
  (forall c x r, (x < bl)%nat -> (r < sl)%nat ->
     entry S' x (bl + c * sl + r)
     = match pairing_of ps i0 c with
       | Some xy => if decide ((x, r) = xy.2) then entry out_graph x r
                    else entry S0 x (bl + c * sl + r)
       | None => entry S0 x (bl + c * sl + r)
       end).
Proof.
  induction 1 as [|xy ps Hxy Hps IH]; intros i0 k S0 S' i' Hr Hrun.
  - simpl in Hrun. injection Hrun as <- <-. simpl. rewrite Nat.add_0_r.
    repeat split; try reflexivity; intros; unfold pairing_of;
      case_decide; rewrite ?lookup_nil; reflexivity.
  - cbn [foldM] in Hrun.
    destruct (step xy (S0, i0)) as [st|e] eqn:E; [|discriminate].
    apply (rewire_pair_inv _ _ _ _ _ _ _ k) in E as [Hi ->]; [|assumption..].
    cbn [mbind result_bind] in Hrun.
    apply (IH _ k) in Hrun as (-> & Hn & Hm & Hbb & Hss & Hin & Hout); [|exact Hr].
    split; [simpl; lia|]. split; [exact Hn|]. split; [exact Hm|].
    split; [|split; [|split]].
    + intros x y Hx Hy. rewrite Hbb by assumption. apply rewired_base; assumption.
    + intros x y Hx Hy. rewrite Hss by assumption. apply rewired_spec; assumption.
    + intros c r y Hlr Hy. rewrite Hin by assumption. rewrite pairing_of_cons.
      rewrite !rewired_in by assumption.
      destruct (decide (c = i0)) as [->|Hc].
      * unfold pairing_of. case_decide; [lia|].
        destruct (decide ((r, y) = xy.1)); case_decide; tauto || reflexivity.
      * destruct (pairing_of ps (i0 + 1) c) as [xy'|];
          repeat case_decide; tauto || reflexivity.
    + intros c x r Hx Hlr. rewrite Hout by assumption. rewrite pairing_of_cons.
      rewrite !rewired_out by assumption.
      destruct (decide (c = i0)) as [->|Hc].
      * unfold pairing_of. case_decide; [lia|].
        destruct (decide ((x, r) = xy.2)); case_decide; tauto || reflexivity.
      * destruct (pairing_of ps (i0 + 1) c) as [xy'|];
          repeat case_decide; tauto || reflexivity.
Qed.

End RewiringLoop.

(** ** Labels of the copies *)

Lemma list_set_ok {X} (l : list X) k v :
  (k < length l)%nat -> list_set l k v = Ok (<[k := v]> l).
Proof. intros H. unfold list_set. destruct (Nat.ltb_spec k (length l)); [reflexivity|lia]. Qed.

Section CopyLabels.

Variables (old : list pyval) (bl sl : nat).
Hypothesis old_str : forall j, (j < sl)%nat -> exists s, old !! (bl + j)%nat = Some (VStr s).

Local Abbreviation body i := (fun j lbls =>
  lab ← match old !! (bl + j)%nat with
        | Some l => Ok l
        | None => Err IndexError
        end;
  new ← str_add lab ("." ++ str_of_nat (i + 1));
  list_set lbls (bl + i * sl + j)%nat new).

Lemma copy_labels_inner i cnt : forall j0 pre rest,
  (j0 + cnt <= sl)%nat -> length pre = (bl + i * sl + j0)%nat ->
  foldM (body i) (seq j0 cnt) (pre ++ replicate cnt VNone ++ rest)
  = Ok (pre ++ (copy_label old bl i <$> seq j0 cnt) ++ rest).
Proof.
  induction cnt as [|cnt IH]; intros j0 pre rest Hj Hpre; [reflexivity|].
  cbn [seq foldM replicate]. destruct (old_str j0) as [s Hs]; [lia|].
  rewrite Hs. cbn [mbind result_bind str_add].
  rewrite <- Hpre.
  rewrite list_set_ok by (rewrite length_app; simpl; lia).
  replace (length pre) with (length pre + 0)%nat at 1 by lia.
  rewrite insert_app_r. cbn [app]. cbn [insert list_insert].
  rewrite (cons_middle _ pre), app_assoc. cbn [mbind result_bind].
  rewrite IH by (rewrite ?length_app; simpl; lia).
  rewrite <- app_assoc. cbn [app fmap list_fmap]. do 3 f_equal.
  unfold copy_label. apply nth_lookup_Some with (d := VNone) in Hs. rewrite Hs.
  reflexivity.
Qed.

Lemma copy_labels_outer cnt : forall i0 pre rest,
  length pre = (bl + i0 * sl)%nat ->
  foldM (fun i => foldM (body i) (seq 0 sl)) (seq i0 cnt)
        (pre ++ replicate (cnt * sl) VNone ++ rest)
  = Ok (pre ++ (i ← seq i0 cnt; copy_label old bl i <$> seq 0 sl) ++ rest).
Proof.
  induction cnt as [|cnt IH]; intros i0 pre rest Hpre; [reflexivity|].
  cbn [seq foldM]. replace (S cnt * sl)%nat with (sl + cnt * sl)%nat by lia.
  rewrite replicate_add, <- app_assoc.
  rewrite copy_labels_inner by lia. cbn [mbind result_bind].
  rewrite app_assoc, IH by (rewrite length_app, length_fmap, length_seq; lia).
  rewrite <- !app_assoc. rewrite bind_cons, <- app_assoc. reflexivity.
Qed.

Lemma copy_labels_ok k :
  (bl <= length old)%nat ->
  copy_labels old bl sl k
  = Ok (take bl old ++ (i ← seq 0 k; copy_label old bl i <$> seq 0 sl)).
Proof.
  intros Hlen. unfold copy_labels.
  pose proof (copy_labels_outer k 0 (take bl old) []) as H.
  rewrite !app_nil_r in H. apply H. rewrite length_take. lia.
Qed.

End CopyLabels.

Lemma length_copy_labels old bl sl a k :
  length (i ← seq a k; copy_label old bl i <$> seq 0 sl) = (k * sl)%nat.
Proof.
  revert a. induction k as [|k IH]; intros a; [reflexivity|].
  cbn [seq]. rewrite bind_cons, length_app, IH, length_fmap, length_seq. reflexivity.
Qed.

(** ** The constructor *)

Lemma Graph_init_list A0 l F0 o :
  nrows A0 = ncols A0 -> length l = nrows A0 ->
  (exists s rest, l = VStr s :: rest) ->
  Graph_init A0 (LList l) F0 o = Ok (new_graph A0 l F0 o).
Proof.
  intros Hsq Hlen (s & rest & ->). unfold Graph_init.
  rewrite <- Hsq, Nat.eqb_refl. cbn [negb]. rewrite Hlen, Nat.eqb_refl. reflexivity.
Qed.

Lemma new_graph_wf A0 l F0 o :
  nrows A0 = ncols A0 -> length l = nrows A0 ->
  Forall (fun v => is_str v = true) l -> wf (new_graph A0 l F0 o).
Proof.
  intros Hsq Hlen Hstr. constructor; cbn; auto; try lia.
  apply dict_of_list_zip_seq.
Qed.

(** ** Assembling the result *)

Section Assemble.

Variables (h : Graph) (bl sl : nat).
Hypothesis h_rows : nrows (A h) = (bl + sl)%nat.
Hypothesis h_cols : ncols (A h) = (bl + sl)%nat.
Hypothesis h_labels : length (labels h) = (bl + sl)%nat.
Hypothesis h_str : Forall (fun v => is_str v = true) (labels h).
Hypothesis h_base : (0 < bl)%nat.

Local Abbreviation in_graph := (cols_upto bl (rows_from bl (A h))).
Local Abbreviation out_graph := (cols_from bl (rows_upto bl (A h))).
Local Abbreviation k := (Z.to_nat (num_copies h bl)).
Local Abbreviation ps := (pairings (argwhere in_graph) (argwhere out_graph)).
Local Abbreviation S0 :=
  (block_diag (cols_upto bl (rows_upto bl (A h))
               :: replicate k (cols_from bl (rows_from bl (A h))))).
Local Abbreviation new_labels :=
  (take bl (labels h) ++ (i ← seq 0 k; copy_label (labels h) bl i <$> seq 0 sl)).

Lemma pairings_in_bounds : Forall (in_bounds bl sl) ps.
Proof.
  apply Forall_forall. intros [[ir ic] [or oc]] H. unfold pairings in H.
  apply list_elem_of_bind in H as (ie & H & Hie).
  apply list_elem_of_bind in H as (oe & H & Hoe).
  apply list_elem_of_singleton in H. injection H as <- <-.
  apply argwhere_elem in Hie as (H1 & H2 & _). apply argwhere_elem in Hoe as (H3 & H4 & _).
  cbn [nrows ncols cols_upto cols_from rows_upto rows_from] in *.
  unfold in_bounds. cbn [fst snd]. lia.
Qed.

Lemma S0_shape : nrows S0 = (bl + k * sl)%nat /\ ncols S0 = (bl + k * sl)%nat.
Proof.
  cbn [block_diag nrows ncols].
  destruct (block_diag_copies_shape (cols_from bl (rows_from bl (A h))) k) as [-> ->].
  cbn [nrows ncols cols_upto cols_from rows_upto rows_from]. lia.
Qed.

Lemma h_old_str j :
  (j < sl)%nat -> exists s, labels h !! (bl + j)%nat = Some (VStr s).
Proof.
  intros Hj. destruct (lookup_lt_is_Some_2 (labels h) (bl + j)) as [v Hv]; [lia|].
  rewrite Forall_forall in h_str. pose proof (h_str v) as Hs.
  destruct v as [s| |]; [eauto| |]; discriminate Hs; apply list_elem_of_lookup; eauto.
Qed.

Lemma new_labels_length : length new_labels = (bl + k * sl)%nat.
Proof. rewrite length_app, length_take, length_copy_labels. lia. Qed.

Lemma new_labels_str : Forall (fun v => is_str v = true) new_labels.
Proof.
  apply Forall_app. split; [apply Forall_take, h_str|].
  apply Forall_forall. intros v Hv. apply list_elem_of_bind in Hv as (i & Hv & _).
  apply list_elem_of_fmap in Hv as (j & -> & Hj). apply elem_of_seq in Hj.
  unfold copy_label. destruct (h_old_str j) as [s Hs]; [lia|].
  apply nth_lookup_Some with (d := VNone) in Hs. rewrite Hs. reflexivity.
Qed.

(** [assemble] is the rewiring loop followed by the construction of the
    result, which cannot fail. *)
Lemma assemble_eq :
  assemble h bl sl
  = match foldM (rewire_pair bl sl in_graph out_graph) ps (S0, 0%nat) with
    | Ok (S', _) => Ok (new_graph S' new_labels (F h) (Some (origin h)))
    | Err e => Err e
    end.
Proof.
  unfold assemble, rewire. rewrite foldM_nested.
  change (fun xy => rewire_step bl sl in_graph out_graph xy.1 xy.2)
    with (rewire_pair bl sl in_graph out_graph).
  destruct (foldM _ ps _) as [[S' i']|e] eqn:E; [|reflexivity].
  cbn [mbind result_bind].
  rewrite (copy_labels_ok _ _ _ h_old_str) by lia. cbn [mbind result_bind].
  destruct S0_shape as [Hr0 Hc0].
  apply (rewire_loop_entries _ _ _ _ _ pairings_in_bounds _ k) in E
    as (_ & Hr & Hc & _); [|exact Hr0].
  apply Graph_init_list.
  - rewrite Hr, Hc, Hr0, Hc0. reflexivity.
  - rewrite new_labels_length, Hr, Hr0. reflexivity.
  - destruct (labels h) as [|v l] eqn:El; [simpl in h_labels; lia|].
    destruct bl as [|b]; [lia|]. cbn [take app].
    inversion h_str as [|? ? Hv _]; subst. destruct v; try discriminate. eauto.
Qed.

End Assemble.

(** ** The boundary blocks of the rearranged network *)

Lemma zsum_ext {X} (f h : X -> Z) l :
  (forall x, x ∈ l -> f x = h x) -> zsum (f <$> l) = zsum (h <$> l).
Proof.
  induction l as [|x l IH]; intros H; [reflexivity|].
  cbn. rewrite (H x) by left. f_equal. apply IH. intros y Hy. apply H. right. exact Hy.
Qed.

Lemma msum_ext M N :
  nrows M = nrows N -> ncols M = ncols N ->
  (forall i j, (i < nrows M)%nat -> (j < ncols M)%nat -> entry M i j = entry N i j) ->
  msum M = msum N.
Proof.
  intros Hr Hc H. unfold msum. rewrite <- Hr, <- Hc.
  apply zsum_ext. intros i Hi. apply zsum_ext. intros j Hj.
  apply elem_of_seq in Hi, Hj. apply H; lia.
Qed.

Lemma bind_ext_in {X Y} (f h : X -> list Y) (l : list X) :
  (forall x, x ∈ l -> f x = h x) -> l ≫= f = l ≫= h.
Proof.
  induction l as [|x l IH]; intros H; [reflexivity|].
  rewrite !bind_cons, (H x) by left. f_equal. apply IH. intros y Hy. apply H. right. exact Hy.
Qed.

Lemma argwhere_ext M N :
  nrows M = nrows N -> ncols M = ncols N ->
  (forall i j, (i < nrows M)%nat -> (j < ncols M)%nat -> entry M i j = entry N i j) ->
  argwhere M = argwhere N.
Proof.
  intros Hr Hc H. unfold argwhere. rewrite <- Hr, <- Hc.
  apply bind_ext_in. intros i Hi. apply bind_ext_in. intros j Hj.
  apply elem_of_seq in Hi, Hj. rewrite H by lia. reflexivity.
Qed.

Section Boundary.

Variables (g : Graph) (bs : list nat).

Local Abbreviation rest := (rest_of g bs).
Local Abbreviation g1 := (rearranged g (node_order g bs)).
Local Abbreviation bl := (length bs).
Local Abbreviation sl := (length rest).

Lemma nth_order_base i : (i < bl)%nat -> nth i (node_order g bs) 0%nat = nth i bs 0%nat.
Proof. intros H. unfold node_order. apply app_nth1. exact H. Qed.

Lemma nth_order_rest i : nth (i + bl) (node_order g bs) 0%nat = nth i rest 0%nat.
Proof.
  unfold node_order. rewrite app_nth2 by lia. f_equal. lia.
Qed.

Lemma g1_rows : nrows (A g1) = (bl + sl)%nat.
Proof. cbn. unfold node_order. apply length_app. Qed.

Lemma g1_cols : ncols (A g1) = (bl + sl)%nat.
Proof. cbn. unfold node_order. apply length_app. Qed.

Lemma g1_labels : length (labels g1) = (bl + sl)%nat.
Proof. cbn. rewrite length_fmap. unfold node_order. apply length_app. Qed.

Lemma in_graph_into_spec :
  let M := cols_upto bl (rows_from bl (A g1)) in
  nrows M = nrows (into_spec g bs) /\ ncols M = ncols (into_spec g bs) /\
  forall i j, (i < nrows M)%nat -> (j < ncols M)%nat ->
              entry M i j = entry (into_spec g bs) i j.
Proof.
  cbn [cols_upto rows_from nrows ncols entry into_spec].
  rewrite g1_rows, g1_cols. split; [lia|]. split; [lia|].
  intros i j Hi Hj. cbn [rearranged A entry].
  rewrite nth_order_rest, nth_order_base by lia. reflexivity.
Qed.

Lemma out_graph_out_of_spec :
  let M := cols_from bl (rows_upto bl (A g1)) in
  nrows M = nrows (out_of_spec g bs) /\ ncols M = ncols (out_of_spec g bs) /\
  forall i j, (i < nrows M)%nat -> (j < ncols M)%nat ->
              entry M i j = entry (out_of_spec g bs) i j.
Proof.
  cbn [cols_from rows_upto nrows ncols entry out_of_spec].
  rewrite g1_rows, g1_cols. split; [lia|]. split; [lia|].
  intros i j Hi Hj. cbn [rearranged A entry].
  rewrite nth_order_rest, nth_order_base by lia. reflexivity.
Qed.

Lemma num_copies_copies : num_copies g1 bl = copies g bs.
Proof.
  unfold num_copies, num_in, num_out, copies, msum64.
  destruct in_graph_into_spec as (H1 & H2 & H3).
  destruct out_graph_out_of_spec as (H4 & H5 & H6).
  rewrite (msum_ext _ _ H1 H2 H3), (msum_ext _ _ H4 H5 H6). reflexivity.
Qed.

Lemma pairings_boundary :
  pairings (argwhere (cols_upto bl (rows_from bl (A g1))))
           (argwhere (cols_from bl (rows_upto bl (A g1))))
  = boundary_pairings g bs.
Proof.
  unfold boundary_pairings.
  destruct in_graph_into_spec as (H1 & H2 & H3).
  destruct out_graph_out_of_spec as (H4 & H5 & H6).
  rewrite (argwhere_ext _ _ H1 H2 H3), (argwhere_ext _ _ H4 H5 H6). reflexivity.
Qed.

End Boundary.

(** ** A call on a valid base selection *)

Lemma rearranged_str g p :
  wf g -> Forall (fun i => (i < n g)%nat) p ->
  Forall (fun v => is_str v = true) (labels (rearranged g p)).
Proof.
  intros Hwf Hp. cbn. apply Forall_fmap, Forall_forall. intros i Hi. simpl.
  rewrite Forall_forall in Hp. specialize (Hp i Hi). simpl in Hp.
  pose proof (wf_labels g Hwf) as Hl. pose proof (wf_str g Hwf) as Hs.
  rewrite Forall_forall in Hs. apply Hs, list_elem_of_In, nth_In. lia.
Qed.

Lemma valid_base_nonempty g base :
  valid_base g base = true -> (0 < length (base_indices g base))%nat.
Proof.
  unfold valid_base. intros H. apply andb_true_iff in H as [H _].
  apply andb_true_iff in H as [H _]. apply negb_true_iff, bool_decide_eq_false in H.
  unfold base_indices. rewrite length_fmap. destruct base; [congruence|simpl; lia].
Qed.

Section ValidCall.

Variables (g : Graph) (base : list pyval).
Hypothesis Hwf : wf g.
Hypothesis Hv : valid_base g base = true.

Local Abbreviation bs := (base_indices g base).
Local Abbreviation rest := (rest_of g bs).
Local Abbreviation g1 := (rearranged g (node_order g bs)).
Local Abbreviation bl := (length bs).
Local Abbreviation sl := (length rest).
Local Abbreviation k := (Z.to_nat (copies g bs)).
Local Abbreviation ps := (boundary_pairings g bs).
Local Abbreviation in_graph := (cols_upto bl (rows_from bl (A g1))).
Local Abbreviation out_graph := (cols_from bl (rows_upto bl (A g1))).
Local Abbreviation S0 :=
  (block_diag (cols_upto bl (rows_upto bl (A g1))
               :: replicate k (cols_from bl (rows_from bl (A g1))))).
Local Abbreviation new_labels :=
  (take bl (labels g1) ++ (i ← seq 0 k; copy_label (labels g1) bl i <$> seq 0 sl)).

Lemma bs_lt : Forall (fun i => (i < n g)%nat) bs.
Proof.
  apply base_indices_lt; [exact Hwf|]. unfold valid_base in Hv.
  apply andb_true_iff in Hv as [_ H]. exact H.
Qed.

Lemma g1_str : Forall (fun v => is_str v = true) (labels g1).
Proof. apply rearranged_str; [exact Hwf|]. apply node_order_lt, bs_lt. Qed.

Lemma specialize_outcome :
  specialize g base
  = Outcome (as_int <$> bs) g1
      match foldM (rewire_pair bl sl in_graph out_graph) ps (S0, 0%nat) with
      | Ok (S', _) => Ok (new_graph S' new_labels (F g) (Some (origin g)))
      | Err e => Err e
      end.
Proof.
  rewrite (specialize_valid g base Hwf Hv). cbv zeta. f_equal.
  rewrite (assemble_eq g1 bl sl (g1_rows g bs) (g1_cols g bs) (g1_labels g bs) g1_str
             (valid_base_nonempty g base Hv)).
  rewrite pairings_boundary, num_copies_copies. reflexivity.
Qed.

Lemma ps_in_bounds : Forall (in_bounds bl sl) ps.
Proof.
  rewrite <- pairings_boundary.
  apply (pairings_in_bounds g1 bl sl (g1_rows g bs) (g1_cols g bs) (g1_labels g bs)
           (valid_base_nonempty g base Hv)).
Qed.

Lemma S0_rows : nrows S0 = (bl + k * sl)%nat.
Proof.
  pose proof (S0_shape g1 bl sl (g1_rows g bs) (g1_cols g bs) (g1_labels g bs)
                (valid_base_nonempty g base Hv)) as [H _].
  rewrite num_copies_copies in H. exact H.
Qed.

Lemma S0_cols : ncols S0 = (bl + k * sl)%nat.
Proof.
  pose proof (S0_shape g1 bl sl (g1_rows g bs) (g1_cols g bs) (g1_labels g bs)
                (valid_base_nonempty g base Hv)) as [_ H].
  rewrite num_copies_copies in H. exact H.
Qed.

(** The call returns when there are at least as many copies as pairings. *)
Lemma specialize_ok :
  (length ps <= k)%nat -> exists g', returned (specialize g base) = Ok g'.
Proof.
  intros Hk. rewrite specialize_outcome. cbn [returned].
  destruct (rewire_loop_ok bl sl in_graph out_graph ps 0 k S0 ps_in_bounds S0_rows S0_cols)
    as [S' HS']; [simpl; exact Hk|].
  rewrite HS'. eauto.
Qed.

(** What is known of a call that returned. *)
Lemma specialize_inv g' :
  returned (specialize g base) = Ok g' ->
  exists S',
    foldM (rewire_pair bl sl in_graph out_graph) ps (S0, 0%nat) = Ok (S', length ps)
    /\ g' = new_graph S' new_labels (F g) (Some (origin g))
    /\ (length ps <= k)%nat.
Proof.
  rewrite specialize_outcome. cbn [returned].
  destruct (foldM _ ps _) as [[S' i']|e] eqn:E; [|discriminate].
  intros [= <-]. exists S'.
  pose proof (rewire_loop_bound bl sl in_graph out_graph ps 0 k S0 ps_in_bounds
                S0_rows S0_cols) as Hb.
  rewrite E in Hb. specialize (Hb eq_refl).
  pose proof E as E'.
  apply (rewire_loop_entries _ _ _ _ _ ps_in_bounds _ k) in E' as (-> & _); [|exact S0_rows].
  split; [reflexivity|]. split; [reflexivity|].
  destruct Hb as [->|Hb]; simpl in *; lia.
Qed.

End ValidCall.

Lemma pairings_nil {X Y} (xs : list X) (ys : list Y) :
  pairings xs ys = [] -> xs = [] \/ ys = [].
Proof.
  intros H. apply (f_equal length) in H. rewrite length_pairings in H. simpl in H.
  destruct xs; [left; reflexivity|]. destruct ys; [right; reflexivity|]. simpl in H. lia.
Qed.

Lemma pairings_lookup {X Y} (xs : list X) (ys : list Y) a b x y :
  xs !! a = Some x -> ys !! b = Some y ->
  pairings xs ys !! (a * length ys + b)%nat = Some (x, y).
Proof.
  unfold pairings. revert a. induction xs as [|x0 xs IH]; intros a Ha Hb; [discriminate|].
  rewrite bind_cons.
  assert (Hlen : length (y0 ← ys; [(x0, y0)]) = length ys).
  { clear. induction ys; simpl; auto. }
  destruct a as [|a]; simpl in Ha.
  - injection Ha as ->. rewrite lookup_app_l by (rewrite Hlen; apply lookup_lt_Some in Hb; lia).
    simpl. clear -Hb. revert b Hb. induction ys as [|y0 ys IH]; intros b Hb; [discriminate|].
    destruct b; simpl in *; [congruence|apply IH, Hb].
  - rewrite lookup_app_r by (rewrite Hlen; lia). rewrite Hlen.
    replace (S a * length ys + b - length ys)%nat with (a * length ys + b)%nat by lia.
    apply IH; assumption.
Qed.

Section ValidResult.

Variables (g : Graph) (base : list pyval) (g' : Graph).
Hypothesis Hwf : wf g.
Hypothesis Hv : valid_base g base = true.
Hypothesis Hret : returned (specialize g base) = Ok g'.

Local Abbreviation bs := (base_indices g base).
Local Abbreviation rest := (rest_of g bs).
Local Abbreviation g1 := (rearranged g (node_order g bs)).
Local Abbreviation bl := (length bs).
Local Abbreviation sl := (length rest).
Local Abbreviation k := (Z.to_nat (copies g bs)).
Local Abbreviation ps := (boundary_pairings g bs).

Lemma result_copies_nonneg : 0 <= copies g bs.
Proof.
  destruct (specialize_inv g base Hwf Hv g' Hret) as (S' & _ & _ & Hk).
  destruct (Z.le_gt_cases 0 (copies g bs)) as [H|H]; [exact H|].
  rewrite Z2Nat.nonpos in Hk by lia.
  assert (Hps : ps = []) by (destruct ps; [reflexivity|simpl in Hk; lia]).
  apply pairings_nil in Hps. unfold copies, msum64 in *.
  destruct Hps as [E|E]; apply argwhere_nil_msum in E; rewrite E in H;
    change (wrap64 0) with 0 in H; rewrite ?Z.mul_0_l, ?Z.mul_0_r in H;
    change (wrap64 0) with 0 in H; lia.
Qed.

Lemma result_n : n g' = (bl + k * sl)%nat.
Proof.
  destruct (specialize_inv g base Hwf Hv g' Hret) as (S' & E & -> & _).
  apply (rewire_loop_entries _ _ _ _ _ (ps_in_bounds g base Hv) _ k) in E
    as (_ & Hr & _); [|apply S0_rows; assumption].
  cbn [new_graph n]. rewrite Hr. apply S0_rows; assumption.
Qed.

Lemma result_shape : nrows (A g') = n g' /\ ncols (A g') = n g'.
Proof.
  rewrite result_n.
  destruct (specialize_inv g base Hwf Hv g' Hret) as (S' & E & -> & _).
  apply (rewire_loop_entries _ _ _ _ _ (ps_in_bounds g base Hv) _ k) in E
    as (_ & Hr & Hc & _); [|apply S0_rows; assumption].
  cbn [new_graph A]. rewrite Hr, Hc. split; [apply S0_rows|apply S0_cols]; assumption.
Qed.

Lemma result_origin : origin g' = if decide (origin g = ∅) then indexer g' else origin g.
Proof.
  destruct (specialize_inv g base Hwf Hv g' Hret) as (S' & _ & -> & _). reflexivity.
Qed.

Lemma result_F : F g' = F g.
Proof.
  destruct (specialize_inv g base Hwf Hv g' Hret) as (S' & _ & -> & _). reflexivity.
Qed.

Lemma result_labels :
  labels g' = take bl (labels g1) ++ (i ← seq 0 k; copy_label (labels g1) bl i <$> seq 0 sl).
Proof.
  destruct (specialize_inv g base Hwf Hv g' Hret) as (S' & _ & -> & _). reflexivity.
Qed.

Lemma result_wf : wf g'.
Proof.
  pose proof result_shape as [Hr Hc]. pose proof result_n as Hn.
  destruct (specialize_inv g base Hwf Hv g' Hret) as (S' & _ & -> & _).
  cbn [new_graph A n] in Hr, Hc, Hn.
  apply new_graph_wf.
  - cbn [new_graph A n] in *. congruence.
  - pose proof (new_labels_length g1 bl sl (g1_rows g bs) (g1_cols g bs) (g1_labels g bs)
                  (valid_base_nonempty g base Hv)) as H.
    rewrite num_copies_copies in H. congruence.
  - pose proof (new_labels_str g1 bl sl (g1_rows g bs) (g1_cols g bs) (g1_labels g bs)
                  (g1_str g base Hwf Hv) (valid_base_nonempty g base Hv)) as H.
    rewrite num_copies_copies in H. exact H.
Qed.

(** The base block of the result is the base block of the input. *)
Lemma result_base_block x y :
  (x < bl)%nat -> (y < bl)%nat ->
  entry (A g') x y = entry (A g) (nth x bs 0%nat) (nth y bs 0%nat).
Proof.
  intros Hx Hy.
  destruct (specialize_inv g base Hwf Hv g' Hret) as (S' & E & -> & _).
  apply (rewire_loop_entries _ _ _ _ _ (ps_in_bounds g base Hv) _ k) in E
    as (_ & _ & _ & Hbb & _); [|apply S0_rows; assumption].
  cbn [new_graph A]. rewrite Hbb by assumption.
  cbn [block_diag entry cols_upto rows_upto nrows ncols].
  rewrite g1_rows, g1_cols.
  destruct (Nat.ltb_spec x (Nat.min bl (bl + sl))); [|lia].
  destruct (Nat.ltb_spec y (Nat.min bl (bl + sl))); [|lia].
  cbn [rearranged A entry]. rewrite !nth_order_base by assumption. reflexivity.
Qed.

(** The cross blocks of the result hold what the pairings wrote, and
    nothing else. *)
Lemma result_inbound c r y :
  (r < sl)%nat -> (y < bl)%nat ->
  entry (A g') (bl + c * sl + r) y
  = match ps !! c with
    | Some xy => if decide ((r, y) = xy.1) then entry (into_spec g bs) r y else 0
    | None => 0
    end.
Proof.
  intros Hr Hy.
  destruct (specialize_inv g base Hwf Hv g' Hret) as (S' & E & -> & _).
  apply (rewire_loop_entries _ _ _ _ _ (ps_in_bounds g base Hv) _ k) in E
    as (_ & _ & _ & _ & _ & Hin & _); [|apply S0_rows; assumption].
  cbn [new_graph A]. rewrite Hin by assumption.
  unfold pairing_of. case_decide; [|lia]. rewrite Nat.sub_0_r.
  assert (Z0 : entry (block_diag (cols_upto bl (rows_upto bl (A g1))
                 :: replicate k (cols_from bl (rows_from bl (A g1)))))
                 (bl + c * sl + r) y = 0).
  { cbn [block_diag entry cols_upto rows_upto nrows ncols].
    rewrite g1_rows, g1_cols.
    destruct (Nat.ltb_spec (bl + c * sl + r) (Nat.min bl (bl + sl))); [lia|].
    destruct (Nat.ltb_spec y (Nat.min bl (bl + sl))); [|lia]. reflexivity. }
  rewrite Z0.
  destruct (in_graph_into_spec g bs) as (H1 & H2 & H3).
  destruct (ps !! c) as [xy|]; [|reflexivity].
  case_decide; [|reflexivity].
  apply H3; [rewrite H1|rewrite H2]; cbn [into_spec nrows ncols]; lia.
Qed.

Lemma result_outbound c x r :
  (x < bl)%nat -> (r < sl)%nat ->
  entry (A g') x (bl + c * sl + r)
  = match ps !! c with
    | Some xy => if decide ((x, r) = xy.2) then entry (out_of_spec g bs) x r else 0
    | None => 0
    end.
Proof.
  intros Hx Hr.
  destruct (specialize_inv g base Hwf Hv g' Hret) as (S' & E & -> & _).
  apply (rewire_loop_entries _ _ _ _ _ (ps_in_bounds g base Hv) _ k) in E
    as (_ & _ & _ & _ & _ & _ & Hout); [|apply S0_rows; assumption].
  cbn [new_graph A]. rewrite Hout by assumption.
  unfold pairing_of. case_decide; [|lia]. rewrite Nat.sub_0_r.
  assert (Z0 : entry (block_diag (cols_upto bl (rows_upto bl (A g1))
                 :: replicate k (cols_from bl (rows_from bl (A g1)))))
                 x (bl + c * sl + r) = 0).
  { cbn [block_diag entry cols_upto rows_upto nrows ncols].
    rewrite g1_rows, g1_cols.
    destruct (Nat.ltb_spec x (Nat.min bl (bl + sl))); [|lia].
    destruct (Nat.ltb_spec (bl + c * sl + r) (Nat.min bl (bl + sl))); [lia|]. reflexivity. }
  rewrite Z0.
  destruct (out_graph_out_of_spec g bs) as (H1 & H2 & H3).
  destruct (ps !! c) as [xy|]; [|reflexivity].
  case_decide; [|reflexivity].
  apply H3; [rewrite H1|rewrite H2]; cbn [out_of_spec nrows ncols]; lia.
Qed.

End ValidResult.

(** * Properties of [specialize], the constructor and [iterate] *)

(** ** Node count, base block and the case of no copies *)

Lemma ring4_wf : wf ring4.
Proof. apply new_graph_wf; [reflexivity|reflexivity|repeat constructor]. Qed.

Lemma pair21_wf : wf pair21.
Proof. apply new_graph_wf; [reflexivity|reflexivity|repeat constructor]. Qed.

Lemma fan3_wf : wf fan3.
Proof. apply new_graph_wf; [reflexivity|reflexivity|repeat constructor]. Qed.

Lemma zsum_nonneg l : Forall (fun z => 0 <= z) l -> 0 <= zsum l.
Proof. induction 1 as [|x l Hx _ IH]; simpl; [lia|]. unfold zsum in *. simpl. lia. Qed.

Lemma zsum_nonneg_zero l :
  Forall (fun z => 0 <= z) l -> zsum l = 0 -> Forall (fun z => z = 0) l.
Proof.
  induction 1 as [|x l Hx Hl IH]; intros Hs; [constructor|].
  pose proof (zsum_nonneg l Hl) as Hge. change (zsum (x :: l)) with (x + zsum l) in Hs.
  constructor; [lia|]. apply IH. lia.
Qed.

(** A block of non-negative weights that sum to zero has no edge. *)
Lemma msum_zero_argwhere M :
  (forall i j, 0 <= entry M i j) -> msum M = 0 -> argwhere M = [].
Proof.
  intros Hpos Hsum. unfold msum in Hsum.
  apply zsum_nonneg_zero in Hsum.
  2:{ apply Forall_fmap, Forall_forall. intros i _. simpl.
      apply zsum_nonneg, Forall_fmap, Forall_forall. intros j _. apply Hpos. }
  destruct (argwhere M) as [|[i j] l] eqn:E; [reflexivity|exfalso].
  assert (Hin : (i, j) ∈ argwhere M) by (rewrite E; left).
  apply argwhere_elem in Hin as (Hi & Hj & Hne). apply Hne.
  rewrite Forall_fmap, Forall_forall in Hsum.
  specialize (Hsum i ltac:(apply elem_of_seq; lia)). simpl in Hsum.
  apply zsum_nonneg_zero in Hsum.
  2:{ apply Forall_fmap, Forall_forall. intros j' _. apply Hpos. }
  rewrite Forall_fmap, Forall_forall in Hsum.
  exact (Hsum j ltac:(apply elem_of_seq; lia)).
Qed.

Lemma length_base_indices g base : length (base_indices g base) = length base.
Proof. unfold base_indices. apply length_fmap. Qed.

Lemma of_rows_nonneg r c rows :
  Forall (Forall (fun z => 0 <= z)) rows -> forall i j, 0 <= entry (of_rows r c rows) i j.
Proof.
  intros H i j. cbn [of_rows entry].
  assert (Hrow : Forall (fun z => 0 <= z) (nth i rows [])).
  { destruct (nth_lookup_or_length rows i []) as [E|E].
    - rewrite Forall_forall in H. apply H. eapply list_elem_of_lookup_2, E.
    - rewrite nth_overflow by lia. constructor. }
  destruct (nth_lookup_or_length (nth i rows []) j 0) as [E|E].
  - rewrite Forall_forall in Hrow. apply Hrow. eapply list_elem_of_lookup_2, E.
  - rewrite nth_overflow by lia. lia.
Qed.

Lemma wrap64_in64 z : in64 z -> wrap64 z = z.
Proof. unfold in64, wrap64. intros H. rewrite Z.mod_small by lia. lia. Qed.

Lemma cancel3_wf : wf cancel3.
Proof. apply new_graph_wf; [reflexivity|reflexivity|repeat constructor]. Qed.

Lemma wide2_wf : wf wide2.
Proof. apply new_graph_wf; [reflexivity|reflexivity|repeat constructor]. Qed.

(** C2, as it stands, fails: the product of the two weight sums is a
    64-bit integer. With boundary weights 6 and 3074457345618258603 the
    product of the sums is [2^64 + 2]; the code computes 2 copies and
    returns a network of 3 nodes. *)
Lemma specialize_copies_wrap :
  wf wide2 /\ valid_base wide2 [VInt 0] = true
  /\ in64 (msum (into_spec wide2 [0%nat])) /\ in64 (msum (out_of_spec wide2 [0%nat]))
  /\ msum (into_spec wide2 [0%nat]) * msum (out_of_spec wide2 [0%nat]) = 2 ^ 64 + 2
  /\ num_copies (rearranged wide2 [0%nat; 1%nat]) 1 = 2
  /\ returned (specialize wide2 [VInt 0]) = Ok (result_of wide2 [VInt 0])
  /\ n (result_of wide2 [VInt 0]) = 3%nat
  /\ Z.of_nat (n (result_of wide2 [VInt 0]))
     <> 1 + msum (into_spec wide2 [0%nat]) * msum (out_of_spec wide2 [0%nat]) * 1.
Proof.
  split; [exact wide2_wf|]. split; [reflexivity|].
  split; [unfold in64; vm_compute; split; [discriminate|reflexivity]|].
  split; [unfold in64; vm_compute; split; [discriminate|reflexivity]|].
  split; [vm_compute; reflexivity|]. split; [vm_compute; reflexivity|].
  split; [vm_compute; reflexivity|]. split; [vm_compute; reflexivity|].
  vm_compute. discriminate.
Qed.

(** C2, amended. On a valid base selection, given in a list other than the
    object's own list of labels, the network returned has
    [|base| + num_copies * |spec_set|] nodes, where [num_copies] is the
    product, taken in 64 bits, of the 64-bit weight sums of the two boundary
    blocks; it is the product of the two weight sums when these and their
    product lie in the 64-bit range. The base block of the network returned
    is the base block of the input. The call returns when there are at least
    as many copies as pairings of boundary edges. *)
Theorem specialize_node_count (g : Graph) (base : list pyval) :
  wf g -> valid_base g base = true ->
  let bs := base_indices g base in
  let sum_in := msum (into_spec g bs) in
  let sum_out := msum (out_of_spec g bs) in
  (in64 sum_in -> in64 sum_out -> in64 (sum_in * sum_out) ->
   copies g bs = sum_in * sum_out)
  /\ ((length (boundary_pairings g bs) <= Z.to_nat (copies g bs))%nat ->
      exists g', returned (specialize g base) = Ok g')
  /\ forall g', returned (specialize g base) = Ok g' ->
       Z.of_nat (n g')
       = Z.of_nat (length base) + copies g bs * Z.of_nat (length (rest_of g bs))
       /\ (in64 sum_in -> in64 sum_out -> in64 (sum_in * sum_out) ->
           Z.of_nat (n g')
           = Z.of_nat (length base)
             + sum_in * sum_out * Z.of_nat (length (rest_of g bs)))
       /\ forall i j, (i < length base)%nat -> (j < length base)%nat ->
            entry (A g') i j = entry (A g) (nth i bs 0%nat) (nth j bs 0%nat).
Proof.
  intros Hwf Hv bs sum_in sum_out. subst bs sum_in sum_out.
  assert (Hprod : in64 (msum (into_spec g (base_indices g base))) ->
                  in64 (msum (out_of_spec g (base_indices g base))) ->
                  in64 (msum (into_spec g (base_indices g base))
                        * msum (out_of_spec g (base_indices g base))) ->
                  copies g (base_indices g base)
                  = msum (into_spec g (base_indices g base))
                    * msum (out_of_spec g (base_indices g base))).
  { intros H1 H2 H3. unfold copies, msum64.
    rewrite (wrap64_in64 _ H1), (wrap64_in64 _ H2), (wrap64_in64 _ H3). reflexivity. }
  split; [exact Hprod|]. split; [apply specialize_ok; assumption|].
  intros g' Hret.
  assert (Hn : Z.of_nat (n g')
               = Z.of_nat (length base)
                 + copies g (base_indices g base)
                   * Z.of_nat (length (rest_of g (base_indices g base)))).
  { rewrite (result_n g base g' Hwf Hv Hret).
    pose proof (result_copies_nonneg g base g' Hwf Hv Hret) as Hc.
    rewrite length_base_indices.
    rewrite Nat2Z.inj_add, Nat2Z.inj_mul, Z2Nat.id by exact Hc. reflexivity. }
  split; [exact Hn|]. split.
  - intros H1 H2 H3. rewrite Hn, (Hprod H1 H2 H3). reflexivity.
  - intros i j Hi Hj. apply (result_base_block g base g' Hwf Hv Hret);
      rewrite length_base_indices; assumption.
Qed.

Lemma specialize_node_count_witness :
  wf ring4 /\ valid_base ring4 [VInt 0; VInt 1] = true
  /\ returned (specialize ring4 [VInt 0; VInt 1]) = Ok (result_of ring4 [VInt 0; VInt 1])
  /\ Z.of_nat (n (result_of ring4 [VInt 0; VInt 1])) = 2 + 1 * 2.
Proof.
  split; [exact ring4_wf|]. split; [reflexivity|]. split; [reflexivity|].
  exact (proj1 (proj2 (proj2 (specialize_node_count ring4 [VInt 0; VInt 1] ring4_wf eq_refl))
                  _ eq_refl)).
Defined.

(** C6, as it stands, fails: weights that cancel sum to zero without the
    edges being gone. With inbound weights 1 and -1 and an outbound edge the
    inbound sum is 0, there is no copy but two pairings, and the call raises
    [IndexError] instead of returning a network. *)
Lemma specialize_cancelling_weights :
  wf cancel3 /\ valid_base cancel3 [VInt 0] = true
  /\ msum (into_spec cancel3 [0%nat]) = 0
  /\ copies cancel3 [0%nat] = 0
  /\ length (boundary_pairings cancel3 [0%nat]) = 2%nat
  /\ returned (specialize cancel3 [VInt 0]) = Err IndexError.
Proof.
  split; [exact cancel3_wf|]. repeat split; vm_compute; reflexivity.
Qed.

(** C6, amended. Let the base be given in a list other than the object's
    own list of labels. If the base is the whole node set, or if no weight
    is negative and the boundary weights sum to zero in either direction,
    there are no copies and the call returns the base block alone: the
    rearranged base-base block with the base labels. *)
Theorem specialize_no_copies (g : Graph) (base : list pyval) :
  wf g -> valid_base g base = true ->
  let bs := base_indices g base in
  rest_of g bs = []
  \/ ((forall i j, 0 <= entry (A g) i j)
      /\ (msum (into_spec g bs) = 0 \/ msum (out_of_spec g bs) = 0)) ->
  copies g bs = 0
  /\ exists g',
       returned (specialize g base) = Ok g'
       /\ n g' = length base /\ nrows (A g') = length base /\ ncols (A g') = length base
       /\ labels g' = (fun b => nth b (labels g) VNone) <$> bs
       /\ forall i j, (i < length base)%nat -> (j < length base)%nat ->
            entry (A g') i j = entry (A g) (nth i bs 0%nat) (nth j bs 0%nat).
Proof.
  intros Hwf Hv bs Hcase. subst bs.
  set (bs := base_indices g base) in *.
  assert (Hrest : rest_of g bs = [] -> argwhere (into_spec g bs) = []).
  { intros E. unfold argwhere, into_spec. cbn [nrows]. rewrite E. reflexivity. }
  assert (Hnil : argwhere (into_spec g bs) = [] \/ argwhere (out_of_spec g bs) = []).
  { destruct Hcase as [E|[Hpos [E|E]]]; [left; exact (Hrest E)|left|right];
      (apply msum_zero_argwhere; [intros; apply Hpos|exact E]). }
  assert (Hzero : copies g bs = 0).
  { unfold copies, msum64.
    destruct Hnil as [E|E]; rewrite (argwhere_nil_msum _ E);
      change (wrap64 0) with 0; rewrite ?Z.mul_0_l, ?Z.mul_0_r; reflexivity. }
  split; [exact Hzero|].
  destruct (specialize_ok g base Hwf Hv) as [g' Hret].
  { fold bs. unfold boundary_pairings. rewrite length_pairings.
    destruct Hnil as [-> | ->]; simpl; lia. }
  exists g'. split; [exact Hret|].
  pose proof (result_n g base g' Hwf Hv Hret) as Hn.
  pose proof (result_shape g base g' Hwf Hv Hret) as [Hr Hc].
  pose proof (result_labels g base g' Hwf Hv Hret) as Hl.
  fold bs in Hn, Hl. rewrite Hzero in Hn, Hl.
  simpl in Hn, Hl. rewrite app_nil_r in Hl.
  rewrite Nat.add_0_r in Hn. unfold bs in Hn. rewrite length_base_indices in Hn.
  split; [exact Hn|]. split; [congruence|]. split; [congruence|]. split.
  - rewrite Hl. unfold node_order. rewrite fmap_app, take_app_length'; [reflexivity|].
    rewrite length_fmap. reflexivity.
  - intros i j Hi Hj. apply (result_base_block g base g' Hwf Hv Hret);
      rewrite length_base_indices; assumption.
Qed.

Lemma specialize_no_copies_witness :
  wf fan3 /\ valid_base fan3 [VInt 0] = true
  /\ (forall i j, 0 <= entry (A fan3) i j)
  /\ msum (into_spec fan3 [0%nat]) = 0
  /\ exists g', returned (specialize fan3 [VInt 0]) = Ok g' /\ n g' = 1%nat.
Proof.
  assert (Hpos : forall i j, 0 <= entry (A fan3) i j).
  { apply of_rows_nonneg. repeat constructor; lia. }
  split; [exact fan3_wf|]. split; [reflexivity|]. split; [exact Hpos|].
  split; [reflexivity|].
  destruct (proj2 (specialize_no_copies fan3 [VInt 0] fan3_wf eq_refl
                     (or_intror (conj Hpos (or_introl eq_refl)))))
    as (g' & Hret & Hn & _).
  exists g'. split; assumption.
Defined.

(** ** Rewiring of the boundary edges *)

(** C1, as it stands, fails: with an inbound edge of weight 2 and an
    outbound edge of weight 1 the weight sums give two copies for one
    pairing, and the second copy (row and column 2) of the network returned
    has no cross-boundary entry at all. *)
Lemma specialize_copy_without_edges :
  let g' := result_of pair21 [VInt 0] in
  returned (specialize pair21 [VInt 0]) = Ok g'
  /\ n g' = 3%nat
  /\ entry (A g') 2 0 = 0 /\ entry (A g') 0 2 = 0.
Proof. repeat split; reflexivity. Qed.

(** C1, amended. The pairings of the non-zero entries of the two boundary
    blocks are numbered from 0 with the inbound edge moving slowest; the
    pairing numbered [c] writes the inbound weight at row
    [|base| + c * |spec| + row of the in-edge], column of the in-edge, and
    the outbound weight at row of the out-edge, column
    [|base| + c * |spec| + column of the out-edge]. In a network returned on
    a valid base selection every pairing has its copy, and the copy of a
    pairing has these two cross-boundary entries, both non-zero, and no
    other. *)
Theorem specialize_rewiring (g : Graph) (base : list pyval) (g' : Graph) :
  wf g -> valid_base g base = true -> returned (specialize g base) = Ok g' ->
  let bs := base_indices g base in
  let ins := argwhere (into_spec g bs) in
  let outs := argwhere (out_of_spec g bs) in
  let bl := length base in
  let sl := length (rest_of g bs) in
  (length ins * length outs <= Z.to_nat (copies g bs))%nat
  /\ (forall a b ie oe, ins !! a = Some ie -> outs !! b = Some oe ->
        let c := (a * length outs + b)%nat in
        entry (into_spec g bs) ie.1 ie.2 <> 0
        /\ entry (out_of_spec g bs) oe.1 oe.2 <> 0
        /\ (forall r y, (r < sl)%nat -> (y < bl)%nat ->
              entry (A g') (bl + c * sl + r) y
              = if decide ((r, y) = ie) then entry (into_spec g bs) ie.1 ie.2 else 0)
        /\ (forall x r, (x < bl)%nat -> (r < sl)%nat ->
              entry (A g') x (bl + c * sl + r)
              = if decide ((x, r) = oe) then entry (out_of_spec g bs) oe.1 oe.2 else 0)).
Proof.
  intros Hwf Hv Hret bs ins outs bl sl.
  assert (Hbl : bl = length bs) by (symmetry; apply length_base_indices).
  destruct (specialize_inv g base Hwf Hv g' Hret) as (_ & _ & _ & Hk).
  unfold boundary_pairings in Hk. rewrite length_pairings in Hk.
  split; [exact Hk|].
  intros a b [ir ic] [or oc] Ha Hb c.
  assert (Hie : (ir, ic) ∈ ins) by (apply list_elem_of_lookup; eauto).
  assert (Hoe : (or, oc) ∈ outs) by (apply list_elem_of_lookup; eauto).
  apply argwhere_elem in Hie as (_ & _ & Hie). apply argwhere_elem in Hoe as (_ & _ & Hoe).
  split; [exact Hie|]. split; [exact Hoe|].
  pose proof (pairings_lookup ins outs a b _ _ Ha Hb) as Hc. fold c in Hc.
  split.
  - intros r y Hr Hy. rewrite Hbl in *.
    rewrite (result_inbound g base g' Hwf Hv Hret) by assumption.
    unfold boundary_pairings. fold bs ins outs. rewrite Hc. cbn [fst snd].
    case_decide as D; [|reflexivity]. injection D as -> ->. reflexivity.
  - intros x r Hx Hr. rewrite Hbl in *.
    rewrite (result_outbound g base g' Hwf Hv Hret) by assumption.
    unfold boundary_pairings. fold bs ins outs. rewrite Hc. cbn [fst snd].
    case_decide as D; [|reflexivity]. injection D as -> ->. reflexivity.
Qed.

Lemma specialize_rewiring_witness :
  wf ring4 /\ valid_base ring4 [VInt 0; VInt 1] = true
  /\ returned (specialize ring4 [VInt 0; VInt 1]) = Ok (result_of ring4 [VInt 0; VInt 1])
  /\ entry (A (result_of ring4 [VInt 0; VInt 1])) 3 0 = 1
  /\ entry (A (result_of ring4 [VInt 0; VInt 1])) 2 0 = 0.
Proof.
  split; [exact ring4_wf|]. split; [reflexivity|]. split; [reflexivity|].
  pose proof (proj2 (specialize_rewiring ring4 [VInt 0; VInt 1] _
                       ring4_wf eq_refl eq_refl)
                0%nat 0%nat (1%nat, 0%nat) (1%nat, 0%nat) eq_refl eq_refl) as H.
  destruct H as (_ & _ & Hin & _). split.
  - exact (Hin 1%nat 0%nat (le_n 2) (le_S _ _ (le_n 1))).
  - exact (Hin 0%nat 0%nat (le_S _ _ (le_n 1)) (le_S _ _ (le_n 1))).
Defined.

(** X1. A copy beyond the pairings, which there is when the weight sums exceed
    the number of boundary edges, has no cross-boundary entry. *)
Theorem specialize_unpaired_copies (g : Graph) (base : list pyval) (g' : Graph) :
  wf g -> valid_base g base = true -> returned (specialize g base) = Ok g' ->
  let bs := base_indices g base in
  let bl := length base in
  let sl := length (rest_of g bs) in
  forall c, (length (boundary_pairings g bs) <= c)%nat ->
    (forall r y, (r < sl)%nat -> (y < bl)%nat -> entry (A g') (bl + c * sl + r) y = 0)
    /\ (forall x r, (x < bl)%nat -> (r < sl)%nat -> entry (A g') x (bl + c * sl + r) = 0).
Proof.
  intros Hwf Hv Hret bs bl sl c Hc.
  assert (Hbl : bl = length bs) by (symmetry; apply length_base_indices).
  assert (Hnone : boundary_pairings g bs !! c = None) by (apply lookup_ge_None; exact Hc).
  split.
  - intros r y Hr Hy. rewrite Hbl in *.
    rewrite (result_inbound g base g' Hwf Hv Hret) by assumption.
    fold bs. rewrite Hnone. reflexivity.
  - intros x r Hx Hr. rewrite Hbl in *.
    rewrite (result_outbound g base g' Hwf Hv Hret) by assumption.
    fold bs. rewrite Hnone. reflexivity.
Qed.

Lemma specialize_unpaired_copies_witness :
  wf pair21 /\ valid_base pair21 [VInt 0] = true
  /\ returned (specialize pair21 [VInt 0]) = Ok (result_of pair21 [VInt 0])
  /\ entry (A (result_of pair21 [VInt 0])) 2 0 = 0.
Proof.
  split; [exact pair21_wf|]. split; [reflexivity|]. split; [reflexivity|].
  exact (proj1 (specialize_unpaired_copies pair21 [VInt 0] _ pair21_wf eq_refl eq_refl
                  1%nat (le_n 1)) 0%nat 0%nat (le_n 1) (le_n 1)).
Defined.

(** ** Effects on the caller's list and on the object *)

(** C10. Called with a list of known labels, [specialize] overwrites the
    caller's list: each label is replaced by its index, and no label is left
    in the list, whether the call then returns or raises. *)
Theorem specialize_overwrites_base (g : Graph) (ls : list string) :
  ls <> [] ->
  Forall (fun s => is_Some (indexer g !! VStr s)) ls ->
  let after := caller_base (specialize g (VStr <$> ls)) in
  after = (fun s => VInt (Z.of_nat (default 0%nat (indexer g !! VStr s)))) <$> ls
  /\ forall s, VStr s ∉ after.
Proof.
  intros Hne Hall after.
  assert (Hk : forallb (known_label g) (VStr <$> ls) = true).
  { apply forallb_forall. intros b Hb. apply list_elem_of_In, list_elem_of_fmap in Hb
      as (s & -> & Hs). rewrite Forall_forall in Hall. simpl.
    apply bool_decide_eq_true, Hall, Hs. }
  assert (E : after = as_int <$> base_indices g (VStr <$> ls)).
  { unfold after, specialize. destruct ls as [|s0 ls']; [congruence|].
    rewrite fmap_cons in Hk |- *.
    rewrite (resolve_base_known g _ Hk).
    destruct (_ <? _)%nat; [reflexivity|].
    destruct (permute_labeler _ _); [|reflexivity].
    destruct (mapM _ _); [|reflexivity].
    destruct (fancy _ _); reflexivity. }
  split.
  - rewrite E. unfold base_indices. rewrite <- !list_fmap_compose. reflexivity.
  - intros s Hs. rewrite E in Hs. apply list_elem_of_fmap in Hs as (i & Hi & _).
    discriminate Hi.
Qed.

Lemma specialize_overwrites_base_witness :
  ["c"; "d"]%string <> []
  /\ caller_base (specialize ring4 [VStr "c"; VStr "d"]) = [VInt 2; VInt 3].
Proof.
  assert (Hne : ["c"; "d"]%string <> []) by discriminate.
  split; [exact Hne|].
  refine (proj1 (specialize_overwrites_base ring4 ["c"; "d"]%string Hne _)).
  repeat constructor; vm_compute; eauto.
Defined.


(** ** Labels given to the constructor *)

(** C8, as it stands, fails: duplicate labels and a non-string after the
    first label are accepted, and the empty list of labels for the empty
    network is refused with an index error. *)
Lemma Graph_init_accepts_duplicates :
  is_ok (Graph_init (of_rows 2 2 [[0;1]; [1;0]]) (LList [VStr "a"; VStr "a"]) None None) = true
  /\ is_ok (Graph_init (of_rows 2 2 [[0;1]; [1;0]]) (LList [VStr "a"; VInt 7]) None None) = true
  /\ Graph_init (of_rows 0 0 []) (LList []) None None = Err IndexError.
Proof. repeat split; reflexivity. Qed.

(** C8, amended. For a square matrix of size [n], construction raises
    [ValueError] when [labels] is not a list, when its length is not [n], or
    when its first element is not a string; it succeeds for every list of
    [n] strings, [n] at least one. *)
Theorem Graph_init_labels (A0 : spmatrix) (F0 : option fmatrix)
    (o : option (gmap pyval nat)) :
  nrows A0 = ncols A0 ->
  (forall l, Graph_init A0 (LTuple l) F0 o = Err ValueError)
  /\ (forall l, length l <> nrows A0 -> Graph_init A0 (LList l) F0 o = Err ValueError)
  /\ (forall v l, length (v :: l) = nrows A0 -> is_str v = false ->
        Graph_init A0 (LList (v :: l)) F0 o = Err ValueError)
  /\ (forall l, l <> [] -> length l = nrows A0 ->
        Forall (fun v => is_str v = true) l ->
        Graph_init A0 (LList l) F0 o = Ok (new_graph A0 l F0 o)).
Proof.
  intros Hsq. unfold Graph_init. rewrite <- Hsq, Nat.eqb_refl. cbn [negb].
  split; [reflexivity|]. split; [|split].
  - intros l Hl. destruct (Nat.eqb_spec (length l) (nrows A0)); [contradiction|reflexivity].
  - intros v l Hl Hv. rewrite Hl, Nat.eqb_refl. cbn [negb mbind result_bind]. rewrite Hv.
    reflexivity.
  - intros l Hne Hl Hstr. rewrite Hl, Nat.eqb_refl. cbn [negb].
    destruct l as [|v l]; [contradiction|].
    apply Forall_cons in Hstr as [Hv _]. rewrite Hv. reflexivity.
Qed.

Lemma Graph_init_labels_witness :
  nrows (of_rows 2 2 [[0;1]; [1;0]]) = ncols (of_rows 2 2 [[0;1]; [1;0]])
  /\ Graph_init (of_rows 2 2 [[0;1]; [1;0]]) (LList [VStr "a"]) None None = Err ValueError.
Proof.
  split; [reflexivity|].
  refine (proj1 (proj2 (Graph_init_labels (of_rows 2 2 [[0;1]; [1;0]]) None None eq_refl))
            [VStr "a"] _).
  discriminate.
Defined.

(** ** Calls that are refused *)

Lemma resolve_base_snd idx base :
  (resolve_base idx base).2
  = if forallb (fun b => bool_decide (is_Some (idx !! b))) base then Ok tt
    else Err KeyError.
Proof.
  induction base as [|b base IH]; [reflexivity|]. cbn [resolve_base forallb].
  destruct (idx !! b) as [i|] eqn:E.
  - rewrite bool_decide_eq_true_2 by eauto. cbn [andb].
    destruct (resolve_base idx base) as [rest' r]. exact IH.
  - rewrite bool_decide_eq_false_2 by (intros [? ?]; discriminate). reflexivity.
Qed.

Lemma resolve_base_length idx base :
  length (resolve_base idx base).1 = length base.
Proof.
  induction base as [|b base IH]; [reflexivity|]. cbn [resolve_base].
  destruct (idx !! b); [|reflexivity].
  destruct (resolve_base idx base) as [rest' r]. simpl in *. congruence.
Qed.

Lemma wf_indexer_key g b :
  wf g -> is_Some (indexer g !! b) -> known_label g b = true.
Proof.
  intros Hwf [i Hi]. pose proof Hi as Hi'. rewrite (wf_indexer g Hwf) in Hi'.
  apply map_of_list_lookup, elem_of_zip_l in Hi'.
  pose proof (wf_str g Hwf) as Hs. rewrite Forall_forall in Hs. specialize (Hs b Hi').
  destruct b; try discriminate. simpl. apply bool_decide_eq_true. eauto.
Qed.

Lemma length_permute g base : wf g -> (n g <= length (permute g base))%nat.
Proof.
  intros Hwf. unfold permute, spec_set. rewrite length_app, length_fmap, (wf_indices g Hwf).
  pose proof (length_filter_split (fun i => not_in base i) (seq 0 (n g))) as H.
  rewrite length_seq in H.
  assert (length (filter (fun i => ~ not_in base i) (seq 0 (n g))) <= length base)%nat.
  { rewrite <- (length_fmap as_int). apply submseteq_length, NoDup_submseteq.
    - apply NoDup_fmap_2; [|apply NoDup_filter, NoDup_seq].
      intros x y E. injection E as E. lia.
    - intros v Hv. apply list_elem_of_fmap in Hv as (i & -> & Hi).
      apply list_elem_of_filter in Hi as [Hi _]. unfold not_in in Hi.
      rewrite negb_True in Hi. apply dec_stable in Hi.
      apply bool_decide_unpack in Hi. exact Hi. }
  lia.
Qed.

Lemma dict_get_unknown g b :
  wf g -> known_index g b = false -> dict_get (labeler g) b = Err KeyError.
Proof.
  intros Hwf H. destruct b as [s|z|]; try reflexivity. simpl in H |- *.
  destruct (Z.leb_spec 0 z); [|reflexivity].
  destruct (Z.ltb_spec z (Z.of_nat (n g))); [discriminate|].
  rewrite (wf_labeler g Hwf), dict_find_zip_seq. case_decide; [lia|reflexivity].
Qed.

Lemma dict_get_error {V} (d : list (nat * V)) k e :
  dict_get d k = Err e -> e = KeyError.
Proof.
  destruct k as [s|z|]; simpl; try (intros [= <-]; reflexivity).
  destruct (0 <=? z); [|intros [= <-]; reflexivity].
  destruct (dict_find _ _); [discriminate|intros [= <-]; reflexivity].
Qed.

Lemma permute_labeler_unknown g base :
  wf g -> (length base <= n g)%nat -> forallb (known_index g) base = false ->
  permute_labeler g (permute g base) = Err KeyError.
Proof.
  intros Hwf Hlen Hk.
  assert (Hex : exists i b, base !! i = Some b /\ known_index g b = false).
  { clear -Hk. induction base as [|b base IH]; [discriminate|].
    simpl in Hk. apply andb_false_iff in Hk as [Hk|Hk].
    - exists 0%nat, b. auto.
    - destruct (IH Hk) as (i & b' & Hi & Hb). exists (S i), b'. auto. }
  destruct Hex as (i & b & Hi & Hb).
  pose proof (length_permute g base Hwf) as Hp.
  assert (Hget : forall y, (y < n g)%nat ->
            list_get (permute g base) (VInt (Z.of_nat y))
            = Ok (nth y (permute g base) VNone)).
  { intros y Hy. apply (list_get_as_int _ y VNone). lia. }
  unfold permute_labeler. apply (mapM_err _ _ i).
  - apply elem_of_seq. apply lookup_lt_Some in Hi. lia.
  - rewrite Hget by (apply lookup_lt_Some in Hi; lia). cbn [mbind result_bind].
    assert (E : nth i (permute g base) VNone = b).
    { apply nth_lookup_Some. unfold permute. rewrite lookup_app_l; [exact Hi|].
      apply lookup_lt_Some in Hi. exact Hi. }
    rewrite E, (dict_get_unknown g b Hwf Hb). reflexivity.
  - intros y Hy e' He. apply elem_of_seq in Hy. rewrite Hget in He by lia.
    cbn [mbind result_bind] in He.
    destruct (dict_get _ _) as [v|e''] eqn:Ed; [discriminate|].
    injection He as <-. eapply dict_get_error, Ed.
Qed.

Lemma specialize_refused g base :
  wf g -> base <> [] -> homogeneous_known g base = false ->
  returned (specialize g base) = Err KeyError
  \/ returned (specialize g base) = Err ValueError.
Proof.
  intros Hwf Hne Hk. unfold homogeneous_known in Hk.
  apply orb_false_iff in Hk as [Hki Hkl].
  unfold specialize. destruct base as [|b0 base']; [congruence|].
  destruct b0 as [s|z|]; [| |right; reflexivity].
  - left. destruct (resolve_base (indexer g) (VStr s :: base')) as [b1 r] eqn:E.
    pose proof (resolve_base_snd (indexer g) (VStr s :: base')) as Hr.
    rewrite E in Hr. cbn [snd] in Hr.
    destruct (forallb (fun b => bool_decide (is_Some (indexer g !! b))) (VStr s :: base'))
      eqn:Hall.
    + exfalso. rewrite <- not_true_iff_false in Hkl. apply Hkl.
      apply forallb_forall. intros b Hb. rewrite forallb_forall in Hall.
      apply wf_indexer_key; [exact Hwf|]. specialize (Hall b Hb).
      apply bool_decide_eq_true in Hall. exact Hall.
    + rewrite Hr. reflexivity.
  - destruct (Nat.ltb_spec (n g) (length (VInt z :: base'))) as [|Hlen];
      [right; reflexivity|left].
    rewrite (permute_labeler_unknown g _ Hwf Hlen Hki). reflexivity.
Qed.

Lemma specialize_too_long g base :
  (n g < length base)%nat ->
  returned (specialize g base) = Err ValueError
  \/ returned (specialize g base) = Err KeyError.
Proof.
  intros Hlen. unfold specialize. destruct base as [|b0 base']; [simpl in Hlen; lia|].
  destruct b0 as [s|z|]; [| |left; reflexivity].
  - pose proof (resolve_base_snd (indexer g) (VStr s :: base')) as Hr.
    pose proof (resolve_base_length (indexer g) (VStr s :: base')) as Hl.
    destruct (resolve_base (indexer g) (VStr s :: base')) as [b1 r]. cbn [fst snd] in *.
    destruct (forallb (fun b => bool_decide (is_Some (indexer g !! b))) (VStr s :: base'));
      subst r; [left|right; reflexivity].
    rewrite Hl. destruct (Nat.ltb_spec (n g) (length (VStr s :: base'))); [reflexivity|lia].
  - left. destruct (Nat.ltb_spec (n g) (length (VInt z :: base'))); [reflexivity|lia].
Qed.


Lemma cancel2_wf : wf cancel2.
Proof. apply new_graph_wf; [reflexivity|reflexivity|repeat constructor]. Qed.

Lemma setitem_error S_ i j v e : setitem S_ i j v = Err e -> e = IndexError.
Proof. unfold setitem. destruct (_ && _); [discriminate|]. intros [= <-]. reflexivity. Qed.

(** The rewiring loop raises nothing but [IndexError]. *)
Lemma rewire_loop_error bl sl in_graph out_graph ps st e :
  foldM (rewire_pair bl sl in_graph out_graph) ps st = Err e -> e = IndexError.
Proof.
  revert st. induction ps as [|xy ps IH]; intros [S0 i]; [discriminate|].
  cbn [foldM]. destruct (rewire_pair _ _ _ _ xy (S0, i)) as [st'|e'] eqn:E.
  - cbn [mbind result_bind]. apply IH.
  - cbn [mbind result_bind]. intros [= <-]. unfold rewire_pair, rewire_step in E.
    destruct (setitem S0 _ _ _) as [S1|e1] eqn:E1.
    + cbn [mbind result_bind] in E. destruct (setitem S1 _ _ _) as [S2|e2] eqn:E2;
        [discriminate|]. injection E as <-. eapply setitem_error, E2.
    + injection E as <-. eapply setitem_error, E1.
Qed.


(** X2. A call on a valid base selection, given in a list other than the
    object's own list of labels, returns exactly when the number of copies,
    the product of the two weight sums taken in 64 bits, is at least the
    number of pairings of boundary edges; otherwise the rewiring loop writes
    outside the matrix and raises [IndexError]. *)
Theorem specialize_returns_iff (g : Graph) (base : list pyval) :
  wf g -> valid_base g base = true ->
  (is_ok (returned (specialize g base)) = true
   <-> (length (boundary_pairings g (base_indices g base))
        <= Z.to_nat (copies g (base_indices g base)))%nat)
  /\ (returned (specialize g base) = Err IndexError
      <-> (Z.to_nat (copies g (base_indices g base))
           < length (boundary_pairings g (base_indices g base)))%nat).
Proof.
  intros Hwf Hv.
  assert (Hiff : is_ok (returned (specialize g base)) = true
                 <-> (length (boundary_pairings g (base_indices g base))
                      <= Z.to_nat (copies g (base_indices g base)))%nat).
  { split.
    - intros Hok. destruct (returned (specialize g base)) as [g'|e] eqn:E; [|discriminate].
      destruct (specialize_inv g base Hwf Hv g' E) as (_ & _ & _ & Hk). exact Hk.
    - intros Hk. destruct (specialize_ok g base Hwf Hv Hk) as [g' ->]. reflexivity. }
  split; [exact Hiff|]. split.
  - intros E. rewrite E in Hiff. simpl in Hiff.
    destruct (Nat.le_gt_cases (length (boundary_pairings g (base_indices g base)))
                (Z.to_nat (copies g (base_indices g base)))) as [H|H]; [|exact H].
    apply Hiff in H. discriminate.
  - intros Hlt. destruct (returned (specialize g base)) as [g'|e] eqn:E.
    + exfalso. destruct Hiff as [H _]. specialize (H eq_refl). lia.
    + f_equal. rewrite (specialize_outcome g base Hwf Hv) in E. cbn [returned] in E.
      destruct (foldM _ _ _) as [[S' i']|e'] eqn:E'; [discriminate|].
      injection E as <-. eapply rewire_loop_error, E'.
Qed.

Lemma specialize_returns_iff_witness :
  wf cancel2 /\ valid_base cancel2 [VInt 0] = true
  /\ returned (specialize cancel2 [VInt 0]) = Err IndexError.
Proof.
  split; [exact cancel2_wf|]. split; [reflexivity|].
  exact (proj2 (proj2 (specialize_returns_iff cancel2 [VInt 0] cancel2_wf eq_refl))
           (le_n 1)).
Defined.

(** ** Canonical labels *)

Lemma str_find_ge c s : -1 <= str_find c s.
Proof.
  induction s as [|a s IH]; simpl; [lia|].
  destruct (Ascii.eqb a c); [lia|]. destruct (Z.eqb_spec (str_find c s) (-1)); lia.
Qed.

Lemma canonical_upto_dot s : canonical s = upto_dot s.
Proof.
  unfold canonical, str_prefix. induction s as [|a s IH]; [reflexivity|].
  cbn [str_find upto_dot]. destruct (Ascii.eqb a ".") eqn:Ea; [reflexivity|].
  pose proof (str_find_ge "." s) as Hge.
  destruct (Z.eqb_spec (str_find "." s) (-1)) as [E|E].
  - simpl. rewrite E in IH. simpl in IH. rewrite <- IH. reflexivity.
  - cbn [negb] in IH.
    destruct (Z.eqb_spec (str_find "." s + 1) (-1)) as [E'|E']; [lia|]. cbn [negb].
    replace (Z.to_nat (str_find "." s + 1)) with (S (Z.to_nat (str_find "." s))) by lia.
    simpl. rewrite IH. reflexivity.
Qed.

Lemma upto_dot_suffix s t : upto_dot (s ++ "." ++ t) = upto_dot s.
Proof.
  induction s as [|a s IH]; [reflexivity|].
  simpl. destruct (Ascii.eqb a "."); [reflexivity|]. f_equal. exact IH.
Qed.

Lemma canonical_suffix s t : canonical (s ++ "." ++ t) = canonical s.
Proof. rewrite !canonical_upto_dot. apply upto_dot_suffix. Qed.

Lemma canonical_dot_free s : str_find "." s = -1 -> canonical s = s.
Proof. intros H. unfold canonical. rewrite H. reflexivity. Qed.

Lemma str_find_digits d : str_find "." (NilEmpty.string_of_uint d) = -1.
Proof. induction d; simpl; rewrite ?IHd; reflexivity. Qed.

Lemma str_of_nat_dot_free i : dot_free (VStr (str_of_nat i)).
Proof. exists (str_of_nat i). split; [reflexivity|apply str_find_digits]. Qed.

(** ** The rearranged object *)

Lemma zip_snd_fst_seq {V} a m (l : list V) :
  zip (zip (seq a m) l).*2 (zip (seq a m) l).*1 = zip l (seq a m).
Proof.
  revert a l. induction m as [|m IH]; intros a [|x l]; simpl; try reflexivity.
  f_equal. apply IH.
Qed.

Lemma rearranged_wf g p :
  wf g -> Forall (fun i => (i < n g)%nat) p -> (n g <= length p)%nat ->
  wf (rearranged g p).
Proof.
  intros Hwf Hp Hlen.
  assert (Hlab : (fun i => (i, nth (nth i p 0%nat) (labels g) VNone)) <$> seq 0 (n g)
                 = zip (seq 0 (n g)) ((fun k => nth k (labels g) VNone) <$> p)).
  { apply list_eq. intros i. rewrite list_lookup_fmap.
    destruct (decide (i < n g)%nat) as [Hi|Hi].
    - rewrite lookup_seq_lt by exact Hi. simpl.
      destruct (lookup_lt_is_Some_2 p i) as [x Hx]; [lia|].
      symmetry. apply lookup_zip_with_Some. exists i, (nth x (labels g) VNone).
      split; [|split].
      + f_equal. f_equal. apply nth_lookup_Some with (d := 0%nat) in Hx. rewrite Hx.
        reflexivity.
      + apply lookup_seq_lt. exact Hi.
      + rewrite list_lookup_fmap, Hx. reflexivity.
    - rewrite lookup_seq_ge by lia. simpl. symmetry.
      apply lookup_ge_None. rewrite length_zip_with, length_seq. lia. }
  constructor; cbn [rearranged A n labels indices labeler indexer nrows ncols].
  - exact Hlen.
  - exact Hlen.
  - rewrite length_fmap. exact Hlen.
  - apply (rearranged_str g p Hwf Hp).
  - apply (wf_indices g Hwf).
  - exact Hlab.
  - rewrite Hlab. f_equal. apply zip_snd_fst_seq.
Qed.

Lemma specialize_invalid_self g base :
  wf g -> valid_base g base = false -> self_after (specialize g base) = g.
Proof.
  intros Hwf Hv. unfold specialize. destruct base as [|b0 base']; [reflexivity|].
  destruct b0 as [s|z|]; [| |reflexivity].
  - pose proof (resolve_base_snd (indexer g) (VStr s :: base')) as Hr.
    pose proof (resolve_base_length (indexer g) (VStr s :: base')) as Hl.
    destruct (resolve_base (indexer g) (VStr s :: base')) as [b1 r]. cbn [fst snd] in *.
    destruct (forallb (fun b => bool_decide (is_Some (indexer g !! b))) (VStr s :: base'))
      eqn:Hall; subst r; [|reflexivity].
    rewrite Hl. destruct (Nat.ltb_spec (n g) (length (VStr s :: base'))) as [|Hlen];
      [reflexivity|exfalso].
    rewrite <- not_true_iff_false in Hv. apply Hv. unfold valid_base.
    rewrite bool_decide_eq_false_2 by discriminate. cbn [negb andb].
    apply andb_true_iff. split; [apply Nat.leb_le; exact Hlen|].
    unfold homogeneous_known. apply orb_true_iff. right.
    apply forallb_forall. intros b Hb. rewrite forallb_forall in Hall.
    specialize (Hall b Hb). apply bool_decide_eq_true in Hall.
    apply wf_indexer_key; assumption.
  - destruct (Nat.ltb_spec (n g) (length (VInt z :: base'))) as [|Hlen]; [reflexivity|].
    destruct (forallb (known_index g) (VInt z :: base')) eqn:Hk.
    + exfalso. rewrite <- not_true_iff_false in Hv. apply Hv. unfold valid_base.
      rewrite bool_decide_eq_false_2 by discriminate. cbn [negb andb].
      apply andb_true_iff. split; [apply Nat.leb_le; exact Hlen|].
      unfold homogeneous_known. rewrite Hk. reflexivity.
    + rewrite (permute_labeler_unknown g _ Hwf Hlen Hk). reflexivity.
Qed.

Lemma length_node_order g bs : (n g <= length (node_order g bs))%nat.
Proof. unfold node_order. rewrite length_app. apply length_rest_of. Qed.

(** The object a call leaves is well formed, and carries labels of the
    object it found. *)
Lemma self_after_wf g base : wf g -> wf (self_after (specialize g base)).
Proof.
  intros Hwf. destruct (valid_base g base) eqn:Hv.
  - rewrite (specialize_valid g base Hwf Hv). cbn [self_after].
    apply rearranged_wf; [exact Hwf| |apply length_node_order].
    apply node_order_lt, (bs_lt g base Hwf Hv).
  - rewrite (specialize_invalid_self g base Hwf Hv). exact Hwf.
Qed.

Lemma self_after_labels g base v :
  wf g -> v ∈ labels (self_after (specialize g base)) -> v ∈ labels g.
Proof.
  intros Hwf. destruct (valid_base g base) eqn:Hv.
  - rewrite (specialize_valid g base Hwf Hv). cbn [self_after rearranged labels].
    intros Hin. apply list_elem_of_fmap in Hin as (k & -> & Hk).
    pose proof (node_order_lt g _ (bs_lt g base Hwf Hv)) as Hp.
    rewrite Forall_forall in Hp. specialize (Hp k Hk). simpl in Hp.
    pose proof (wf_labels g Hwf). apply list_elem_of_In, nth_In. lia.
  - rewrite (specialize_invalid_self g base Hwf Hv). auto.
Qed.

Lemma self_after_origin g base : origin (self_after (specialize g base)) = origin g.
Proof.
  unfold specialize. destruct base as [|b0 base']; [reflexivity|].
  destruct (match b0 with
            | VStr _ => resolve_base (indexer g) (b0 :: base')
            | VInt _ => (b0 :: base', Ok tt)
            | VNone => (b0 :: base', Err ValueError)
            end) as [b1 [[]|e]]; [|reflexivity].
  destruct (_ <? _)%nat; [reflexivity|].
  destruct (permute_labeler _ _); [|reflexivity].
  destruct (mapM _ _); [|reflexivity].
  destruct (fancy _ _); reflexivity.
Qed.

(** ** Resolution of labels through [origin] *)

Lemma original_resolves g n0 i :
  wf g -> Forall (resolves (origin g) n0) (labels g) -> (i < n g)%nat ->
  exists s o,
    dict_get (labeler g) (as_int i) = Ok (VStr s)
    /\ origin g !! VStr (upto_dot s) = Some o
    /\ original g i = Ok o /\ (o < n0)%nat.
Proof.
  intros Hwf Hres Hi. unfold original.
  change (VInt (Z.of_nat i)) with (as_int i).
  rewrite (dict_get_wf g i Hwf Hi). cbn [mbind result_bind].
  pose proof (wf_labels g Hwf) as Hl. rewrite Forall_forall in Hres.
  destruct (Hres (nth i (labels g) VNone)) as (s & o & E & Ho & Hlt).
  { apply list_elem_of_In, nth_In. lia. }
  rewrite E. fold (canonical s). rewrite Ho. exists s, o.
  rewrite <- canonical_upto_dot. auto.
Qed.

Lemma resolves_copy_label o n0 old bl i j :
  resolves o n0 (nth (bl + j) old VNone) -> resolves o n0 (copy_label old bl i j).
Proof.
  intros (s & x & E & Ho & Hlt). unfold copy_label. rewrite E.
  exists (s ++ "." ++ str_of_nat (i + 1))%string, x.
  split; [reflexivity|]. rewrite canonical_suffix. auto.
Qed.

Lemma resolving_self_after o0 n0 g base :
  resolving o0 n0 g -> resolving o0 n0 (self_after (specialize g base)).
Proof.
  intros (Hwf & Ho & Hres). split; [apply self_after_wf, Hwf|].
  split; [rewrite self_after_origin; exact Ho|].
  apply Forall_forall. intros v Hv. rewrite Forall_forall in Hres.
  apply Hres. eapply self_after_labels; eassumption.
Qed.

Lemma resolving_returned o0 n0 g base g' :
  resolving o0 n0 g -> returned (specialize g base) = Ok g' -> resolving o0 n0 g'.
Proof.
  intros (Hwf & Ho & Hres) Hret.
  destruct (valid_base g base) eqn:Hv.
  2:{ assert (Hb : base <> [] -> homogeneous_known g base = false ->
                   returned (specialize g base) <> Ok g').
      { intros H1 H2 E. destruct (specialize_refused g base Hwf H1 H2) as [X|X];
          rewrite X in E; discriminate. }
      destruct base as [|b0 base']; [discriminate Hret|].
      unfold valid_base in Hv. rewrite bool_decide_eq_false_2 in Hv by discriminate.
      cbn [negb andb] in Hv. apply andb_false_iff in Hv as [Hv|Hv].
      - apply Nat.leb_gt in Hv. destruct (specialize_too_long g _ Hv) as [X|X];
          rewrite X in Hret; discriminate.
      - exfalso. apply (Hb ltac:(discriminate) Hv Hret). }
  pose proof (specialize_valid g base Hwf Hv) as Hs. cbv zeta in Hs.
  assert (Hg1 : resolving o0 n0 (rearranged g (node_order g (base_indices g base)))).
  { pose proof (resolving_self_after o0 n0 g base (conj Hwf (conj Ho Hres))) as H.
    rewrite Hs in H. exact H. }
  destruct Hg1 as (Hwf1 & _ & Hres1).
  split; [exact (result_wf g base g' Hwf Hv Hret)|]. split.
  - rewrite (result_origin g base g' Hwf Hv Hret). case_decide as Hempty; [|exact Ho].
    exfalso. pose proof (valid_base_nonempty g base Hv) as Hne.
    pose proof (bs_lt g base Hwf Hv) as Hlt.
    destruct (base_indices g base) as [|b bs']; [simpl in Hne; lia|].
    apply Forall_cons in Hlt as [Hb _].
    pose proof (wf_labels g Hwf) as Hl.
    rewrite Forall_forall in Hres.
    destruct (Hres (nth b (labels g) VNone)) as (s & x & _ & Hx & _).
    { apply list_elem_of_In, nth_In. lia. }
    rewrite <- Ho, Hempty, lookup_empty in Hx. discriminate.
  - rewrite (result_labels g base g' Hwf Hv Hret). apply Forall_app. split.
    + apply Forall_take. exact Hres1.
    + apply Forall_forall. intros v Hin. apply list_elem_of_bind in Hin as (i & Hin & _).
      apply list_elem_of_fmap in Hin as (j & -> & Hj). apply elem_of_seq in Hj.
      apply resolves_copy_label. rewrite Forall_forall in Hres1. apply Hres1.
      apply list_elem_of_In, nth_In. rewrite g1_labels. lia.
Qed.

Lemma resolving_derived o0 n0 g0 g :
  resolving o0 n0 g0 -> derived g0 g -> resolving o0 n0 g.
Proof.
  intros H0. induction 1 as [|g base g' _ IH Hret|g base _ IH].
  - exact H0.
  - eapply resolving_returned; eassumption.
  - apply resolving_self_after, IH.
Qed.

(** A network as constructed, with default labels or labels without dots and
    no [origin] given, resolves each of its labels to the node's own index. *)
Lemma resolving_init A0 labels0 F0 g0 :
  Graph_init A0 labels0 F0 None = Ok g0 ->
  (forall l, labels0 = LList l -> Forall dot_free l) ->
  resolving (origin g0) (n g0) g0.
Proof.
  intros Hinit Hdf. unfold Graph_init in Hinit.
  destruct (Nat.eqb_spec (nrows A0) (ncols A0)) as [Hsq|]; [|discriminate].
  cbn [negb] in Hinit.
  assert (Hl : exists l, Forall dot_free l /\ length l = nrows A0
                         /\ g0 = new_graph A0 l F0 None).
  { destruct labels0 as [|l|l]; [| |discriminate].
    - eexists. split; [|split; [|injection Hinit as <-; reflexivity]].
      + apply Forall_fmap, Forall_forall. intros i _. apply str_of_nat_dot_free.
      + rewrite length_fmap, length_seq. reflexivity.
    - destruct (Nat.eqb_spec (length l) (nrows A0)) as [Hlen|]; [|discriminate].
      cbn [negb] in Hinit. destruct l as [|l0 l']; [discriminate|].
      destruct (is_str l0); [|discriminate]. injection Hinit as <-.
      exists (l0 :: l'). auto. }
  destruct Hl as (l & Hdot & Hlen & ->).
  assert (Hstr : Forall (fun v => is_str v = true) l).
  { eapply Forall_impl; [exact Hdot|]. intros v (s & -> & _). reflexivity. }
  split; [apply new_graph_wf; assumption|]. split; [reflexivity|].
  cbn [new_graph origin n labels]. apply Forall_forall. intros v Hv.
  rewrite Forall_forall in Hdot. destruct (Hdot v Hv) as (s & -> & Hs).
  destruct (map_of_list_is_Some (zip l (seq 0 (nrows A0))) (VStr s)) as [i Hi].
  { rewrite fst_zip by (rewrite length_seq; lia). exact Hv. }
  exists s, i. split; [reflexivity|]. rewrite (canonical_dot_free s Hs).
  split; [exact Hi|].
  apply map_of_list_lookup, elem_of_zip_r, elem_of_seq in Hi. lia.
Qed.

(** C4, as it stands, fails: when a label of the network as given has a dot,
    the part before the dot is looked up, and the lookup raises. *)
Lemma original_dotted_label :
  Graph_init (of_rows 2 2 [[0;1]; [1;0]]) (LList [VStr "a.b"; VStr "c"]) None None
  = Ok dotted
  /\ returned (specialize dotted [VInt 0]) = Ok (result_of dotted [VInt 0])
  /\ labels (result_of dotted [VInt 0]) = [VStr "a.b"; VStr "c.1"]
  /\ original (result_of dotted [VInt 0]) 0 = Err KeyError.
Proof. repeat split; reflexivity. Qed.

(** C4, amended. Let a network be constructed without an [origin], with
    default labels or with labels that have no dot. In every network that
    comes from it by calls of [specialize], [origin] is the mapping of the
    first network, and for every node index [i] the label of the node is a
    string, [original(i)] returns what [origin] holds for the part of the
    label before its first dot, and that is an index of the first network. *)
Theorem original_valid_index (A0 : spmatrix) (labels0 : labels_arg)
    (F0 : option fmatrix) (g0 g : Graph) :
  Graph_init A0 labels0 F0 None = Ok g0 ->
  (forall l, labels0 = LList l -> Forall dot_free l) ->
  derived g0 g ->
  origin g = origin g0
  /\ forall i, (i < n g)%nat ->
       exists s o,
         dict_get (labeler g) (as_int i) = Ok (VStr s)
         /\ origin g0 !! VStr (upto_dot s) = Some o
         /\ original g i = Ok o /\ (o < n g0)%nat.
Proof.
  intros Hinit Hdf Hd.
  pose proof (resolving_derived _ _ g0 g (resolving_init A0 labels0 F0 g0 Hinit Hdf) Hd)
    as (Hwf & Ho & Hres).
  split; [exact Ho|]. intros i Hi. rewrite <- Ho in Hres |- *.
  apply original_resolves; assumption.
Qed.

Lemma original_valid_index_witness :
  Graph_init (of_rows 4 4 [[0;1;0;0]; [0;0;1;0]; [0;0;0;1]; [1;0;0;0]])
    (LList [VStr "a"; VStr "b"; VStr "c"; VStr "d"]) None None = Ok ring4
  /\ derived ring4 (result_of ring4 [VInt 0; VInt 1])
  /\ origin (result_of ring4 [VInt 0; VInt 1]) = origin ring4.
Proof.
  assert (Hd : derived ring4 (result_of ring4 [VInt 0; VInt 1])).
  { apply (derived_returned ring4 ring4 [VInt 0; VInt 1]); [apply derived_init|reflexivity]. }
  split; [reflexivity|]. split; [exact Hd|].
  refine (proj1 (original_valid_index
                   (of_rows 4 4 [[0;1;0;0]; [0;0;1;0]; [0;0;0;1]; [1;0;0;0]])
                   (LList [VStr "a"; VStr "b"; VStr "c"; VStr "d"])
                   None ring4 _ eq_refl _ Hd)).
  intros l [= <-]. repeat constructor; eexists; split; reflexivity.
Defined.

(** ** Sums, products of matrices and vectors *)

Lemma zsum_add {X} (f h : X -> Z) l :
  zsum ((fun x => f x + h x) <$> l) = zsum (f <$> l) + zsum (h <$> l).
Proof. induction l as [|x l IH]; cbn; [reflexivity|]. unfold zsum in *. cbn. lia. Qed.

Lemma zsum_mul_l {X} c (f : X -> Z) l :
  zsum ((fun x => c * f x) <$> l) = c * zsum (f <$> l).
Proof. induction l as [|x l IH]; cbn; [lia|]. unfold zsum in *. cbn. lia. Qed.

Lemma zsum_mul_r {X} c (f : X -> Z) l :
  zsum ((fun x => f x * c) <$> l) = zsum (f <$> l) * c.
Proof. induction l as [|x l IH]; cbn; [lia|]. unfold zsum in *. cbn. lia. Qed.

Lemma zsum_const_zero {X} (l : list X) : zsum ((fun _ => 0) <$> l) = 0.
Proof. induction l as [|x l IH]; cbn; [reflexivity|]. unfold zsum in *. cbn. lia. Qed.

Lemma zsum_swap {X Y} (f : X -> Y -> Z) xs ys :
  zsum ((fun x => zsum ((fun y => f x y) <$> ys)) <$> xs)
  = zsum ((fun y => zsum ((fun x => f x y) <$> xs)) <$> ys).
Proof.
  induction xs as [|x xs IH].
  - cbn. rewrite zsum_const_zero. reflexivity.
  - rewrite fmap_cons. change (zsum (?a :: ?l)) with (a + zsum l). rewrite IH.
    rewrite <- zsum_add. apply zsum_ext. intros y _. reflexivity.
Qed.

Lemma zsum_indicator (f : nat -> Z) i a m :
  zsum ((fun j => (if (i =? j)%nat then 1 else 0) * f j) <$> seq a m)
  = if decide (a <= i < a + m)%nat then f i else 0.
Proof.
  revert a. induction m as [|m IH]; intros a.
  - cbn. case_decide; [lia|reflexivity].
  - cbn [seq]. rewrite fmap_cons. change (zsum (?x :: ?l)) with (x + zsum l). rewrite IH.
    destruct (Nat.eqb_spec i a) as [->|Hne]; repeat case_decide; try lia.
Qed.

Lemma length_apply M v : length (apply M v) = nrows M.
Proof. unfold apply. rewrite length_fmap, length_seq. reflexivity. Qed.

Lemma nth_apply M v i : (i < nrows M)%nat -> nth i (apply M v) 0 = dot M i v.
Proof.
  intros Hi. apply nth_lookup_Some. unfold apply.
  rewrite list_lookup_fmap, lookup_seq_lt by exact Hi. reflexivity.
Qed.

Lemma apply_mmul M N v :
  ncols M = nrows N -> apply (mmul M N) v = apply M (apply N v).
Proof.
  intros Hmn. unfold apply at 1 2. cbn [mmul nrows]. apply list_fmap_ext.
  intros _ i _. unfold dot. cbn [mmul ncols entry].
  transitivity (zsum ((fun j => zsum ((fun k => entry M i k * entry N k j * nth j v 0)
                                       <$> seq 0 (ncols M))) <$> seq 0 (ncols N))).
  { apply zsum_ext. intros j _. rewrite zsum_mul_r. reflexivity. }
  rewrite zsum_swap. apply zsum_ext. intros k Hk. apply elem_of_seq in Hk.
  rewrite nth_apply by lia. unfold dot. rewrite <- zsum_mul_l.
  apply zsum_ext. intros j _. lia.
Qed.

Lemma apply_identity v : apply (identity (length v)) v = v.
Proof.
  unfold apply. cbn [identity nrows]. apply list_eq. intros i.
  rewrite list_lookup_fmap. destruct (decide (i < length v)%nat) as [Hi|Hi].
  - rewrite lookup_seq_lt by exact Hi. cbn [fmap option_fmap option_map].
    unfold dot. cbn [identity ncols entry]. rewrite zsum_indicator.
    case_decide; [|lia]. simpl.
    destruct (lookup_lt_is_Some_2 v i Hi) as [x Hx]. rewrite Hx. f_equal.
    apply nth_lookup_Some. exact Hx.
  - rewrite lookup_seq_ge by lia. symmetry. apply lookup_ge_None. lia.
Qed.

Lemma nrows_mpow M t : nrows (mpow M t) = nrows M.
Proof. destruct t; reflexivity. Qed.

(** ** Linear dynamics *)

Lemma set_row_ok t w i row :
  (i < length t)%nat -> length row = w -> forallb is_exact row = true ->
  set_row t w i row = Ok (<[i := row]> t).
Proof.
  intros Hi Hl He. unfold set_row.
  destruct (Nat.ltb_spec i (length t)); [|lia]. rewrite Hl, Nat.eqb_refl.
  cbn [mbind result_bind]. rewrite He. reflexivity.
Qed.

Lemma zsum_abs {X} (f : X -> Z) l :
  Z.abs (zsum (f <$> l)) <= zsum ((fun x => Z.abs (f x)) <$> l).
Proof. induction l as [|x l IH]; cbn; [lia|]. unfold zsum in *. cbn. lia. Qed.

Lemma dot_le_abs M i v : Z.abs (dot M i v) <= dot_abs M i v.
Proof. unfold dot, dot_abs. apply zsum_abs. Qed.

Lemma row_sums_apply M v :
  row_sums_exact M v = true -> forallb is_exact (apply M v) = true.
Proof.
  intros H. unfold row_sums_exact in H. rewrite forallb_forall in H.
  apply forallb_forall. intros x Hx. apply list_elem_of_In in Hx.
  unfold apply in Hx. apply list_elem_of_fmap in Hx as (i & -> & Hi).
  specialize (H i (proj1 (list_elem_of_In _ _) Hi)). apply Z.leb_le in H.
  unfold is_exact. apply Z.leb_le. pose proof (dot_le_abs M i v). lia.
Qed.

Lemma matvec_ok M v :
  ncols M = length v -> forallb is_exact v = true -> row_sums_exact M v = true ->
  matvec M v = Ok (apply M v).
Proof.
  intros H He Hs. unfold matvec. rewrite H, Nat.eqb_refl, He.
  unfold row_sums_exact in Hs. rewrite Hs. reflexivity.
Qed.

Section Linear.

Variables (M : spmatrix) (w k : nat) (x0 : list Z).
Hypothesis M_rows : nrows M = w.
Hypothesis M_cols : ncols M = w.
Hypothesis x0_len : length x0 = w.
Hypothesis x0_exact : linear_exact M x0 k = true.

(** The state after [t] steps. *)
Local Abbreviation state t := (apply (mpow M t) x0).

Lemma length_state t : length (state t) = w.
Proof. rewrite length_apply, nrows_mpow. exact M_rows. Qed.

Lemma state_step t : apply M (state t) = state (S t).
Proof.
  cbn [mpow]. rewrite apply_mmul; [reflexivity|]. rewrite nrows_mpow. congruence.
Qed.

Lemma state_0 : state 0 = x0.
Proof. cbn [mpow]. rewrite M_rows, <- x0_len. apply apply_identity. Qed.

Lemma state_sums t : (t < k - 1)%nat -> row_sums_exact M (state t) = true.
Proof.
  intros Ht. unfold linear_exact in x0_exact. apply andb_true_iff in x0_exact as [_ H].
  rewrite forallb_forall in H. apply H, list_elem_of_In, elem_of_seq. lia.
Qed.

Lemma state_exact t : (t < k)%nat -> forallb is_exact (state t) = true.
Proof.
  intros Ht. destruct t as [|t].
  - rewrite state_0. unfold linear_exact in x0_exact.
    apply andb_true_iff in x0_exact as [H _]. exact H.
  - rewrite <- state_step. apply row_sums_apply, state_sums. lia.
Qed.

Lemma run_linear cnt : forall i t,
  (1 <= i)%nat -> (i + cnt <= k)%nat -> length t = k ->
  (forall j, (j < i)%nat -> t !! j = Some (state j)) ->
  exists t', foldM (fun i t =>
                      prev ← match t !! (i - 1)%nat with
                             | Some r => Ok r
                             | None => Err IndexError
                             end;
                      next ← matvec M prev;
                      set_row t w i next) (seq i cnt) t = Ok t'
             /\ length t' = k
             /\ forall j, (j < i + cnt)%nat -> t' !! j = Some (state j).
Proof.
  induction cnt as [|cnt IH]; intros i t Hi Hk Hlen Hrows.
  - exists t. split; [reflexivity|]. split; [exact Hlen|].
    intros j Hj. apply Hrows. lia.
  - cbn [seq foldM]. rewrite (Hrows (i - 1)%nat) by lia. cbn [mbind result_bind].
    rewrite matvec_ok;
      [|rewrite length_state; exact M_cols|apply state_exact; lia|apply state_sums; lia].
    cbn [mbind result_bind].
    rewrite state_step. replace (S (i - 1)) with i by lia.
    rewrite set_row_ok; [|lia|apply length_state|apply state_exact; lia].
    destruct (IH (S i) (<[i := state i]> t)) as (t' & Hrun & Hlen' & Hrows').
    + lia.
    + lia.
    + rewrite length_insert. exact Hlen.
    + intros j Hj. destruct (decide (j = i)) as [->|Hne].
      * apply list_lookup_insert_eq. lia.
      * rewrite list_lookup_insert_ne by lia. apply Hrows. lia.
    + exists t'. split; [exact Hrun|]. split; [exact Hlen'|].
      intros j Hj. apply Hrows'. lia.
Qed.

End Linear.

(** C7, as it stands, fails: the trajectory of [k] steps has the rows
    [0 .. k-1], so there is no row [k]. *)
Lemma iterate_has_no_row_k :
  iterate pair21 2 [1; 0] = Ok [[1; 0]; [0; 2]]
  /\ [[1; 0]; [0; 2]] !! 2%nat = (None : option (list Z))
  /\ apply (mpow (A pair21) 2) [1; 0] = [2; 0].
Proof. repeat split; reflexivity. Qed.

(** C7, amended. For a network without functional matrix, an initial state
    of length [n] and a positive number of steps [k], as long as the values
    stay in the range in which float64 arithmetic on integers is exact (the
    initial state, and the absolute values of the products along every row
    of every step taken, add up to at most [2^53]), [iterate] returns a
    trajectory of [k] rows, and its row [t], for every [t < k], is the
    [t]-th power of the adjacency matrix applied to the initial state; row 0
    is the initial state. *)
Theorem iterate_linear (g : Graph) (k : nat) (x0 : list Z) :
  F g = None -> nrows (A g) = n g -> ncols (A g) = n g ->
  length x0 = n g -> (0 < k)%nat -> linear_exact (A g) x0 k = true ->
  exists traj,
    iterate g k x0 = Ok traj /\ length traj = k
    /\ traj !! 0%nat = Some x0
    /\ forall t, (t < k)%nat -> traj !! t = Some (apply (mpow (A g) t) x0).
Proof.
  intros HF Hr Hc Hx Hk He. unfold iterate. rewrite HF. unfold _linear_dynamics.
  assert (H0 : apply (mpow (A g) 0) x0 = x0) by (apply (state_0 (A g) (n g)); assumption).
  rewrite set_row_ok; [|rewrite length_replicate; exact Hk|exact Hx|].
  2:{ unfold linear_exact in He. apply andb_true_iff in He as [He _]. exact He. }
  cbn [mbind result_bind]. unfold run.
  destruct (run_linear (A g) (n g) k x0 Hr Hc Hx He (k - 1) 1
              (<[0%nat := x0]> (replicate k (replicate (n g) 0))))
    as (traj & Hrun & Hlen & Hrows).
  - lia.
  - lia.
  - rewrite length_insert, length_replicate. reflexivity.
  - intros j Hj. replace j with 0%nat by lia. rewrite H0.
    apply list_lookup_insert_eq. rewrite length_replicate. exact Hk.
  - exists traj. split; [exact Hrun|]. split; [exact Hlen|]. split.
    + rewrite <- H0. apply Hrows. lia.
    + intros t Ht. apply Hrows. lia.
Qed.

Lemma iterate_linear_witness :
  F pair21 = None /\ (0 < 2)%nat /\ linear_exact (A pair21) [1; 0] 2 = true
  /\ exists traj, iterate pair21 2 [1; 0] = Ok traj /\ length traj = 2%nat.
Proof.
  split; [reflexivity|]. split; [repeat constructor|]. split; [reflexivity|].
  destruct (iterate_linear pair21 2 [1; 0] eq_refl eq_refl eq_refl eq_refl
              (le_S _ _ (le_n 1)) eq_refl) as (traj & H1 & H2 & _).
  exists traj. split; assumption.
Defined.

(** * Further properties *)

(** ** The label and index registry *)

Lemma map_of_list_snoc kvs k v :
  map_of_list (kvs ++ [(k, v)]) = <[k := v]> (map_of_list kvs).
Proof. unfold map_of_list. rewrite foldl_app. reflexivity. Qed.

(** A dict built from pairs holds, for a key, the value of its last pair. *)
Lemma map_of_list_last kvs k v :
  map_of_list kvs !! k = Some v
  <-> exists i, kvs !! i = Some (k, v)
                /\ forall j v', (i < j)%nat -> kvs !! j <> Some (k, v').
Proof.
  induction kvs as [|[k' v'] kvs IH] using rev_ind.
  - split; [intros H; discriminate|intros (i & H & _); discriminate].
  - rewrite map_of_list_snoc. destruct (decide (k' = k)) as [->|Hne].
    + rewrite lookup_insert_eq. split.
      * intros [= ->]. exists (length kvs). split.
        -- rewrite lookup_app_r, Nat.sub_diag by lia. reflexivity.
        -- intros j w Hj. rewrite lookup_ge_None_2; [discriminate|].
           rewrite length_app. simpl. lia.
      * intros (i & Hi & Hlast). destruct (decide (i = length kvs)) as [->|Hi'].
        -- rewrite lookup_app_r, Nat.sub_diag in Hi by lia. simpl in Hi. congruence.
        -- exfalso. apply (Hlast (length kvs) v').
           ++ apply lookup_lt_Some in Hi. rewrite length_app in Hi. simpl in Hi. lia.
           ++ rewrite lookup_app_r, Nat.sub_diag by lia. reflexivity.
    + rewrite lookup_insert_ne by exact Hne. rewrite IH. split.
      * intros (i & Hi & Hlast). exists i. split.
        -- rewrite lookup_app_l by (apply lookup_lt_Some in Hi; exact Hi). exact Hi.
        -- intros j w Hj. destruct (decide (j < length kvs)%nat).
           ++ rewrite lookup_app_l by lia. apply Hlast, Hj.
           ++ destruct (decide (j = length kvs)) as [->|].
              ** rewrite lookup_app_r, Nat.sub_diag by lia. simpl. congruence.
              ** rewrite lookup_ge_None_2; [discriminate|]. rewrite length_app. simpl. lia.
      * intros (i & Hi & Hlast).
        assert (Hlt : (i < length kvs)%nat).
        { destruct (decide (i < length kvs)%nat); [assumption|exfalso].
          apply lookup_lt_Some in Hi as Hi'. rewrite length_app in Hi'. simpl in Hi'.
          assert (i = length kvs) as -> by lia.
          rewrite lookup_app_r, Nat.sub_diag in Hi by lia. simpl in Hi. congruence. }
        exists i. split.
        -- rewrite lookup_app_l in Hi by exact Hlt. exact Hi.
        -- intros j w Hj Hjw. apply (Hlast j w Hj).
           rewrite lookup_app_l by (apply lookup_lt_Some in Hjw; exact Hjw). exact Hjw.
Qed.

Lemma lookup_zip_seq_r {X} (l : list X) m i x j :
  zip l (seq 0 m) !! i = Some (x, j) <-> l !! i = Some x /\ j = i /\ (i < m)%nat.
Proof.
  split.
  - intros H. apply lookup_zip_with_Some in H as (a & b & [= -> ->] & Ha & Hb).
    apply lookup_seq in Hb. simpl in Hb. destruct Hb as [-> Hlt]. auto.
  - intros (Hl & -> & Hlt). apply lookup_zip_with_Some. exists x, i.
    split; [reflexivity|]. split; [exact Hl|]. apply lookup_seq_lt. exact Hlt.
Qed.

Lemma str_of_nat_inj i j : str_of_nat i = str_of_nat j -> i = j.
Proof.
  unfold str_of_nat. intros H. apply Unsigned.to_uint_inj.
  apply (f_equal NilEmpty.uint_of_string) in H. rewrite !NilEmpty.usu in H.
  congruence.
Qed.

Lemma dict_get_zip_seq {V} m (l : list V) i v :
  length l = m ->
  dict_get (zip (seq 0 m) l) (as_int i) = Ok v <-> l !! i = Some v.
Proof.
  intros Hlen. unfold dict_get, as_int.
  destruct (Z.leb_spec 0 (Z.of_nat i)); [|lia].
  rewrite Nat2Z.id, dict_find_zip_seq, Nat.sub_0_r. case_decide as D.
  - destruct (l !! i); split; congruence.
  - rewrite lookup_ge_None_2 by lia. split; discriminate.
Qed.

Lemma Graph_init_ok A0 labels0 F0 o g :
  Graph_init A0 labels0 F0 o = Ok g ->
  nrows A0 = ncols A0
  /\ exists l, length l = nrows A0 /\ g = new_graph A0 l F0 o
               /\ match labels0 with
                  | LNone => l = (fun i => VStr (str_of_nat i)) <$> seq 0 (nrows A0)
                  | LList l' => l = l'
                  | LTuple _ => False
                  end.
Proof.
  unfold Graph_init. destruct (Nat.eqb_spec (nrows A0) (ncols A0)) as [Hsq|]; [|discriminate].
  cbn [negb]. intros H. split; [exact Hsq|]. destruct labels0 as [|l|l]; [| |discriminate].
  - injection H as <-. eexists. split; [|split; reflexivity].
    rewrite length_fmap, length_seq. reflexivity.
  - destruct (Nat.eqb_spec (length l) (nrows A0)) as [Hlen|]; [|discriminate].
    cbn [negb] in H. destruct l as [|l0 l']; [discriminate|].
    destruct (is_str l0); [|discriminate]. injection H as <-. eauto.
Qed.

Lemma new_graph_registry A0 l F0 o :
  length l = nrows A0 ->
  let g := new_graph A0 l F0 o in
  (forall i v, dict_get (labeler g) (as_int i) = Ok v <-> labels g !! i = Some v)
  /\ (forall v i, indexer g !! v = Some i
                  <-> labels g !! i = Some v
                      /\ forall j, (i < j)%nat -> labels g !! j <> Some v)
  /\ (NoDup (labels g) ->
      forall v i, indexer g !! v = Some i <-> dict_get (labeler g) (as_int i) = Ok v).
Proof.
  intros Hlen g. subst g. cbn [new_graph A n labels labeler indexer].
  assert (Hidx : forall v i, map_of_list (zip l (seq 0 (nrows A0))) !! v = Some i
                   <-> l !! i = Some v /\ forall j, (i < j)%nat -> l !! j <> Some v).
  { intros v i. rewrite map_of_list_last. split.
    - intros (k & Hk & Hlast). apply lookup_zip_seq_r in Hk as (Hk & -> & _).
      split; [exact Hk|]. intros j Hj Hjv. apply (Hlast j j Hj).
      apply lookup_zip_seq_r. split; [exact Hjv|]. split; [reflexivity|].
      apply lookup_lt_Some in Hjv. lia.
    - intros (Hi & Hlast). exists i. split.
      + apply lookup_zip_seq_r. split; [exact Hi|]. split; [reflexivity|].
        apply lookup_lt_Some in Hi. lia.
      + intros j w Hj Hjw. apply lookup_zip_seq_r in Hjw as (Hjw & _). exact (Hlast j Hj Hjw). }
  assert (Hlab : forall i v,
             dict_get (dict_of_list (zip (seq 0 (nrows A0)) l)) (as_int i) = Ok v
             <-> l !! i = Some v).
  { intros i v. rewrite dict_of_list_zip_seq. apply dict_get_zip_seq. exact Hlen. }
  split; [exact Hlab|]. split; [exact Hidx|].
  intros Hnd v i. rewrite Hidx, Hlab. split; [tauto|]. intros Hi. split; [exact Hi|].
  intros j Hj Hjv. pose proof (NoDup_lookup _ _ _ _ Hnd Hi Hjv). lia.
Qed.

Lemma default_labels_NoDup m : NoDup ((fun i => VStr (str_of_nat i)) <$> seq 0 m).
Proof.
  apply NoDup_fmap_2; [|apply NoDup_seq]. intros x y [= E]. apply str_of_nat_inj, E.
Qed.

(** X3. In a network as constructed, the matrix is square of size [n] and
    there are [n] labels; the labeler maps each index to its label; the
    indexer maps a label to the last index that carries it, so that labeler
    and indexer are inverse to each other when the labels are unique, as the
    default labels are. *)
Theorem Graph_init_registry (A0 : spmatrix) (labels0 : labels_arg)
    (F0 : option fmatrix) (o : option (gmap pyval nat)) (g : Graph) :
  Graph_init A0 labels0 F0 o = Ok g ->
  (nrows (A g) = n g /\ ncols (A g) = n g /\ length (labels g) = n g)
  /\ (forall i v, dict_get (labeler g) (as_int i) = Ok v <-> labels g !! i = Some v)
  /\ (forall v i, indexer g !! v = Some i
                  <-> labels g !! i = Some v
                      /\ forall j, (i < j)%nat -> labels g !! j <> Some v)
  /\ (NoDup (labels g) ->
      forall v i, indexer g !! v = Some i <-> dict_get (labeler g) (as_int i) = Ok v)
  /\ (labels0 = LNone ->
      NoDup (labels g)
      /\ forall i, (i < n g)%nat -> labels g !! i = Some (VStr (str_of_nat i))).
Proof.
  intros Hinit. apply Graph_init_ok in Hinit as (Hsq & l & Hlen & -> & Hl).
  destruct (new_graph_registry A0 l F0 o Hlen) as (Hlab & Hidx & Hinv).
  split; [cbn [new_graph A n labels]; repeat split; congruence|].
  split; [exact Hlab|]. split; [exact Hidx|]. split; [exact Hinv|].
  intros ->. subst l. cbn [new_graph labels n]. split; [apply default_labels_NoDup|].
  intros i Hi. rewrite list_lookup_fmap, lookup_seq_lt by exact Hi. reflexivity.
Qed.

Lemma Graph_init_registry_witness :
  Graph_init (of_rows 4 4 [[0;1;0;0]; [0;0;1;0]; [0;0;0;1]; [1;0;0;0]])
    (LList [VStr "a"; VStr "b"; VStr "c"; VStr "d"]) None None = Ok ring4
  /\ (indexer ring4 !! VStr "c" = Some 2%nat
      <-> labels ring4 !! 2%nat = Some (VStr "c")
          /\ forall j, (2 < j)%nat -> labels ring4 !! j <> Some (VStr "c")).
Proof.
  split; [reflexivity|].
  exact (proj1 (proj2 (proj2 (Graph_init_registry
           (of_rows 4 4 [[0;1;0;0]; [0;0;1;0]; [0;0;0;1]; [1;0;0;0]])
           (LList [VStr "a"; VStr "b"; VStr "c"; VStr "d"]) None None ring4 eq_refl)))
           (VStr "c") 2%nat).
Defined.

(** X4. [_update_indexer] inverts the labeler: when no label occurs twice in
    it, the dict returned maps a label to an index exactly when the labeler
    maps that index to the label; on a network as constructed it gives back
    the indexer. *)
Theorem update_indexer_inverse (g : Graph) :
  NoDup (labeler g).*2 ->
  (forall v i, _update_indexer g !! v = Some i <-> (i, v) ∈ labeler g)
  /\ (wf g -> _update_indexer g = indexer g).
Proof.
  intros Hnd. split.
  - intros v i. unfold _update_indexer. rewrite map_of_list_last. split.
    + intros (k & Hk & _). apply lookup_zip_with_Some in Hk as (a & b & [= -> ->] & Ha & Hb).
      rewrite list_lookup_fmap in Ha. rewrite list_lookup_fmap in Hb.
      destruct (labeler g !! k) as [[i' v']|] eqn:E; [|discriminate].
      simpl in Ha, Hb. injection Ha as ->. injection Hb as ->.
      apply list_elem_of_lookup. eauto.
    + intros Hin. apply list_elem_of_lookup in Hin as [k Hk]. exists k. split.
      * apply lookup_zip_with_Some. exists v, i. split; [reflexivity|].
        rewrite !list_lookup_fmap, Hk. auto.
      * intros j w Hj Hjw.
        apply lookup_zip_with_Some in Hjw as (a & b & [= <- <-] & Ha & _).
        assert (Hkv : (labeler g).*2 !! k = Some v) by (rewrite list_lookup_fmap, Hk; reflexivity).
        pose proof (NoDup_lookup _ _ _ _ Hnd Hkv Ha). lia.
  - intros Hwf. unfold _update_indexer.
    rewrite (wf_labeler g Hwf), zip_snd_fst_seq. symmetry. apply (wf_indexer g Hwf).
Qed.

Lemma update_indexer_inverse_witness :
  NoDup (labeler ring4).*2 /\ _update_indexer ring4 = indexer ring4.
Proof.
  assert (Hnd : NoDup (labeler ring4).*2).
  { refine (bool_decide_unpack (NoDup (labeler ring4).*2) _). vm_compute. exact I. }
  split; [exact Hnd|].
  exact (proj2 (update_indexer_inverse ring4 Hnd) ring4_wf).
Defined.

(** ** Labels and original indices of the network returned *)

Lemma lookup_blocks {X} (f : nat -> nat -> X) sl k : forall a c j,
  (c < k)%nat -> (j < sl)%nat ->
  (i ← seq a k; f i <$> seq 0 sl) !! (c * sl + j)%nat = Some (f (a + c)%nat j).
Proof.
  induction k as [|k IH]; intros a c j Hc Hj; [lia|].
  cbn [seq]. rewrite bind_cons. destruct c as [|c].
  - rewrite lookup_app_l by (rewrite length_fmap, length_seq; lia).
    rewrite list_lookup_fmap, lookup_seq_lt by lia. rewrite Nat.add_0_r. reflexivity.
  - rewrite lookup_app_r by (rewrite length_fmap, length_seq; lia).
    rewrite length_fmap, length_seq.
    replace (S c * sl + j - sl)%nat with (c * sl + j)%nat by lia.
    rewrite IH by lia. f_equal. f_equal. lia.
Qed.

Lemma original_label g x s :
  wf g -> (x < n g)%nat -> nth x (labels g) VNone = VStr s ->
  original g x = match origin g !! VStr (canonical s) with
                 | Some o => Ok o
                 | None => Err KeyError
                 end.
Proof.
  intros Hwf Hx Hs. unfold original. change (VInt (Z.of_nat x)) with (as_int x).
  rewrite (dict_get_wf g x Hwf Hx), Hs. reflexivity.
Qed.

Lemma wf_label_str g x :
  wf g -> (x < n g)%nat -> exists s, nth x (labels g) VNone = VStr s.
Proof.
  intros Hwf Hx. pose proof (wf_labels g Hwf) as Hl. pose proof (wf_str g Hwf) as Hs.
  rewrite Forall_forall in Hs.
  specialize (Hs (nth x (labels g) VNone) ltac:(apply list_elem_of_In, nth_In; lia)).
  destruct (nth x (labels g) VNone); try discriminate. eauto.
Qed.

Section ResultLabels.

Variables (g : Graph) (base : list pyval) (g' : Graph).
Hypothesis Hwf : wf g.
Hypothesis Hv : valid_base g base = true.
Hypothesis Hret : returned (specialize g base) = Ok g'.

Local Abbreviation bs := (base_indices g base).
Local Abbreviation rest := (rest_of g bs).
Local Abbreviation bl := (length bs).
Local Abbreviation sl := (length rest).
Local Abbreviation k := (Z.to_nat (copies g bs)).

Lemma lookup_order_base i : (i < bl)%nat -> node_order g bs !! i = Some (nth i bs 0%nat).
Proof.
  intros Hi. unfold node_order. rewrite lookup_app_l by exact Hi.
  destruct (lookup_lt_is_Some_2 bs i Hi) as [x Hx]. rewrite Hx. f_equal.
  symmetry. apply nth_lookup_Some, Hx.
Qed.

Lemma lookup_order_rest j :
  (j < sl)%nat -> node_order g bs !! (bl + j)%nat = Some (nth j rest 0%nat).
Proof.
  intros Hj. unfold node_order. rewrite lookup_app_r by lia.
  replace (bl + j - bl)%nat with j by lia.
  destruct (lookup_lt_is_Some_2 rest j Hj) as [x Hx]. rewrite Hx. f_equal.
  symmetry. apply nth_lookup_Some, Hx.
Qed.

Lemma result_label_base i :
  (i < bl)%nat -> labels g' !! i = Some (nth (nth i bs 0%nat) (labels g) VNone).
Proof.
  intros Hi. rewrite (result_labels g base g' Hwf Hv Hret).
  rewrite lookup_app_l by (rewrite length_take, g1_labels; lia).
  rewrite lookup_take_lt by exact Hi. cbn [rearranged labels].
  rewrite list_lookup_fmap, lookup_order_base by exact Hi. reflexivity.
Qed.

Lemma result_label_copy c j :
  (c < k)%nat -> (j < sl)%nat ->
  labels g' !! (bl + c * sl + j)%nat
  = Some (match nth (nth j rest 0%nat) (labels g) VNone with
          | VStr s => VStr (s ++ "." ++ str_of_nat (c + 1))
          | v => v
          end).
Proof.
  intros Hc Hj. rewrite (result_labels g base g' Hwf Hv Hret).
  rewrite lookup_app_r by (rewrite length_take, g1_labels; lia).
  rewrite length_take, g1_labels.
  replace (bl + c * sl + j - Nat.min bl (bl + sl))%nat with (c * sl + j)%nat by lia.
  rewrite lookup_blocks by assumption. unfold copy_label. cbn [rearranged labels].
  rewrite (nth_lookup_Some _ (bl + j) VNone (nth (nth j rest 0%nat) (labels g) VNone));
    [reflexivity|].
  rewrite list_lookup_fmap, lookup_order_rest by exact Hj. reflexivity.
Qed.

Lemma result_origin_kept : origin g <> ∅ -> origin g' = origin g.
Proof.
  intros Hne. rewrite (result_origin g base g' Hwf Hv Hret). case_decide; [contradiction|].
  reflexivity.
Qed.

End ResultLabels.

(** X5. The labels of the network returned: the base nodes keep the labels
    they have in the input, in the order of the base, and the node at
    position [j] of copy [c] (counted from 0) carries the label of the
    [j]-th node outside the base followed by a dot and [c + 1]. *)
Theorem specialize_labels (g : Graph) (base : list pyval) (g' : Graph) :
  wf g -> valid_base g base = true -> returned (specialize g base) = Ok g' ->
  let bs := base_indices g base in
  let rest := rest_of g bs in
  let bl := length base in
  let sl := length rest in
  length (labels g') = n g'
  /\ (forall i, (i < bl)%nat ->
        labels g' !! i = Some (nth (nth i bs 0%nat) (labels g) VNone))
  /\ (forall c j, (c < Z.to_nat (copies g bs))%nat -> (j < sl)%nat ->
        exists s, nth (nth j rest 0%nat) (labels g) VNone = VStr s
                  /\ labels g' !! (bl + c * sl + j)%nat
                     = Some (VStr (s ++ "." ++ str_of_nat (c + 1)))).
Proof.
  intros Hwf Hv Hret bs rest bl sl. subst bs rest bl sl.
  pose proof (length_base_indices g base) as Hbl.
  split; [|split].
  - pose proof (result_n g base g' Hwf Hv Hret) as Hn.
    rewrite (result_labels g base g' Hwf Hv Hret), length_app, length_take,
      length_copy_labels, g1_labels, Hn. lia.
  - intros i Hi. apply (result_label_base g base g' Hwf Hv Hret). lia.
  - intros c j Hc Hj.
    destruct (wf_label_str g (nth j (rest_of g (base_indices g base)) 0%nat) Hwf) as [s Hs].
    { pose proof (rest_of_lt g (base_indices g base)) as Hlt. rewrite Forall_forall in Hlt.
      apply Hlt, list_elem_of_In, nth_In. exact Hj. }
    exists s. split; [exact Hs|]. rewrite <- Hbl.
    rewrite (result_label_copy g base g' Hwf Hv Hret c j Hc Hj).
    rewrite Hs. reflexivity.
Qed.

Lemma specialize_labels_witness :
  wf ring4 /\ valid_base ring4 [VInt 0; VInt 1] = true
  /\ returned (specialize ring4 [VInt 0; VInt 1]) = Ok (result_of ring4 [VInt 0; VInt 1])
  /\ labels (result_of ring4 [VInt 0; VInt 1]) !! 1%nat = Some (VStr "b").
Proof.
  split; [exact ring4_wf|]. split; [reflexivity|]. split; [reflexivity|].
  exact (proj1 (proj2 (specialize_labels ring4 [VInt 0; VInt 1] _ ring4_wf eq_refl eq_refl))
           1%nat (le_n 2)).
Defined.

(** X6. Every node of the network returned resolves as the node it stems
    from: when [origin] is not empty, [original] gives for a base node of the
    result what it gives in the input for that base node, and for a node of
    a copy what it gives in the input for the node copied. *)
Theorem original_of_result (g : Graph) (base : list pyval) (g' : Graph) :
  wf g -> valid_base g base = true -> origin g <> ∅ ->
  returned (specialize g base) = Ok g' ->
  let bs := base_indices g base in
  let rest := rest_of g bs in
  let bl := length base in
  let sl := length rest in
  (forall i, (i < bl)%nat -> original g' i = original g (nth i bs 0%nat))
  /\ (forall c j, (c < Z.to_nat (copies g bs))%nat -> (j < sl)%nat ->
        original g' (bl + c * sl + j) = original g (nth j rest 0%nat)).
Proof.
  intros Hwf Hv Hne Hret bs rest bl sl. subst bs rest bl sl.
  pose proof (length_base_indices g base) as Hbl.
  pose proof (result_wf g base g' Hwf Hv Hret) as Hwf'.
  pose proof (result_n g base g' Hwf Hv Hret) as Hn.
  pose proof (result_origin_kept g base g' Hwf Hv Hret Hne) as Ho.
  split.
  - intros i Hi.
    assert (Hlt : (nth i (base_indices g base) 0%nat < n g)%nat).
    { pose proof (bs_lt g base Hwf Hv) as H. rewrite Forall_forall in H.
      apply H, list_elem_of_In, nth_In. lia. }
    destruct (wf_label_str g _ Hwf Hlt) as [s Hs].
    rewrite (original_label g _ s Hwf Hlt Hs).
    rewrite (original_label g' i s Hwf'); [rewrite Ho; reflexivity|lia|].
    apply nth_lookup_Some.
    rewrite (result_label_base g base g' Hwf Hv Hret) by lia. rewrite Hs.
    reflexivity.
  - intros c j Hc Hj.
    assert (Hlt : (nth j (rest_of g (base_indices g base)) 0%nat < n g)%nat).
    { pose proof (rest_of_lt g (base_indices g base)) as H. rewrite Forall_forall in H.
      apply H, list_elem_of_In, nth_In. exact Hj. }
    destruct (wf_label_str g _ Hwf Hlt) as [s Hs].
    rewrite (original_label g _ s Hwf Hlt Hs).
    rewrite (original_label g' _ (s ++ "." ++ str_of_nat (c + 1)) Hwf').
    + rewrite Ho, canonical_suffix. reflexivity.
    + rewrite Hn, <- Hbl. nia.
    + apply nth_lookup_Some. rewrite <- Hbl.
      rewrite (result_label_copy g base g' Hwf Hv Hret c j Hc Hj).
      rewrite Hs. reflexivity.
Qed.

Lemma original_of_result_witness :
  wf ring4 /\ valid_base ring4 [VInt 0; VInt 1] = true /\ origin ring4 <> ∅
  /\ original (result_of ring4 [VInt 0; VInt 1]) 3 = original ring4 3.
Proof.
  assert (Hne : origin ring4 <> ∅).
  { intros H. apply (f_equal (fun m => m !! VStr "a")) in H. vm_compute in H. discriminate. }
  split; [exact ring4_wf|]. split; [reflexivity|]. split; [exact Hne|].
  exact (proj2 (original_of_result ring4 [VInt 0; VInt 1] _ ring4_wf eq_refl Hne eq_refl)
           0%nat 1%nat (le_n 1) (le_n 2)).
Defined.

(** X7. On a network constructed without [origin], with default labels or
    with unique labels that have no dot, [original] returns the index it is
    given; on any network as constructed it raises [KeyError] for an index
    that is not below [n]. *)
Theorem original_fresh (A0 : spmatrix) (labels0 : labels_arg)
    (F0 : option fmatrix) (o : option (gmap pyval nat)) (g : Graph) :
  Graph_init A0 labels0 F0 o = Ok g ->
  (o = None -> (forall l, labels0 = LList l -> Forall dot_free l /\ NoDup l) ->
   forall i, (i < n g)%nat -> original g i = Ok i)
  /\ (forall i, (n g <= i)%nat -> original g i = Err KeyError).
Proof.
  intros Hinit. apply Graph_init_ok in Hinit as (Hsq & l & Hlen & -> & Hl).
  destruct (new_graph_registry A0 l F0 o Hlen) as (Hlab & _ & Hinv).
  split.
  - intros -> Hlist i Hi. cbn [new_graph n] in Hi.
    assert (Hdn : Forall dot_free l /\ NoDup l).
    { destruct labels0 as [|l'|l']; [| |contradiction].
      - subst l. split; [|apply default_labels_NoDup].
        apply Forall_fmap, Forall_forall. intros j _. apply str_of_nat_dot_free.
      - subst l. apply Hlist. reflexivity. }
    destruct Hdn as [Hdot Hnd].
    destruct (lookup_lt_is_Some_2 l i) as [v Hv]; [lia|].
    rewrite Forall_forall in Hdot.
    destruct (Hdot v ltac:(apply list_elem_of_lookup; eauto)) as (s & -> & Hs).
    unfold original. change (VInt (Z.of_nat i)) with (as_int i).
    rewrite (proj2 (Hlab i (VStr s)) Hv). cbn [mbind result_bind].
    rewrite Hs, Z.eqb_refl. cbn [negb].
    change (origin (new_graph A0 l F0 None)) with (indexer (new_graph A0 l F0 None)).
    rewrite (proj2 (Hinv Hnd (VStr s) i)); [reflexivity|].
    apply Hlab, Hv.
  - intros i Hi. cbn [new_graph n] in Hi. unfold original.
    change (VInt (Z.of_nat i)) with (as_int i).
    destruct (dict_get (labeler (new_graph A0 l F0 o)) (as_int i)) as [v|e] eqn:E.
    + apply Hlab, lookup_lt_Some in E. cbn [new_graph labels] in E. lia.
    + apply dict_get_error in E as ->. reflexivity.
Qed.

Lemma original_fresh_witness :
  Graph_init (of_rows 4 4 [[0;1;0;0]; [0;0;1;0]; [0;0;0;1]; [1;0;0;0]])
    (LList [VStr "a"; VStr "b"; VStr "c"; VStr "d"]) None None = Ok ring4
  /\ original ring4 4 = Err KeyError.
Proof.
  split; [reflexivity|].
  exact (proj2 (original_fresh
           (of_rows 4 4 [[0;1;0;0]; [0;0;1;0]; [0;0;0;1]; [1;0;0;0]])
           (LList [VStr "a"; VStr "b"; VStr "c"; VStr "d"]) None None ring4 eq_refl)
           4%nat (le_n 4)).
Defined.

(** ** The blocks of the network returned *)

(** X8. The specialized part of the network returned is block diagonal: each
    copy holds the weights that the nodes outside the base have among
    themselves in the input, and there is no edge between two copies. *)
Theorem specialize_copies_verbatim (g : Graph) (base : list pyval) (g' : Graph) :
  wf g -> valid_base g base = true -> returned (specialize g base) = Ok g' ->
  let bs := base_indices g base in
  let rest := rest_of g bs in
  let bl := length base in
  let sl := length rest in
  forall c c' r r',
    (c < Z.to_nat (copies g bs))%nat -> (c' < Z.to_nat (copies g bs))%nat ->
    (r < sl)%nat -> (r' < sl)%nat ->
    entry (A g') (bl + c * sl + r) (bl + c' * sl + r')
    = if decide (c = c') then entry (A g) (nth r rest 0%nat) (nth r' rest 0%nat) else 0.
Proof.
  intros Hwf Hv Hret bs rest bl sl c c' r r' Hc Hc' Hr Hr'. subst bs rest bl sl.
  rewrite <- (length_base_indices g base).
  destruct (specialize_inv g base Hwf Hv g' Hret) as (S' & E & -> & _).
  apply (rewire_loop_entries _ _ _ _ _ (ps_in_bounds g base Hv) _
           (Z.to_nat (copies g (base_indices g base)))) in E
    as (_ & _ & _ & _ & Hss & _); [|apply S0_rows; assumption].
  cbn [new_graph A]. rewrite Hss by lia.
  cbn [block_diag entry]. cbn [cols_upto rows_upto nrows ncols].
  rewrite g1_rows, g1_cols.
  set (bl := length (base_indices g base)). set (sl := length (rest_of g (base_indices g base))).
  destruct (Nat.ltb_spec (bl + c * sl + r) (Nat.min bl (bl + sl))); [lia|].
  destruct (Nat.ltb_spec (bl + c' * sl + r') (Nat.min bl (bl + sl))); [lia|].
  replace (bl + c * sl + r - Nat.min bl (bl + sl))%nat with (c * sl + r)%nat by lia.
  replace (bl + c' * sl + r' - Nat.min bl (bl + sl))%nat with (c' * sl + r')%nat by lia.
  rewrite (block_diag_copies_entry _ _ sl) by
    (assumption || (cbn [cols_from rows_from nrows ncols]; rewrite ?g1_rows, ?g1_cols; lia)).
  destruct (Nat.eqb_spec c c'); case_decide; try contradiction; [|reflexivity].
  cbn [cols_from rows_from entry rearranged A]. subst bl sl.
  rewrite !nth_order_rest. reflexivity.
Qed.

Lemma specialize_copies_verbatim_witness :
  wf ring4 /\ valid_base ring4 [VInt 0; VInt 1] = true
  /\ returned (specialize ring4 [VInt 0; VInt 1]) = Ok (result_of ring4 [VInt 0; VInt 1])
  /\ entry (A (result_of ring4 [VInt 0; VInt 1])) 2 3 = 1.
Proof.
  split; [exact ring4_wf|]. split; [reflexivity|]. split; [reflexivity|].
  exact (specialize_copies_verbatim ring4 [VInt 0; VInt 1] _ ring4_wf eq_refl eq_refl
           0%nat 0%nat 0%nat 1%nat (le_n 1) (le_n 1) (le_S _ _ (le_n 1)) (le_n 2)).
Defined.

(** ** What a call keeps *)

(** X9. The network returned is as the constructor leaves it: a square
    matrix of size [n], [n] labels that are strings, a labeler and an indexer
    that follow the labels; it shares the functional matrix of the input and,
    when that is not empty, its [origin]. *)
Theorem specialize_result_registry (g : Graph) (base : list pyval) (g' : Graph) :
  wf g -> valid_base g base = true -> returned (specialize g base) = Ok g' ->
  (nrows (A g') = n g' /\ ncols (A g') = n g' /\ length (labels g') = n g')
  /\ indices g' = seq 0 (n g')
  /\ Forall (fun v => is_str v = true) (labels g')
  /\ (forall i v, dict_get (labeler g') (as_int i) = Ok v <-> labels g' !! i = Some v)
  /\ (forall v i, indexer g' !! v = Some i
                  <-> labels g' !! i = Some v
                      /\ forall j, (i < j)%nat -> labels g' !! j <> Some v)
  /\ F g' = F g
  /\ (origin g <> ∅ -> origin g' = origin g).
Proof.
  intros Hwf Hv Hret.
  pose proof (result_shape g base g' Hwf Hv Hret) as [Hr Hc].
  pose proof (result_wf g base g' Hwf Hv Hret) as Hwf'.
  pose proof (result_F g base g' Hwf Hv Hret) as HF.
  pose proof (result_origin_kept g base g' Hwf Hv Hret) as Ho.
  destruct (specialize_inv g base Hwf Hv g' Hret) as (S' & _ & E & _).
  assert (Hlen : length (labels g') = n g').
  { pose proof (result_n g base g' Hwf Hv Hret) as Hn.
    rewrite (result_labels g base g' Hwf Hv Hret), length_app, length_take,
      length_copy_labels, g1_labels, Hn. lia. }
  split; [auto|]. split; [apply (wf_indices g' Hwf')|].
  split; [apply (wf_str g' Hwf')|].
  rewrite E in Hlen, Hr |- *. cbn [new_graph labels n A] in Hlen, Hr.
  destruct (new_graph_registry S' _ (F g) (Some (origin g))
              ltac:(rewrite Hlen; reflexivity)) as (Hlab & Hidx & _).
  rewrite <- E in *. auto.
Qed.

Lemma specialize_result_registry_witness :
  wf ring4 /\ valid_base ring4 [VInt 0; VInt 1] = true
  /\ returned (specialize ring4 [VInt 0; VInt 1]) = Ok (result_of ring4 [VInt 0; VInt 1])
  /\ F (result_of ring4 [VInt 0; VInt 1]) = F ring4.
Proof.
  split; [exact ring4_wf|]. split; [reflexivity|]. split; [reflexivity|].
  exact (proj1 (proj2 (proj2 (proj2 (proj2 (proj2
           (specialize_result_registry ring4 [VInt 0; VInt 1] _
              ring4_wf eq_refl eq_refl))))))).
Defined.

Ltac self_after_cases g :=
  unfold specialize;
  match goal with |- context [match ?base with [] => _ | _ :: _ => _ end] =>
    destruct base as [|?b0 ?base']; [reflexivity|] end;
  match goal with |- context [resolve_base (indexer g) (?b :: ?l)] =>
    destruct (match b with
              | VStr _ => resolve_base (indexer g) (b :: l)
              | VInt _ => (b :: l, Ok tt)
              | VNone => (b :: l, Err ValueError)
              end) as [?b1 [[]|?e]]; [|reflexivity] end;
  destruct (_ <? _)%nat; [reflexivity|];
  destruct (permute_labeler _ _); [|reflexivity];
  destruct (mapM _ _); [|reflexivity];
  destruct (fancy _ _); reflexivity.

Lemma self_after_n g base : n (self_after (specialize g base)) = n g.
Proof. self_after_cases g. Qed.

Lemma self_after_indices g base : indices (self_after (specialize g base)) = indices g.
Proof. self_after_cases g. Qed.

Lemma self_after_F g base : F (self_after (specialize g base)) = F g.
Proof. self_after_cases g. Qed.

Lemma self_after_frame g base :
  let g1 := self_after (specialize g base) in
  n g1 = n g /\ indices g1 = indices g /\ origin g1 = origin g /\ F g1 = F g.
Proof.
  cbv zeta. auto using self_after_n, self_after_indices, self_after_origin, self_after_F.
Qed.

Lemma specialize_invalid_raises g base :
  wf g -> valid_base g base = false ->
  returned (specialize g base) = Err IndexError
  \/ returned (specialize g base) = Err KeyError
  \/ returned (specialize g base) = Err ValueError.
Proof.
  intros Hwf Hv. destruct base as [|b0 base']; [left; reflexivity|].
  unfold valid_base in Hv. rewrite bool_decide_eq_false_2 in Hv by discriminate.
  cbn [negb andb] in Hv. apply andb_false_iff in Hv as [Hv|Hv].
  - apply Nat.leb_gt in Hv. destruct (specialize_too_long g _ Hv) as [->| ->]; auto.
  - destruct (specialize_refused g (b0 :: base') Hwf ltac:(discriminate) Hv) as [->| ->]; auto.
Qed.

Lemma returned_valid g base g' :
  wf g -> returned (specialize g base) = Ok g' -> valid_base g base = true.
Proof.
  intros Hwf Hret. destruct (valid_base g base) eqn:Hv; [reflexivity|].
  destruct (specialize_invalid_raises g base Hwf Hv) as [E|[E|E]];
    rewrite E in Hret; discriminate.
Qed.

(** ** The caller's list *)

Lemma resolve_base_prefix idx pre b post :
  Forall (fun x => is_Some (idx !! x)) pre -> idx !! b = None ->
  resolve_base idx (pre ++ b :: post)
  = (((fun x => as_int (default 0%nat (idx !! x))) <$> pre) ++ b :: post, Err KeyError).
Proof.
  intros Hpre Hb. induction Hpre as [|x pre [i Hi] _ IH]; simpl.
  - rewrite Hb. reflexivity.
  - rewrite Hi, IH. reflexivity.
Qed.

(** X11. A call changes the caller's list only by resolving labels. When the
    first element of the base is not a string the list is left as it is.
    When it is a string and the first unknown element comes after some known
    labels, exactly the labels before it are overwritten by their indices,
    the rest of the list is kept, the call raises [KeyError] and the object
    is untouched. *)
Theorem specialize_caller_list (g : Graph) :
  (forall base, (forall s rest, base <> VStr s :: rest) ->
     caller_base (specialize g base) = base)
  /\ (forall pre b post,
        (exists s rest, pre ++ b :: post = VStr s :: rest) ->
        Forall (fun x => is_Some (indexer g !! x)) pre -> indexer g !! b = None ->
        specialize g (pre ++ b :: post)
        = Outcome (((fun x => as_int (default 0%nat (indexer g !! x))) <$> pre) ++ b :: post)
                  g (Err KeyError)).
Proof.
  split.
  - intros base Hns. unfold specialize. destruct base as [|b0 base']; [reflexivity|].
    destruct b0 as [s|z|]; [exfalso; eapply Hns; reflexivity| |reflexivity].
    destruct (_ <? _)%nat; [reflexivity|].
    destruct (permute_labeler _ _); [|reflexivity].
    destruct (mapM _ _); [|reflexivity].
    destruct (fancy _ _); reflexivity.
  - intros pre b post (s & rest & E) Hpre Hb.
    pose proof (resolve_base_prefix (indexer g) pre b post Hpre Hb) as Hres.
    rewrite E in Hres.
    transitivity (specialize g (VStr s :: rest)); [rewrite E; reflexivity|].
    unfold specialize. rewrite Hres. reflexivity.
Qed.

Lemma specialize_caller_list_witness :
  (exists s rest, [VStr "c"] ++ VStr "zz" :: [VStr "a"] = VStr s :: rest)
  /\ caller_base (specialize ring4 ([VStr "c"] ++ VStr "zz" :: [VStr "a"]))
     = [VInt 2; VStr "zz"; VStr "a"].
Proof.
  assert (H : exists s rest, [VStr "c"] ++ VStr "zz" :: [VStr "a"] = VStr s :: rest)
    by (eexists _, _; reflexivity).
  split; [exact H|].
  refine (f_equal caller_base
            (proj2 (specialize_caller_list ring4) [VStr "c"] (VStr "zz") [VStr "a"] H _ _)).
  - repeat constructor. vm_compute. eauto.
  - vm_compute. reflexivity.
Defined.

(** ** One step of the dynamics *)

Lemma original_past_end g : wf g -> original g (n g) = Err KeyError.
Proof.
  intros Hwf. unfold original. change (VInt (Z.of_nat (n g))) with (as_int (n g)).
  rewrite (dict_get_unknown g (as_int (n g)) Hwf); [reflexivity|].
  unfold known_index, as_int. rewrite Z.ltb_irrefl. apply andb_false_r.
Qed.

Section Dynamics.

Variables (g : Graph) (f : fmatrix) (n0 : nat).
Hypothesis g_wf : wf g.
Hypothesis g_res : Forall (resolves (origin g) n0) (labels g).

Lemma original_origin_of i : (i < n g)%nat -> original g i = Ok (origin_of g i).
Proof.
  intros Hi. destruct (original_resolves g n0 i g_wf g_res Hi) as (s & o & _ & _ & E & _).
  unfold origin_of. rewrite E. reflexivity.
Qed.

(** The loop over [j] for one node [i]. *)
Local Abbreviation inner t0 i o_i :=
  (fun j t =>
     o_j ← original g j;
     old ← match t !! i%nat with Some x => Ok x | None => Err IndexError end;
     if (i =? j)%nat then
       v ← checked (f o_i o_j (nth j t0 0));
       new ← checked (old + v);
       list_set t i%nat new
     else
       a ← getitem (A g) i%nat j;
       v ← checked (f o_i o_j (nth j t0 0));
       p ← checked (a * v);
       new ← checked (old + p);
       list_set t i%nat new).

Local Abbreviation value t0 i :=
  (fun j => f (origin_of g i) (origin_of g j) (nth j t0 0)).
Local Abbreviation term t0 i :=
  (fun j => coupling g i j * f (origin_of g i) (origin_of g j) (nth j t0 0)).

Lemma checked_ok z : Z.abs z <= 2 ^ 53 -> checked z = Ok z.
Proof.
  intros H. unfold checked, is_exact. destruct (Z.leb_spec (Z.abs z) (2 ^ 53)); [reflexivity|lia].
Qed.

Lemma zsum_abs_nonneg {X} (h : X -> Z) l : 0 <= zsum ((fun x => Z.abs (h x)) <$> l).
Proof. induction l as [|x l IH]; cbn; [lia|]. unfold zsum in *. cbn. lia. Qed.

Lemma inner_ok t0 i cnt : forall a t,
  (i < n g)%nat -> (i < length t)%nat -> (a + cnt <= n g)%nat ->
  (forall j, (a <= j < a + cnt)%nat -> Z.abs (value t0 i j) <= 2 ^ 53) ->
  Z.abs (nth i t 0) + zsum ((fun j => Z.abs (term t0 i j)) <$> seq a cnt) <= 2 ^ 53 ->
  foldM (inner t0 i (origin_of g i)) (seq a cnt) t
  = Ok (<[i := nth i t 0 + zsum (term t0 i <$> seq a cnt)]> t).
Proof.
  induction cnt as [|cnt IH]; intros a t Hi Hl Ha Hval Hsum.
  - cbn [seq foldM fmap list_fmap zsum foldr]. rewrite Z.add_0_r.
    f_equal. symmetry. apply list_insert_id.
    destruct (lookup_lt_is_Some_2 t i Hl) as [x Hx].
    rewrite (nth_lookup_Some _ _ 0 _ Hx). exact Hx.
  - cbn [seq foldM]. rewrite (original_origin_of a) by lia. cbn [mbind result_bind].
    destruct (lookup_lt_is_Some_2 t i Hl) as [x Hx]. rewrite Hx. cbn [mbind result_bind].
    rewrite (nth_lookup_Some _ _ 0 _ Hx) in Hsum |- *.
    cbn [seq fmap list_fmap] in Hsum.
    change (zsum (?y :: ?l)) with (y + zsum l) in Hsum.
    pose proof (zsum_abs_nonneg (term t0 i) (seq (S a) cnt)) as Hrest.
    pose proof (Hval a ltac:(lia)) as Hva. cbn beta in Hva.
    assert (Hstep : (if (i =? a)%nat
                     then v ← checked (f (origin_of g i) (origin_of g a) (nth a t0 0));
                          new ← checked (x + v); list_set t i new
                     else a0 ← getitem (A g) i a;
                          v ← checked (f (origin_of g i) (origin_of g a) (nth a t0 0));
                          p ← checked (a0 * v);
                          new ← checked (x + p); list_set t i new)
                    = Ok (<[i := x + term t0 i a]> t)).
    { set (c := coupling g i a) in Hsum |- *.
      assert (Hc : c = if (i =? a)%nat then 1 else entry (A g) i a) by reflexivity.
      clearbody c. destruct (i =? a)%nat; subst c.
      - rewrite checked_ok by exact Hva. cbn [mbind result_bind].
        rewrite Z.mul_1_l in Hsum |- *.
        rewrite checked_ok by lia. cbn [mbind result_bind].
        apply list_set_ok, Hl.
      - unfold getitem. pose proof (wf_rows g g_wf). pose proof (wf_cols g g_wf).
        destruct (Nat.ltb_spec i (nrows (A g))); [|lia].
        destruct (Nat.ltb_spec a (ncols (A g))); [|lia].
        cbn [andb mbind result_bind].
        rewrite checked_ok by exact Hva. cbn [mbind result_bind].
        rewrite checked_ok by lia. cbn [mbind result_bind].
        rewrite checked_ok by lia. cbn [mbind result_bind].
        apply list_set_ok, Hl. }
    rewrite Hstep. cbn [mbind result_bind].
    assert (Hnth : nth i (<[i := x + term t0 i a]> t) 0 = x + term t0 i a).
    { apply nth_lookup_Some, list_lookup_insert_eq, Hl. }
    rewrite IH; [|exact Hi|rewrite length_insert; exact Hl|lia| |].
    + rewrite list_insert_insert_eq. f_equal. f_equal. rewrite Hnth.
      cbn [fmap list_fmap zsum foldr]. fold (zsum (term t0 i <$> seq (S a) cnt)). lia.
    + intros j Hj. apply Hval. lia.
    + rewrite Hnth. lia.
Qed.

(** The loop over [i]: the state after the nodes below [a] are done. *)
Local Abbreviation outer t0 :=
  (fun i t => o_i ← original g i; foldM (inner t0 i o_i) (seq 0 (length t0)) t).

Local Abbreviation partial t0 a :=
  ((next_state g f t0 <$> seq 0 a) ++ replicate (length t0 - a) 0).

Lemma step_exact_state t0 : step_exact g f t0 = true -> forallb is_exact t0 = true.
Proof. unfold step_exact. intros H. apply andb_true_iff in H as [H _]. exact H. Qed.

Lemma step_exact_value t0 i j :
  step_exact g f t0 = true -> (i < reach g t0)%nat -> (j < reach g t0)%nat ->
  Z.abs (value t0 i j) <= 2 ^ 53.
Proof.
  unfold step_exact. intros H Hi Hj. apply andb_true_iff in H as [_ H].
  rewrite forallb_forall in H.
  specialize (H i ltac:(apply list_elem_of_In, elem_of_seq; lia)).
  apply andb_true_iff in H as [H _]. rewrite forallb_forall in H.
  specialize (H j ltac:(apply list_elem_of_In, elem_of_seq; lia)).
  apply Z.leb_le in H. exact H.
Qed.

Lemma step_exact_sum t0 i :
  step_exact g f t0 = true -> (i < reach g t0)%nat ->
  zsum ((fun j => Z.abs (term t0 i j)) <$> seq 0 (reach g t0)) <= 2 ^ 53.
Proof.
  unfold step_exact. intros H Hi. apply andb_true_iff in H as [_ H].
  rewrite forallb_forall in H.
  specialize (H i ltac:(apply list_elem_of_In, elem_of_seq; lia)).
  apply andb_true_iff in H as [_ H]. apply Z.leb_le in H. exact H.
Qed.

Lemma outer_ok t0 cnt : forall a,
  step_exact g f t0 = true ->
  (a + cnt <= length t0)%nat -> (length t0 <= n g)%nat ->
  foldM (outer t0) (seq a cnt) (partial t0 a) = Ok (partial t0 (a + cnt)).
Proof.
  induction cnt as [|cnt IH]; intros a He Ha Hn.
  - rewrite Nat.add_0_r. reflexivity.
  - assert (Hreach : reach g t0 = length t0) by (unfold reach; lia).
    assert (Hnth : nth a (partial t0 a) 0 = 0).
    { rewrite app_nth2 by (rewrite length_fmap, length_seq; lia).
      rewrite length_fmap, length_seq, Nat.sub_diag.
      replace (length t0 - a)%nat with (S (length t0 - S a)) by lia. reflexivity. }
    cbn [seq foldM]. rewrite (original_origin_of a) by lia. cbn [mbind result_bind].
    rewrite inner_ok.
    + cbn [mbind result_bind].
      replace (a + S cnt)%nat with (S a + cnt)%nat by lia. rewrite <- IH by (assumption || lia).
      f_equal. rewrite Hnth.
      replace (length t0 - a)%nat with (S (length t0 - S a)) by lia.
      rewrite insert_app_r_alt by (rewrite length_fmap, length_seq; lia).
      rewrite length_fmap, length_seq, Nat.sub_diag. cbn [insert list_insert].
      rewrite seq_S, fmap_app, <- app_assoc. reflexivity.
    + lia.
    + rewrite length_app, length_fmap, length_seq, length_replicate. lia.
    + lia.
    + intros j Hj. apply step_exact_value; [exact He|lia..].
    + rewrite Hnth. pose proof (step_exact_sum t0 a He ltac:(lia)) as Hs.
      rewrite Hreach in Hs. cbn. lia.
Qed.

Lemma dynamics_fits t0 :
  step_exact g f t0 = true -> length t0 = n g -> dynamics g f t0 = Ok (step g f t0).
Proof.
  intros He Hl. unfold dynamics, step. rewrite (step_exact_state t0 He).
  pose proof (outer_ok t0 (n g) 0 He ltac:(lia) ltac:(lia)) as H.
  rewrite Nat.sub_0_r in H. cbn [seq fmap list_fmap app] in H.
  rewrite H. cbn [Nat.add]. rewrite Hl, Nat.sub_diag. cbn [replicate].
  rewrite app_nil_r. reflexivity.
Qed.

Lemma dynamics_short t0 :
  step_exact g f t0 = true ->
  (0 < length t0 < n g)%nat -> dynamics g f t0 = Err IndexError.
Proof.
  intros He Hl. unfold dynamics. rewrite (step_exact_state t0 He).
  replace (n g) with (length t0 + S (n g - length t0 - 1))%nat at 1 by lia.
  rewrite seq_app, foldM_app.
  pose proof (outer_ok t0 (length t0) 0 He ltac:(lia) ltac:(lia)) as H.
  rewrite Nat.sub_0_r in H. cbn [seq fmap list_fmap app] in H.
  rewrite H. cbn [mbind result_bind Nat.add seq foldM].
  rewrite (original_origin_of (length t0)) by lia. cbn [mbind result_bind].
  match goal with |- mbind _ (foldM _ _ ?s) = _ => set (st := s) end.
  assert (Hst : length st = length t0).
  { subst st. rewrite length_app, length_fmap, length_seq, length_replicate. lia. }
  clearbody st. destruct (length t0) as [|m] eqn:E; [lia|]. cbn [seq foldM].
  rewrite (original_origin_of 0) by lia. cbn [mbind result_bind].
  rewrite lookup_ge_None_2; [reflexivity|]. lia.
Qed.

Lemma dynamics_long t0 :
  step_exact g f t0 = true ->
  (0 < n g < length t0)%nat -> dynamics g f t0 = Err KeyError.
Proof.
  intros He Hl.
  assert (Hreach : reach g t0 = n g) by (unfold reach; lia).
  assert (Hseq : seq 0 (n g) = 0%nat :: seq 1 (n g - 1)).
  { destruct (n g); [lia|]. cbn [seq]. rewrite Nat.sub_succ, Nat.sub_0_r. reflexivity. }
  assert (Hseq2 : seq 0 (length t0)
                  = seq 0 (n g) ++ n g :: seq (S (n g)) (length t0 - n g - 1)).
  { replace (length t0) with (n g + S (length t0 - n g - 1))%nat at 1 by lia.
    rewrite seq_app. reflexivity. }
  unfold dynamics. rewrite (step_exact_state t0 He), Hseq. cbn [foldM].
  rewrite (original_origin_of 0) by lia. cbn [mbind result_bind].
  rewrite Hseq2, foldM_app.
  rewrite inner_ok.
  - cbn [mbind result_bind foldM].
    rewrite (original_past_end g g_wf). reflexivity.
  - lia.
  - rewrite length_replicate. lia.
  - lia.
  - intros j Hj. apply step_exact_value; [exact He|lia..].
  - rewrite (nth_lookup_Some _ _ 0 0) by (apply lookup_replicate_2; lia).
    pose proof (step_exact_sum t0 0 He ltac:(lia)) as Hs.
    rewrite Hreach in Hs. cbn. lia.
Qed.

Lemma dynamics_empty : dynamics g f [] = Ok [].
Proof.
  unfold dynamics. cbn [length seq replicate forallb].
  assert (H : forall cnt a, (a + cnt <= n g)%nat ->
            foldM (fun i t => o_i ← original g i; foldM (inner [] i o_i) [] t)
                  (seq a cnt) [] = Ok []).
  { induction cnt as [|cnt IH]; intros a Ha; [reflexivity|].
    cbn [seq foldM]. rewrite (original_origin_of a) by lia.
    cbn [mbind result_bind foldM]. apply IH. lia. }
  apply H. lia.
Qed.

Lemma step_is_exact t0 :
  step_exact g f t0 = true -> length t0 = n g -> forallb is_exact (step g f t0) = true.
Proof.
  intros He Hl. apply forallb_forall. intros x Hx. apply list_elem_of_In in Hx.
  unfold step in Hx. apply list_elem_of_fmap in Hx as (i & -> & Hi).
  apply elem_of_seq in Hi.
  assert (Hreach : reach g t0 = length t0) by (unfold reach; lia).
  pose proof (step_exact_sum t0 i He ltac:(lia)) as Hs. rewrite Hreach in Hs.
  unfold is_exact, next_state. apply Z.leb_le.
  pose proof (zsum_abs (term t0 i) (seq 0 (length t0))). cbn beta in *. lia.
Qed.

End Dynamics.

Lemma derived_F o0 n0 g0 g :
  resolving o0 n0 g0 -> derived g0 g -> F g = F g0.
Proof.
  intros H0. induction 1 as [|g base g' Hd IH Hret|g base _ IH].
  - reflexivity.
  - destruct (resolving_derived o0 n0 g0 g H0 Hd) as (Hwf & _).
    rewrite <- IH. apply (result_F g base g' Hwf); [|exact Hret].
    eapply returned_valid; eassumption.
  - rewrite self_after_F. exact IH.
Qed.

(** X12. In a network constructed with a functional matrix and without an
    [origin], with default labels or labels without dots, and in every
    network that comes from it by calls of [specialize], one step of the
    dynamics on a state of length [n], as long as the arithmetic is exact
    (the state, every value a function gives and, for each node, the absolute
    values of its terms added up stay within [2^53]), returns a state of
    length [n]: the state of node [i] is the function at the original
    indices of [i] and [i] on its own state, plus, for every other node [j],
    the entry [A[i,j]] times the function at the original indices of [i] and
    [j] on the state of [j]. The diagonal of [A] is not read, and the
    original indices used are indices of the first network. *)
Theorem dynamics_next_state (A0 : spmatrix) (labels0 : labels_arg) (f : fmatrix)
    (g0 g : Graph) (t0 : list Z) :
  Graph_init A0 labels0 (Some f) None = Ok g0 ->
  (forall l, labels0 = LList l -> Forall dot_free l) ->
  derived g0 g -> length t0 = n g -> step_exact g f t0 = true ->
  F g = Some f
  /\ dynamics g f t0 = Ok (step g f t0)
  /\ length (step g f t0) = n g
  /\ (forall i, (i < n g)%nat ->
        step g f t0 !! i
        = Some (f (origin_of g i) (origin_of g i) (nth i t0 0)
                + zsum ((fun j => if (i =? j)%nat then 0
                                  else entry (A g) i j
                                       * f (origin_of g i) (origin_of g j) (nth j t0 0))
                          <$> seq 0 (n g))))
  /\ (forall i, (i < n g)%nat -> original g i = Ok (origin_of g i)
                                 /\ (origin_of g i < n g0)%nat).
Proof.
  intros Hinit Hdf Hd Hl He.
  pose proof (resolving_init A0 labels0 (Some f) g0 Hinit Hdf) as H0.
  pose proof (resolving_derived _ _ g0 g H0 Hd) as (Hwf & Ho & Hres).
  rewrite <- Ho in Hres.
  split.
  { rewrite (derived_F _ _ g0 g H0 Hd).
    destruct (Graph_init_ok _ _ _ _ _ Hinit) as (_ & l & _ & -> & _). reflexivity. }
  split; [apply (dynamics_fits g f (n g0) Hwf Hres t0 He Hl)|].
  split; [unfold step; rewrite length_fmap, length_seq; reflexivity|].
  split.
  - intros i Hi. unfold step. rewrite list_lookup_fmap, lookup_seq_lt by exact Hi.
    cbn [fmap option_fmap option_map Nat.add]. f_equal.
    unfold next_state. rewrite Hl.
    pose proof (zsum_indicator
                  (fun j => f (origin_of g i) (origin_of g j) (nth j t0 0)) i 0 (n g))
      as Hind.
    rewrite decide_True in Hind by lia. rewrite <- Hind, <- zsum_add.
    apply zsum_ext. intros j _. unfold coupling. destruct (i =? j)%nat; lia.
  - intros i Hi.
    destruct (original_resolves g (n g0) i Hwf Hres Hi) as (s & o & _ & _ & E & Hlt).
    unfold origin_of. rewrite E. auto.
Qed.

Lemma pair21f_init :
  Graph_init (of_rows 2 2 [[0;1]; [2;0]]) (LList [VStr "0"; VStr "1"])
    (Some double_plus) None = Ok pair21f.
Proof. reflexivity. Qed.

Lemma pair21f_dot_free l :
  LList [VStr "0"; VStr "1"] = LList l -> Forall dot_free l.
Proof. intros [= <-]. repeat constructor; eexists; split; reflexivity. Qed.

Lemma dynamics_next_state_witness :
  Graph_init (of_rows 2 2 [[0;1]; [2;0]]) (LList [VStr "0"; VStr "1"])
    (Some double_plus) None = Ok pair21f
  /\ derived pair21f (result_of pair21f [VInt 0])
  /\ length [1; 0; 3] = n (result_of pair21f [VInt 0])
  /\ step_exact (result_of pair21f [VInt 0]) double_plus [1; 0; 3] = true
  /\ dynamics (result_of pair21f [VInt 0]) double_plus [1; 0; 3]
     = Ok (step (result_of pair21f [VInt 0]) double_plus [1; 0; 3]).
Proof.
  assert (Hd : derived pair21f (result_of pair21f [VInt 0])).
  { apply (derived_returned pair21f pair21f [VInt 0]); [apply derived_init|reflexivity]. }
  split; [exact pair21f_init|]. split; [exact Hd|]. split; [reflexivity|].
  split; [reflexivity|].
  exact (proj1 (proj2 (dynamics_next_state _ _ double_plus pair21f _ [1; 0; 3]
                         pair21f_init pair21f_dot_free Hd eq_refl eq_refl))).
Defined.

(** X13. In a network constructed with a functional matrix and without an
    [origin], with default labels or labels without dots, and in every
    network that comes from it by calls of [specialize], one step of the
    dynamics on an empty state returns the empty state, however many nodes
    there are. On a state on which the arithmetic is exact (the state, the
    values the functions give and, for each node, the absolute values of
    its terms added up stay within [2^53], for the nodes below both [n] and
    the length of the state) it returns exactly when the state has length
    [n] or is empty, or the network has no node; on a state shorter than
    [n] it raises [IndexError], and on one longer than [n] it raises
    [KeyError]. *)
Theorem dynamics_dimension (A0 : spmatrix) (labels0 : labels_arg) (f : fmatrix)
    (g0 g : Graph) (t0 : list Z) :
  Graph_init A0 labels0 (Some f) None = Ok g0 ->
  (forall l, labels0 = LList l -> Forall dot_free l) ->
  derived g0 g ->
  (t0 = [] -> dynamics g f t0 = Ok [])
  /\ (step_exact g f t0 = true ->
      ((0 < length t0 < n g)%nat -> dynamics g f t0 = Err IndexError)
      /\ ((0 < n g < length t0)%nat -> dynamics g f t0 = Err KeyError)
      /\ (n g = 0%nat -> dynamics g f t0 = Ok (replicate (length t0) 0))
      /\ (is_ok (dynamics g f t0) = true
          <-> length t0 = n g \/ t0 = [] \/ n g = 0%nat)).
Proof.
  intros Hinit Hdf Hd.
  pose proof (resolving_init A0 labels0 (Some f) g0 Hinit Hdf) as H0.
  pose proof (resolving_derived _ _ g0 g H0 Hd) as (Hwf & Ho & Hres).
  rewrite <- Ho in Hres.
  assert (H1 : t0 = [] -> dynamics g f t0 = Ok []).
  { intros ->. apply (dynamics_empty g f (n g0) Hwf Hres). }
  split; [exact H1|]. intros He.
  assert (H2 : (0 < length t0 < n g)%nat -> dynamics g f t0 = Err IndexError).
  { apply (dynamics_short g f (n g0) Hwf Hres), He. }
  assert (H3 : (0 < n g < length t0)%nat -> dynamics g f t0 = Err KeyError).
  { apply (dynamics_long g f (n g0) Hwf Hres), He. }
  assert (H4 : n g = 0%nat -> dynamics g f t0 = Ok (replicate (length t0) 0)).
  { intros E. unfold dynamics. rewrite (step_exact_state g f t0 He), E. reflexivity. }
  repeat (split; [assumption|]). split.
  - intros Hok.
    destruct (decide (length t0 = n g)) as [|Hne]; [auto|].
    destruct (decide (n g = 0%nat)) as [|Hn]; [auto|].
    destruct t0 as [|x t0']; [auto|]. exfalso.
    destruct (Nat.lt_ge_cases (length (x :: t0')) (n g)).
    + rewrite H2 in Hok by (cbn [length] in *; lia). discriminate.
    + rewrite H3 in Hok by lia. discriminate.
  - intros [Hl|[->|Hn]].
    + rewrite (dynamics_fits g f (n g0) Hwf Hres t0 He Hl). reflexivity.
    + rewrite H1 by reflexivity. reflexivity.
    + rewrite H4 by exact Hn. reflexivity.
Qed.

Lemma dynamics_dimension_witness :
  Graph_init (of_rows 2 2 [[0;1]; [2;0]]) (LList [VStr "0"; VStr "1"])
    (Some double_plus) None = Ok pair21f
  /\ derived pair21f pair21f
  /\ step_exact pair21f double_plus [5] = true
  /\ (0 < length [5] < n pair21f)%nat
  /\ dynamics pair21f double_plus [5] = Err IndexError.
Proof.
  assert (Hl : (0 < length [5] < n pair21f)%nat) by (cbn; lia).
  split; [exact pair21f_init|]. split; [apply derived_init|]. split; [reflexivity|].
  split; [exact Hl|].
  exact (proj1 (proj2 (dynamics_dimension _ _ double_plus pair21f pair21f [5]
                         pair21f_init pair21f_dot_free (derived_init _)) eq_refl) Hl).
Defined.

(** ** Trajectories *)

(** A row as [t[i] = row] stores it: a row of length one is broadcast, and
    the values stored are in the exact range. *)
Lemma set_row_inv t w i row t' :
  set_row t w i row = Ok t' ->
  (i < length t)%nat /\ exists row', t' = <[i := row']> t /\ stored w row row'.
Proof.
  unfold set_row. destruct (Nat.ltb_spec i (length t)) as [Hi|]; [|discriminate].
  destruct (Nat.eqb_spec (length row) w) as [Hl|Hl]; cbn [mbind result_bind].
  - destruct (forallb is_exact row) eqn:He; [|discriminate]. intros [= <-].
    split; [exact Hi|]. exists row. repeat split; auto.
  - destruct row as [|x [|y row]]; try discriminate. cbn [mbind result_bind].
    destruct (forallb is_exact (replicate w x)) eqn:He; [|discriminate]. intros [= <-].
    split; [exact Hi|]. exists (replicate w x). split; [reflexivity|].
    split; [apply length_replicate|]. split; [exact He|]. right. eauto.
Qed.

Section Run.

Variables (stp : list Z -> result (list Z)) (nxt : list Z -> list Z) (w k : nat).
Variable x0 : list Z.

(** The state after [t] steps. *)
Local Abbreviation state t := (Nat.iter t nxt x0).

Hypothesis stp_ok : forall t, (S t < k)%nat -> stp (state t) = Ok (state (S t)).
Hypothesis state_len : forall t, (t < k)%nat -> length (state t) = w.
Hypothesis state_exact : forall t, (t < k)%nat -> forallb is_exact (state t) = true.

Lemma run_iter cnt : forall i t,
  (1 <= i)%nat -> (i + cnt <= k)%nat -> length t = k ->
  (forall j, (j < i)%nat -> t !! j = Some (state j)) ->
  exists t', foldM (fun i t =>
                      prev ← match t !! (i - 1)%nat with
                             | Some r => Ok r
                             | None => Err IndexError
                             end;
                      next ← stp prev;
                      set_row t w i next) (seq i cnt) t = Ok t'
             /\ length t' = k
             /\ forall j, (j < i + cnt)%nat -> t' !! j = Some (state j).
Proof.
  induction cnt as [|cnt IH]; intros i t Hi Hk Hlen Hrows.
  - exists t. split; [reflexivity|]. split; [exact Hlen|].
    intros j Hj. apply Hrows. lia.
  - cbn [seq foldM]. rewrite (Hrows (i - 1)%nat) by lia. cbn [mbind result_bind].
    rewrite stp_ok by lia. cbn [mbind result_bind].
    replace (S (i - 1)) with i by lia.
    rewrite set_row_ok; [|lia|apply state_len; lia|apply state_exact; lia].
    destruct (IH (S i) (<[i := state i]> t)) as (t' & Hrun & Hlen' & Hrows').
    + lia.
    + lia.
    + rewrite length_insert. exact Hlen.
    + intros j Hj. destruct (decide (j = i)) as [->|Hne].
      * apply list_lookup_insert_eq. lia.
      * rewrite list_lookup_insert_ne by lia. apply Hrows. lia.
    + exists t'. split; [exact Hrun|]. split; [exact Hlen'|].
      intros j Hj. apply Hrows'. lia.
Qed.

End Run.

(** X14. In a network constructed with a functional matrix and without an
    [origin], with default labels or labels without dots, and in every
    network that comes from it by calls of [specialize], [iterate] with a
    positive number of steps [k] and an initial state of length [n], as long
    as the arithmetic is exact on the initial state and on every state from
    which a step is taken, returns a trajectory of [k] rows of length [n]:
    row 0 is the initial state, and every further row is one step of the
    dynamics after the row before. *)
Theorem iterate_nonlinear (A0 : spmatrix) (labels0 : labels_arg) (f : fmatrix)
    (g0 g : Graph) (k : nat) (x0 : list Z) :
  Graph_init A0 labels0 (Some f) None = Ok g0 ->
  (forall l, labels0 = LList l -> Forall dot_free l) ->
  derived g0 g -> length x0 = n g -> (0 < k)%nat -> traj_exact g f x0 k = true ->
  exists traj,
    iterate g k x0 = Ok traj /\ length traj = k
    /\ Forall (fun row => length row = n g) traj
    /\ traj !! 0%nat = Some x0
    /\ (forall t row, (S t < k)%nat -> traj !! t = Some row ->
          traj !! S t = Some (step g f row) /\ dynamics g f row = Ok (step g f row))
    /\ forall t, (t < k)%nat -> traj !! t = Some (Nat.iter t (step g f) x0).
Proof.
  intros Hinit Hdf Hd Hx Hk He.
  pose proof (resolving_init A0 labels0 (Some f) g0 Hinit Hdf) as H0.
  pose proof (resolving_derived _ _ g0 g H0 Hd) as (Hwf & Ho & Hres).
  rewrite <- Ho in Hres.
  assert (HF : F g = Some f).
  { rewrite (derived_F _ _ g0 g H0 Hd).
    destruct (Graph_init_ok _ _ _ _ _ Hinit) as (_ & l & _ & -> & _). reflexivity. }
  unfold traj_exact in He. apply andb_true_iff in He as [Hx0 He].
  rewrite forallb_forall in He.
  assert (Hse : forall t, (S t < k)%nat -> step_exact g f (Nat.iter t (step g f) x0) = true).
  { intros t Ht. apply He, list_elem_of_In, elem_of_seq. lia. }
  assert (Hlen : forall t, length (Nat.iter t (step g f) x0) = n g).
  { intros [|t]; [exact Hx|]. cbn [Nat.iter].
    apply (eq_trans (length_fmap _ _)), length_seq. }
  assert (Hstp : forall t, (S t < k)%nat ->
            dynamics g f (Nat.iter t (step g f) x0) = Ok (Nat.iter (S t) (step g f) x0)).
  { intros t Ht. apply (dynamics_fits g f (n g0) Hwf Hres); [apply Hse, Ht|apply Hlen]. }
  assert (Hex : forall t, (t < k)%nat ->
            forallb is_exact (Nat.iter t (step g f) x0) = true).
  { intros [|t] Ht; [exact Hx0|]. cbn [Nat.iter].
    apply (step_is_exact g f); [apply Hse, Ht|apply Hlen]. }
  unfold iterate. rewrite HF.
  rewrite set_row_ok; [|rewrite length_replicate; exact Hk|exact Hx|exact Hx0].
  cbn [mbind result_bind]. unfold run.
  destruct (run_iter (dynamics g f) (step g f) (n g) k x0 Hstp (fun t _ => Hlen t) Hex
              (k - 1) 1 (<[0%nat := x0]> (replicate k (replicate (n g) 0))))
    as (traj & Hrun & Hlen' & Hrows).
  - lia.
  - lia.
  - rewrite length_insert, length_replicate. reflexivity.
  - intros j Hj. replace j with 0%nat by lia.
    apply list_lookup_insert_eq. rewrite length_replicate. exact Hk.
  - replace (1 + (k - 1))%nat with k in Hrows by lia.
    exists traj. split; [exact Hrun|]. split; [exact Hlen'|]. split.
    { apply Forall_lookup. intros t row Ht.
      assert (t < k)%nat by (rewrite <- Hlen'; eapply lookup_lt_Some; eassumption).
      rewrite (Hrows t) in Ht by assumption. injection Ht as <-. apply Hlen. }
    split; [apply (Hrows 0%nat); lia|]. split; [|exact Hrows].
    intros t row Ht Hrow. rewrite (Hrows t) in Hrow by lia. injection Hrow as <-.
    split; [apply (Hrows (S t)); lia|]. apply Hstp, Ht.
Qed.

Lemma iterate_nonlinear_witness :
  Graph_init (of_rows 2 2 [[0;1]; [2;0]]) (LList [VStr "0"; VStr "1"])
    (Some double_plus) None = Ok pair21f
  /\ derived pair21f pair21f /\ length [1; 0] = n pair21f /\ (0 < 3)%nat
  /\ traj_exact pair21f double_plus [1; 0] 3 = true
  /\ exists traj, iterate pair21f 3 [1; 0] = Ok traj /\ length traj = 3%nat.
Proof.
  assert (Hk : (0 < 3)%nat) by (repeat constructor).
  split; [exact pair21f_init|]. split; [apply derived_init|].
  split; [reflexivity|]. split; [exact Hk|]. split; [reflexivity|].
  destruct (iterate_nonlinear _ _ double_plus pair21f pair21f 3 [1; 0]
              pair21f_init pair21f_dot_free (derived_init _) eq_refl Hk eq_refl)
    as (traj & H1 & H2 & _).
  exists traj. split; assumption.
Defined.

(** ** Errors of [iterate] and trajectories continued *)

(** X15. Whatever the network, [iterate] with no step raises [IndexError];
    with a positive number of steps and an initial condition whose length is
    neither [n] nor one it raises [ValueError]; and an initial condition of
    length one stands for the constant state of length [n]. *)
Theorem iterate_initial_condition (g : Graph) (k : nat) (x0 : list Z) :
  iterate g 0 x0 = Err IndexError
  /\ ((0 < k)%nat -> length x0 <> n g -> length x0 <> 1%nat ->
      iterate g k x0 = Err ValueError)
  /\ (forall x, iterate g k [x] = iterate g k (replicate (n g) x)).
Proof.
  split; [|split].
  - unfold iterate, _linear_dynamics. destruct (F g); reflexivity.
  - intros Hk Hn H1.
    assert (E : set_row (replicate k (replicate (n g) 0)) (n g) 0 x0 = Err ValueError).
    { unfold set_row. rewrite length_replicate.
      destruct (Nat.ltb_spec 0 k); [|lia].
      destruct (Nat.eqb_spec (length x0) (n g)); [lia|].
      destruct x0 as [|x [|y x0]]; [reflexivity|cbn in H1; lia|reflexivity]. }
    unfold iterate, _linear_dynamics. rewrite E. destruct (F g); reflexivity.
  - intros x.
    assert (E : set_row (replicate k (replicate (n g) 0)) (n g) 0 [x]
                = set_row (replicate k (replicate (n g) 0)) (n g) 0 (replicate (n g) x)).
    { unfold set_row. rewrite !length_replicate, Nat.eqb_refl.
      destruct (0 <? k)%nat; [|reflexivity].
      destruct (Nat.eqb_spec (length [x]) (n g)) as [El|]; [|reflexivity].
      rewrite <- El. reflexivity. }
    unfold iterate, _linear_dynamics. rewrite E. reflexivity.
Qed.

Lemma iterate_initial_condition_witness :
  (0 < 2)%nat /\ iterate pair21 2 [1; 2; 3] = Err ValueError.
Proof.
  assert (Hk : (0 < 2)%nat) by (repeat constructor).
  split; [exact Hk|].
  refine (proj1 (proj2 (iterate_initial_condition pair21 2 [1; 2; 3])) Hk _ _);
    discriminate.
Defined.

Lemma iterate_run g k x0 :
  iterate g k x0
  = (t ← set_row (replicate k (replicate (n g) 0)) (n g) 0 x0;
     run (step_of g) (n g) k t).
Proof. unfold iterate, _linear_dynamics, step_of. destruct (F g); reflexivity. Qed.

Lemma set_row_stored t w i next row :
  (i < length t)%nat -> stored w next row -> set_row t w i next = Ok (<[i := row]> t).
Proof.
  intros Hi (Hl & He & [->|(x & -> & ->)]); [apply set_row_ok; assumption|].
  unfold set_row. destruct (Nat.ltb_spec i (length t)); [|lia].
  destruct (Nat.eqb_spec (length [x]) w) as [E|]; cbn [mbind result_bind].
  - rewrite <- E in He |- *. cbn [replicate length] in He |- *. rewrite He. reflexivity.
  - rewrite He. reflexivity.
Qed.

Section Trajectory.

Variables (stp : list Z -> result (list Z)) (w : nat).

Local Abbreviation body :=
  (fun i t =>
     prev ← match t !! (i - 1)%nat with
            | Some r => Ok r
            | None => Err IndexError
            end;
     next ← stp prev;
     set_row t w i next).

(** Row [j] of [T] is what a step from row [j - 1] stores. *)
Local Abbreviation follows T j :=
  (exists prev next row,
     T !! (j - 1)%nat = Some prev /\ stp prev = Ok next
     /\ T !! j%nat = Some row /\ stored w next row).

Lemma run_inv cnt : forall i t t',
  (1 <= i)%nat -> foldM body (seq i cnt) t = Ok t' ->
  length t' = length t
  /\ (forall j, (j < i)%nat \/ (i + cnt <= j)%nat -> t' !! j = t !! j)
  /\ (forall j, (i <= j < i + cnt)%nat -> follows t' j).
Proof.
  induction cnt as [|cnt IH]; intros i t t' Hi Hrun.
  - injection Hrun as <-. split; [reflexivity|]. split; [reflexivity|]. intros j Hj. lia.
  - cbn [seq foldM] in Hrun.
    destruct (t !! (i - 1)%nat) as [prev|] eqn:Hprev; [|discriminate].
    cbn [mbind result_bind] in Hrun.
    destruct (stp prev) as [next|e] eqn:Hnext; [|discriminate].
    cbn [mbind result_bind] in Hrun.
    destruct (set_row t w i next) as [t1|e] eqn:Hset; [|discriminate].
    cbn [mbind result_bind] in Hrun.
    destruct (set_row_inv _ _ _ _ _ Hset) as (Hlt & row & -> & Hst).
    destruct (IH (S i) _ t' ltac:(lia) Hrun) as (Hl & Hsame & Hfol).
    rewrite length_insert in Hl. split; [exact Hl|]. split.
    + intros j Hj. rewrite Hsame by lia. apply list_lookup_insert_ne. lia.
    + intros j Hj. destruct (decide (j = i)) as [->|Hne]; [|apply Hfol; lia].
      exists prev, next, row.
      rewrite !Hsame by lia. rewrite list_lookup_insert_ne by lia.
      rewrite list_lookup_insert_eq by exact Hlt. auto.
Qed.

Lemma run_complete (T : list (list Z)) cnt : forall i t,
  (1 <= i)%nat -> (i + cnt <= length t)%nat ->
  (forall j, (j < i)%nat -> t !! j = T !! j) ->
  (forall j, (i <= j < i + cnt)%nat -> follows T j) ->
  exists t', foldM body (seq i cnt) t = Ok t' /\ length t' = length t
             /\ forall j, (j < i + cnt)%nat -> t' !! j = T !! j.
Proof.
  induction cnt as [|cnt IH]; intros i t Hi Hlen Hlow Hfol.
  - exists t. split; [reflexivity|]. split; [reflexivity|]. intros j Hj. apply Hlow. lia.
  - destruct (Hfol i ltac:(lia)) as (prev & next & row & Hprev & Hnext & Hrow & Hst).
    cbn [seq foldM]. rewrite Hlow, Hprev by lia. cbn [mbind result_bind].
    rewrite Hnext. cbn [mbind result_bind].
    rewrite (set_row_stored t w i next row) by (lia || exact Hst).
    cbn [mbind result_bind].
    destruct (IH (S i) (<[i := row]> t)) as (t' & Hrun & Hl & Hrows).
    + lia.
    + rewrite length_insert. lia.
    + intros j Hj. destruct (decide (j = i)) as [->|Hne].
      * rewrite list_lookup_insert_eq by lia. symmetry. exact Hrow.
      * rewrite list_lookup_insert_ne by lia. apply Hlow. lia.
    + intros j Hj. apply Hfol. lia.
    + exists t'. split; [exact Hrun|]. rewrite length_insert in Hl. split; [exact Hl|].
      intros j Hj. apply Hrows. lia.
Qed.

Lemma run_restart k x0 traj s x :
  (t ← set_row (replicate k (replicate w 0)) w 0 x0; foldM body (seq 1 (k - 1)) t) = Ok traj ->
  traj !! s = Some x ->
  (t ← set_row (replicate (k - s) (replicate w 0)) w 0 x; foldM body (seq 1 (k - s - 1)) t)
  = Ok (drop s traj).
Proof.
  intros Hrun Hs.
  destruct (set_row (replicate k (replicate w 0)) w 0 x0) as [t1|e] eqn:Hset; [|discriminate].
  cbn [mbind result_bind] in Hrun.
  destruct (set_row_inv _ _ _ _ _ Hset) as (Hk & row0 & -> & Hlen0 & Hex0 & _).
  rewrite length_replicate in Hk.
  destruct (run_inv (k - 1) 1 _ _ (le_n 1) Hrun) as (Hl & Hsame & Hfol).
  rewrite length_insert, length_replicate in Hl.
  assert (Hsk : (s < k)%nat) by (rewrite <- Hl; eapply lookup_lt_Some; eassumption).
  assert (Hx : length x = w /\ forallb is_exact x = true).
  { destruct (decide (s = 0%nat)) as [->|Hne].
    - rewrite Hsame in Hs by lia. rewrite list_lookup_insert_eq in Hs
        by (rewrite length_replicate; lia). injection Hs as <-. auto.
    - destruct (Hfol s ltac:(lia)) as (_ & _ & row & _ & _ & Hrow & Hst & Hst' & _).
      rewrite Hs in Hrow. injection Hrow as <-. auto. }
  destruct Hx as [Hx Hxe].
  rewrite set_row_ok; [|rewrite length_replicate; lia|exact Hx|exact Hxe].
  cbn [mbind result_bind].
  destruct (run_complete (drop s traj) (k - s - 1) 1
              (<[0%nat := x]> (replicate (k - s) (replicate w 0))))
    as (t' & Hrun' & Hl' & Hrows).
  - lia.
  - rewrite length_insert, length_replicate. lia.
  - intros j Hj. replace j with 0%nat by lia.
    rewrite list_lookup_insert_eq by (rewrite length_replicate; lia).
    rewrite lookup_drop, Nat.add_0_r. symmetry. exact Hs.
  - intros j Hj. destruct (Hfol (s + j)%nat ltac:(lia))
      as (prev & next & row & Hprev & Hnext & Hrow & Hst).
    exists prev, next, row. rewrite !lookup_drop.
    replace (s + (j - 1))%nat with (s + j - 1)%nat by lia. auto.
  - rewrite Hrun'. f_equal. rewrite length_insert, length_replicate in Hl'.
    apply list_eq. intros j. destruct (Nat.lt_ge_cases j (k - s)) as [Hj|Hj].
    + apply Hrows. lia.
    + rewrite !lookup_ge_None_2; [reflexivity| |]; rewrite ?length_drop; lia.
Qed.

End Trajectory.

(** X16. A trajectory can be taken up at any of its states: when
    [iterate] returns a trajectory of [k] rows from some initial condition,
    [iterate] with [k - s] steps from its row [s] returns its rows from [s]
    on. This holds with and without a functional matrix. *)
Theorem iterate_restart (g : Graph) (k s : nat) (x0 x : list Z)
    (traj : list (list Z)) :
  iterate g k x0 = Ok traj -> traj !! s = Some x ->
  length traj = k /\ length x = n g
  /\ iterate g (k - s) x = Ok (drop s traj).
Proof.
  intros Hrun Hs. rewrite iterate_run in Hrun. unfold run in Hrun.
  pose proof (run_restart (step_of g) (n g) k x0 traj s x Hrun Hs) as Hre.
  split; [|split].
  - destruct (set_row _ _ _ x0) as [t1|e] eqn:Hset; [|discriminate].
    cbn [mbind result_bind] in Hrun.
    destruct (set_row_inv _ _ _ _ _ Hset) as (Hk & row0 & -> & _).
    rewrite length_replicate in Hk.
    destruct (run_inv (step_of g) (n g) (k - 1) 1 _ _ (le_n 1) Hrun) as (Hl & _).
    rewrite Hl, length_insert, length_replicate. reflexivity.
  - destruct (set_row _ _ _ x) as [t1|e] eqn:Hset; [|discriminate].
    destruct (set_row_inv _ _ _ _ _ Hset) as (Hk & row0 & -> & Hlen & _).
    cbn [mbind result_bind] in Hre.
    destruct (run_inv (step_of g) (n g) (k - s - 1) 1 _ _ (le_n 1) Hre) as (_ & Hsame & _).
    specialize (Hsame 0%nat ltac:(lia)).
    rewrite lookup_drop, Nat.add_0_r, Hs, list_lookup_insert_eq in Hsame
      by (rewrite length_replicate in Hk; rewrite length_replicate; exact Hk).
    injection Hsame as ->. exact Hlen.
  - rewrite iterate_run. exact Hre.
Qed.

Lemma iterate_restart_witness :
  iterate pair21 3 [1; 0] = Ok [[1; 0]; [0; 2]; [2; 0]]
  /\ [[1; 0]; [0; 2]; [2; 0]] !! 1%nat = Some [0; 2]
  /\ iterate pair21 (3 - 1) [0; 2] = Ok (drop 1 [[1; 0]; [0; 2]; [2; 0]]).
Proof.
  split; [reflexivity|]. split; [reflexivity|].
  exact (proj2 (proj2 (iterate_restart pair21 3 1 [1; 0] [0; 2] _ eq_refl eq_refl))).
Defined.

(** ** Labels stay names of the nodes *)

Lemma append_cons x a b : (String x a ++ b)%string = String x (a ++ b).
Proof. reflexivity. Qed.

Lemma append_nil b : ("" ++ b)%string = b.
Proof. reflexivity. Qed.

Lemma str_find_dot_app b w : str_find "." (b ++ "." ++ w) <> -1.
Proof.
  induction b as [|a b IH]; rewrite ?append_cons, ?append_nil; cbn [str_find].
  - change (Ascii.eqb "." ".") with true. cbn iota. lia.
  - destruct (Ascii.eqb a "."); [lia|].
    match goal with
    | |- context [str_find "." ?s =? -1] =>
        pose proof (str_find_ge "." s);
        destruct (Z.eqb_spec (str_find "." s) (-1)) as [E|E]; [|lia]
    end.
    exfalso. apply IH. exact E.
Qed.

(** Two ways to split a string at a dot, the part after the dot having none
    in one of them. *)
Lemma dot_split k : str_find "." k = -1 -> forall b r w,
  (r ++ "." ++ k)%string = (b ++ "." ++ w)%string ->
  (r = b /\ k = w) \/ exists w', r = (b ++ "." ++ w')%string.
Proof.
  intros Hk. induction b as [|c b IH]; intros r w E.
  - destruct r as [|c' r]; rewrite ?append_cons, ?append_nil in E.
    + left. injection E as E. auto.
    + right. injection E as -> E. exists r. reflexivity.
  - destruct r as [|c' r]; rewrite ?append_cons, ?append_nil in E.
    + exfalso. injection E as <- E. rewrite E in Hk. exact (str_find_dot_app b w Hk).
    + injection E as -> E. destruct (IH r w E) as [[-> ->]|[w' ->]]; [left|right]; eauto.
Qed.

Lemma str_append_assoc (a b c : string) :
  ((a ++ b) ++ c)%string = (a ++ (b ++ c))%string.
Proof.
  induction a as [|x a IH]; [reflexivity|]. rewrite !append_cons. f_equal. exact IH.
Qed.

Lemma wf_labeler_lookup g i v :
  wf g -> dict_get (labeler g) (as_int i) = Ok v <-> (i < n g)%nat /\ labels g !! i = Some v.
Proof.
  intros Hwf. pose proof (wf_labels g Hwf) as Hl. split.
  - intros H. destruct (decide (i < n g)%nat) as [Hi|Hi].
    + rewrite (dict_get_wf g i Hwf Hi) in H. injection H as <-. split; [exact Hi|].
      destruct (nth_lookup_or_length (labels g) i VNone); [assumption|lia].
    + rewrite (dict_get_unknown g (as_int i) Hwf) in H; [discriminate|].
      unfold known_index, as_int.
      destruct (Z.ltb_spec (Z.of_nat i) (Z.of_nat (n g))); [lia|]. apply andb_false_r.
  - intros [Hi Hv]. rewrite (dict_get_wf g i Hwf Hi). f_equal. apply nth_lookup_Some, Hv.
Qed.

Lemma wf_indexer_lookup g v i :
  wf g -> NoDup (labels g) ->
  indexer g !! v = Some i <-> (i < n g)%nat /\ labels g !! i = Some v.
Proof.
  intros Hwf Hnd. rewrite (wf_indexer g Hwf), map_of_list_last. split.
  - intros (k & Hk & _). apply lookup_zip_seq_r in Hk as (Hk & -> & Hlt). auto.
  - intros (Hi & Hv). exists i. split; [apply lookup_zip_seq_r; auto|].
    intros j w Hj Hjw. apply lookup_zip_seq_r in Hjw as (Hjw & _).
    pose proof (NoDup_lookup _ _ _ _ Hnd Hv Hjw). lia.
Qed.

Section DistinctLabels.

Variables (g : Graph) (base : list pyval).
Hypothesis Hwf : wf g.
Hypothesis Hv : valid_base g base = true.
Hypothesis Hd : distinct_labels (labels g).
Hypothesis Hnd : NoDup (base_indices g base).

Local Abbreviation bs := (base_indices g base).
Local Abbreviation rest := (rest_of g bs).
Local Abbreviation bl := (length bs).
Local Abbreviation sl := (length rest).
Local Abbreviation g1 := (rearranged g (node_order g bs)).
Local Abbreviation label_of := (fun x => nth x (labels g) VNone).

Lemma label_of_lookup x : (x < n g)%nat -> labels g !! x = Some (label_of x).
Proof.
  intros Hx. pose proof (wf_labels g Hwf).
  destruct (nth_lookup_or_length (labels g) x VNone); [assumption|lia].
Qed.

Lemma label_of_in x : (x < n g)%nat -> label_of x ∈ labels g.
Proof. intros Hx. eapply list_elem_of_lookup_2, label_of_lookup, Hx. Qed.

Lemma label_of_inj x y :
  (x < n g)%nat -> (y < n g)%nat -> label_of x = label_of y -> x = y.
Proof.
  intros Hx Hy E. apply (NoDup_lookup (labels g) x y (label_of x) (proj1 Hd)).
  - apply label_of_lookup, Hx.
  - rewrite E. apply label_of_lookup, Hy.
Qed.

(** Labels of the input followed by a dot and more meet only when they are
    the same label followed by the same. *)
Lemma suffixed_inj x y sx sy k w :
  (x < n g)%nat -> (y < n g)%nat -> label_of x = VStr sx -> label_of y = VStr sy ->
  str_find "." k = -1 ->
  (sx ++ "." ++ k)%string = (sy ++ "." ++ w)%string -> x = y /\ k = w.
Proof.
  intros Hx Hy Ex Ey Hk E. destruct (dot_split k Hk sy sx w E) as [[-> ->]|[w' ->]].
  - split; [|reflexivity]. apply label_of_inj; congruence.
  - exfalso.
    apply (proj2 Hd (label_of x) (label_of y) (label_of_in x Hx) (label_of_in y Hy)).
    exists sy, w'. auto.
Qed.

Lemma rest_NoDup : NoDup rest.
Proof. apply NoDup_filter, NoDup_seq. Qed.

Lemma order_NoDup : NoDup (node_order g bs).
Proof.
  apply NoDup_app. split; [exact Hnd|]. split; [|apply rest_NoDup].
  intros x Hx Hin. apply list_elem_of_filter in Hin as [Hnot _]. contradiction.
Qed.

Lemma order_lt x : x ∈ node_order g bs -> (x < n g)%nat.
Proof.
  pose proof (node_order_lt g bs (bs_lt g base Hwf Hv)) as H.
  rewrite Forall_forall in H. apply H.
Qed.

Lemma rearranged_distinct : distinct_labels (labels g1).
Proof.
  cbn [rearranged labels]. split.
  - apply NoDup_fmap_2_strong; [|apply order_NoDup].
    intros x y Hx Hy. apply label_of_inj; apply order_lt; assumption.
  - intros u v Hu Hv'. apply list_elem_of_fmap in Hu as (x & -> & Hx).
    apply list_elem_of_fmap in Hv' as (y & -> & Hy).
    apply (proj2 Hd); apply label_of_in, order_lt; assumption.
Qed.

Lemma base_labels : take bl (labels g1) = label_of <$> bs.
Proof.
  cbn [rearranged labels]. unfold node_order. rewrite <- fmap_take, take_app_length.
  reflexivity.
Qed.

Lemma copy_label_g1 c j :
  (j < sl)%nat ->
  exists r s, r ∈ rest /\ rest !! j = Some r /\ (r < n g)%nat /\ label_of r = VStr s
              /\ copy_label (labels g1) bl c j = VStr (s ++ "." ++ str_of_nat (c + 1)).
Proof.
  intros Hj. destruct (lookup_lt_is_Some_2 rest j Hj) as [r Hr].
  assert (Hin : r ∈ rest) by (eapply list_elem_of_lookup_2, Hr).
  assert (Hlt : (r < n g)%nat).
  { pose proof (rest_of_lt g bs) as H. rewrite Forall_forall in H. apply H, Hin. }
  destruct (wf_label_str g r Hwf Hlt) as [s Hs].
  exists r, s. repeat (split; [assumption|]).
  unfold copy_label. cbn [rearranged labels].
  rewrite (nth_lookup_Some _ (bl + j) VNone (label_of r)).
  - cbn beta. rewrite Hs. reflexivity.
  - rewrite list_lookup_fmap. unfold node_order. rewrite lookup_app_r by lia.
    replace (bl + j - bl)%nat with j by lia. rewrite Hr. reflexivity.
Qed.

Lemma copy_labels_elem k v :
  v ∈ (i ← seq 0 k; copy_label (labels g1) bl i <$> seq 0 sl) ->
  exists c r s, r ∈ rest /\ (r < n g)%nat /\ label_of r = VStr s
                /\ v = VStr (s ++ "." ++ str_of_nat (c + 1)).
Proof.
  intros Hin. apply list_elem_of_bind in Hin as (c & Hin & _).
  apply list_elem_of_fmap in Hin as (j & -> & Hj). apply elem_of_seq in Hj.
  destruct (copy_label_g1 c j ltac:(lia)) as (r & s & Hr & _ & Hlt & Hs & E).
  exists c, r, s. auto.
Qed.

Lemma base_labels_elem v :
  v ∈ label_of <$> bs -> exists b, b ∈ bs /\ (b < n g)%nat /\ v = label_of b.
Proof.
  intros Hin. apply list_elem_of_fmap in Hin as (b & -> & Hb). exists b.
  split; [exact Hb|]. split; [|reflexivity].
  pose proof (bs_lt g base Hwf Hv) as H. rewrite Forall_forall in H. apply H, Hb.
Qed.

Lemma str_of_nat_find i : str_find "." (str_of_nat i) = -1.
Proof. destruct (str_of_nat_dot_free i) as (s & [= <-] & H). exact H. Qed.

Lemma result_distinct g' :
  returned (specialize g base) = Ok g' -> distinct_labels (labels g').
Proof.
  intros Hret. rewrite (result_labels g base g' Hwf Hv Hret), base_labels.
  set (k := Z.to_nat (copies g bs)).
  split.
  - apply NoDup_app. split; [|split].
    + apply NoDup_fmap_2_strong; [|exact Hnd].
      intros x y Hx Hy. pose proof (bs_lt g base Hwf Hv) as H. rewrite Forall_forall in H.
      apply label_of_inj; apply H; assumption.
    + intros v H1 H2. apply base_labels_elem in H1 as (b & Hb & Hlt & ->).
      apply copy_labels_elem in H2 as (c & r & s & Hr & Hrlt & Hs & E).
      apply (proj2 Hd (label_of b) (label_of r)); [apply label_of_in; assumption..|].
      exists s, (str_of_nat (c + 1)). auto.
    + apply NoDup_bind; [| |apply NoDup_seq].
      * intros c1 c2 v _ _ H1 H2.
        apply list_elem_of_fmap in H1 as (j1 & -> & Hj1). apply elem_of_seq in Hj1.
        apply list_elem_of_fmap in H2 as (j2 & E & Hj2). apply elem_of_seq in Hj2.
        destruct (copy_label_g1 c1 j1 ltac:(lia)) as (r1 & s1 & _ & _ & Hl1 & Hs1 & E1).
        destruct (copy_label_g1 c2 j2 ltac:(lia)) as (r2 & s2 & _ & _ & Hl2 & Hs2 & E2).
        rewrite E1, E2 in E. injection E as E.
        destruct (suffixed_inj r1 r2 s1 s2 _ _ Hl1 Hl2 Hs1 Hs2 (str_of_nat_find _) E)
          as [_ Hk].
        apply str_of_nat_inj in Hk. lia.
      * intros c _. apply NoDup_fmap_2_strong; [|apply NoDup_seq].
        intros j1 j2 Hj1 Hj2 E. apply elem_of_seq in Hj1. apply elem_of_seq in Hj2.
        destruct (copy_label_g1 c j1 ltac:(lia)) as (r1 & s1 & _ & Hr1 & Hl1 & Hs1 & E1).
        destruct (copy_label_g1 c j2 ltac:(lia)) as (r2 & s2 & _ & Hr2 & Hl2 & Hs2 & E2).
        rewrite E1, E2 in E. injection E as E.
        destruct (suffixed_inj r1 r2 s1 s2 _ _ Hl1 Hl2 Hs1 Hs2 (str_of_nat_find _) E)
          as [<- _].
        apply (NoDup_lookup rest j1 j2 r1 rest_NoDup Hr1 Hr2).
  - intros u v Hu Hv' (s & w & -> & ->).
    apply elem_of_app in Hu as [Hu|Hu]; apply elem_of_app in Hv' as [Hv'|Hv'].
    + apply base_labels_elem in Hu as (b & _ & Hb & Eb).
      apply base_labels_elem in Hv' as (b' & _ & Hb' & Eb').
      apply (proj2 Hd (label_of b) (label_of b')); [apply label_of_in; assumption..|].
      exists s, w. split; congruence.
    + apply base_labels_elem in Hu as (b & _ & Hb & Eb).
      apply copy_labels_elem in Hv' as (c & r & sr & _ & Hr & Hs & [= ->]).
      apply (proj2 Hd (label_of b) (label_of r)); [apply label_of_in; assumption..|].
      exists sr, (str_of_nat (c + 1) ++ "." ++ w)%string. split; [exact Hs|].
      rewrite <- Eb. f_equal. rewrite !str_append_assoc. reflexivity.
    + apply copy_labels_elem in Hu as (c & r & sr & Hrin & Hr & Hs & [= E]).
      apply base_labels_elem in Hv' as (b & Hbin & Hb & Eb).
      destruct (suffixed_inj r b sr s _ _ Hr Hb Hs (eq_sym Eb) (str_of_nat_find _) (eq_sym E))
        as [<- _].
      apply list_elem_of_filter in Hrin as [Hnot _]. contradiction.
    + apply copy_labels_elem in Hu as (c & r & sr & _ & Hr & Hs & [= E]).
      apply copy_labels_elem in Hv' as (c' & r' & sr' & _ & Hr' & Hs' & [= ->]).
      assert (E' : (sr ++ "." ++ str_of_nat (c + 1))%string
                   = (sr' ++ "." ++ (str_of_nat (c' + 1) ++ "." ++ w))%string).
      { rewrite <- E, !str_append_assoc. reflexivity. }
      destruct (suffixed_inj r r' sr sr' _ _ Hr Hr' Hs Hs' (str_of_nat_find _) E')
        as [_ Hk].
      apply (str_find_dot_app (str_of_nat (c' + 1)) w). rewrite <- Hk.
      apply str_of_nat_find.
Qed.

End DistinctLabels.

Lemma default_labels_distinct m :
  distinct_labels ((fun i => VStr (str_of_nat i)) <$> seq 0 m).
Proof.
  split; [apply default_labels_NoDup|].
  intros u v Hu _ (s & w & _ & E). apply list_elem_of_fmap in Hu as (i & -> & _).
  injection E as E. apply (str_find_dot_app s w). rewrite <- E.
  destruct (str_of_nat_dot_free i) as (s' & [= <-] & H). exact H.
Qed.

Lemma reached_distinct A0 labels0 F0 o g0 g :
  Graph_init A0 labels0 F0 o = Ok g0 ->
  (forall l, labels0 = LList l ->
     Forall (fun v => is_str v = true) l /\ distinct_labels l) ->
  reached g0 g -> wf g /\ distinct_labels (labels g).
Proof.
  intros Hinit Hl Hr. induction Hr as [|g base g' _ [Hwf Hd] Hnd Hret|g base _ [Hwf Hd] Hnd].
  - apply Graph_init_ok in Hinit as (Hsq & l & Hlen & -> & Hlab).
    destruct labels0 as [|l'|l']; [| |contradiction].
    + subst l. split.
      * apply new_graph_wf; [assumption..|]. apply Forall_fmap, Forall_forall.
        intros i _. reflexivity.
      * apply default_labels_distinct.
    + subst l'. destruct (Hl l eq_refl) as [Hstr Hd].
      split; [apply new_graph_wf; assumption|exact Hd].
  - pose proof (returned_valid g base g' Hwf Hret) as Hv.
    split; [exact (result_wf g base g' Hwf Hv Hret)|].
    exact (result_distinct g base Hwf Hv Hd Hnd g' Hret).
  - split; [apply self_after_wf, Hwf|].
    destruct (valid_base g base) eqn:Hv.
    + rewrite (specialize_valid g base Hwf Hv). cbn [self_after].
      exact (rearranged_distinct g base Hwf Hv Hd Hnd).
    + rewrite (specialize_invalid_self g base Hwf Hv). exact Hd.
Qed.

(** X17. Labels stay names of the nodes. Let a network be constructed with
    default labels, or with string labels of which none occurs twice and
    none is another one followed by a dot and more. In every network that
    comes from it by calls of [specialize] whose base names no node twice,
    again no label occurs twice and none is another one followed by a dot
    and more, so that the indexer and the labeler are inverse to each other:
    the indexer holds [i] for a label exactly when the labeler holds that
    label for [i]. *)
Theorem labels_stay_distinct (A0 : spmatrix) (labels0 : labels_arg)
    (F0 : option fmatrix) (o : option (gmap pyval nat)) (g0 g : Graph) :
  Graph_init A0 labels0 F0 o = Ok g0 ->
  (forall l, labels0 = LList l ->
     Forall (fun v => is_str v = true) l /\ distinct_labels l) ->
  reached g0 g ->
  distinct_labels (labels g)
  /\ forall v i, indexer g !! v = Some i <-> dict_get (labeler g) (as_int i) = Ok v.
Proof.
  intros Hinit Hl Hr.
  destruct (reached_distinct A0 labels0 F0 o g0 g Hinit Hl Hr) as [Hwf Hd].
  split; [exact Hd|]. intros v i.
  rewrite (wf_indexer_lookup g v i Hwf (proj1 Hd)), (wf_labeler_lookup g i v Hwf).
  reflexivity.
Qed.

Lemma labels_stay_distinct_witness :
  Graph_init (A ring4) LNone None None
  = Ok (new_graph (A ring4) ((fun i => VStr (str_of_nat i)) <$> seq 0 4) None None)
  /\ NoDup (labels (result_of
              (new_graph (A ring4) ((fun i => VStr (str_of_nat i)) <$> seq 0 4) None None)
              [VInt 0; VInt 1])).
Proof.
  split; [reflexivity|].
  set (g0 := new_graph (A ring4) ((fun i => VStr (str_of_nat i)) <$> seq 0 4) None None).
  assert (Hr : reached g0 (result_of g0 [VInt 0; VInt 1])).
  { apply (reached_returned g0 g0 [VInt 0; VInt 1]); [apply reached_init| |reflexivity].
    apply (bool_decide_unpack _). vm_compute. exact I. }
  refine (proj1 (proj1 (labels_stay_distinct (A ring4) LNone None None g0 _ eq_refl _ Hr))).
  intros l H. discriminate H.
Defined.

(** ** The call on the object's own list of labels *)

Lemma fmap_nth_seq {X} (l : list X) d : (fun k => nth k l d) <$> seq 0 (length l) = l.
Proof.
  apply list_eq. intros i. rewrite list_lookup_fmap.
  destruct (decide (i < length l)%nat) as [Hi|Hi].
  - rewrite lookup_seq_lt by exact Hi. cbn. symmetry.
    destruct (nth_lookup_or_length l i d); [assumption|lia].
  - rewrite lookup_seq_ge by lia. symmetry. apply lookup_ge_None. lia.
Qed.


Lemma nth_as_int_seq i m : (i < m)%nat -> nth i (as_int <$> seq 0 m) VNone = as_int i.
Proof.
  intros H. apply nth_lookup_Some. rewrite list_lookup_fmap, lookup_seq_lt by exact H.
  reflexivity.
Qed.

Lemma resolve_own g :
  wf g -> NoDup (labels g) -> length (labels g) = n g ->
  resolve_base (indexer g) (labels g) = (as_int <$> seq 0 (n g), Ok tt).
Proof.
  intros Hwf Hnd Hlen.
  assert (Hidx : forall i v, labels g !! i = Some v -> indexer g !! v = Some i).
  { intros i v Hv. apply (wf_indexer_lookup g v i Hwf Hnd). split; [|exact Hv].
    apply lookup_lt_Some in Hv. lia. }
  rewrite (resolve_base_known g (labels g)).
  - f_equal. f_equal. unfold base_indices. rewrite <- Hlen. apply list_eq. intros i.
    rewrite list_lookup_fmap. destruct (labels g !! i) as [v|] eqn:Hv.
    + rewrite lookup_seq_lt by (apply lookup_lt_Some in Hv; exact Hv).
      cbn. f_equal. rewrite (Hidx i v Hv).
      pose proof (wf_str g Hwf) as Hs. rewrite Forall_forall in Hs.
      specialize (Hs v (list_elem_of_lookup_2 _ _ _ Hv)). destruct v; try discriminate.
      reflexivity.
    + rewrite lookup_seq_ge by (apply lookup_ge_None in Hv; lia). reflexivity.
  - apply forallb_forall. intros v Hv. apply list_elem_of_In in Hv.
    apply wf_indexer_key; [exact Hwf|].
    apply list_elem_of_lookup in Hv as [i Hi]. rewrite (Hidx i v Hi). eauto.
Qed.

Lemma spec_set_all g :
  indices g = seq 0 (n g) -> spec_set g (as_int <$> seq 0 (n g)) = [].
Proof.
  intros Hi. unfold spec_set. rewrite Hi.
  destruct (filter _ _) as [|x l] eqn:E; [reflexivity|exfalso].
  assert (Hx : x ∈ filter (fun i => not_in (as_int <$> seq 0 (n g)) i) (seq 0 (n g)))
    by (rewrite E; left).
  apply list_elem_of_filter in Hx as [Hnot Hx]. unfold not_in in Hnot.
  apply negb_prop_elim in Hnot. apply Hnot, bool_decide_pack.
  apply list_elem_of_fmap. exists x. split; [reflexivity|exact Hx].
Qed.

Lemma specialize_own_outcome g :
  wf g -> NoDup (labels g) -> length (labels g) = n g -> (0 < n g)%nat ->
  nrows (A g) = n g -> ncols (A g) = n g ->
  specialize_own g = Outcome (as_int <$> seq 0 (n g)) (own_after g) (Err ValueError).
Proof.
  intros Hwf Hnd Hlen Hn Hr Hc. unfold specialize_own.
  pose proof (resolve_own g Hwf Hnd Hlen) as Hres.
  destruct (labels g) as [|v l'] eqn:El; [simpl in Hlen; lia|].
  assert (Hv : is_str v = true).
  { pose proof (wf_str g Hwf) as Hs. rewrite El in Hs. apply Forall_cons in Hs as [Hs _].
    exact Hs. }
  destruct v as [s| |]; try discriminate Hv.
  rewrite Hres. clear Hres.
  set (ixs := as_int <$> seq 0 (n g)).
  assert (Eixs : ixs = VInt 0 :: (as_int <$> seq 1 (n g - 1))).
  { unfold ixs. destruct (n g) as [|m]; [lia|]. cbn [seq fmap list_fmap].
    rewrite Nat.sub_succ, Nat.sub_0_r. reflexivity. }
  assert (Hixs : length ixs = n g) by (unfold ixs; rewrite length_fmap, length_seq; reflexivity).
  unfold specialize. rewrite Eixs. cbn match. rewrite <- Eixs.
  cbn [n set_labels]. rewrite Hixs, Nat.ltb_irrefl.
  assert (Hss : spec_set (set_labels ixs g) ixs = []).
  { apply (spec_set_all (set_labels ixs g)). cbn. apply (wf_indices g Hwf). }
  unfold permute. rewrite Hss. cbn [fmap list_fmap length]. rewrite app_nil_r.
  assert (E1 : permute_labeler (set_labels ixs g) ixs
               = Ok ((fun i => (i, nth i (labels g) VNone)) <$> seq 0 (n g))).
  { unfold permute_labeler. cbn [n set_labels labeler]. apply mapM_ok.
    intros i Hi. apply elem_of_seq in Hi.
    change (VInt (Z.of_nat i)) with (as_int i).
    rewrite (list_get_as_int _ i VNone) by lia. cbn [mbind result_bind].
    unfold ixs. rewrite nth_as_int_seq by lia.
    rewrite (dict_get_wf g i Hwf) by lia. reflexivity. }
  rewrite E1. cbn [labels set_indexer set_labeler set_labels].
  assert (E2 : mapM (list_get ixs) ixs = Ok ixs).
  { unfold ixs at 2. rewrite (mapM_as_int _ as_int); [reflexivity|].
    intros i Hi. apply elem_of_seq in Hi.
    rewrite (list_get_as_int _ i VNone) by lia. unfold ixs. rewrite nth_as_int_seq by lia.
    reflexivity. }
  rewrite E2. unfold fancy. cbn [A set_labels set_indexer set_labeler].
  unfold ixs at 1 2. rewrite !(mapM_as_int _ (fun k => k)).
  2,3: intros i Hi; apply elem_of_seq in Hi; apply norm_index_as_int; lia.
  cbn [mbind result_bind mret result_ret]. rewrite list_fmap_id, length_seq.
  fold ixs. unfold own_after. fold ixs. f_equal.
  unfold assemble. cbn [A set_A labels F origin set_labels set_indexer set_labeler].
  set (M := SpMatrix (n g) (n g) _).
  assert (Ein : argwhere (cols_upto (n g) (rows_from (n g) M)) = []).
  { unfold argwhere. cbn [nrows rows_from cols_upto M]. rewrite Nat.sub_diag. reflexivity. }
  assert (Ecopies : forall h, A h = M -> num_copies h (n g) = 0).
  { intros h Eh. unfold num_copies, num_in, msum64. rewrite Eh.
    rewrite (argwhere_nil_msum _ Ein). change (wrap64 0) with 0. rewrite Z.mul_0_l.
    reflexivity. }
  rewrite Ecopies by reflexivity. change (Z.to_nat 0) with 0%nat.
  rewrite Ein. unfold rewire. cbn [foldM mbind result_bind replicate].
  unfold copy_labels. cbn [seq foldM mbind result_bind Nat.mul replicate].
  rewrite app_nil_r.
  assert (Etake : take (n g) ixs = ixs) by (apply take_ge; lia).
  rewrite Etake. unfold Graph_init. cbn [block_diag nrows ncols cols_upto rows_upto M].
  rewrite Nat.min_id, Nat.add_0_r, Nat.eqb_refl. cbn [negb].
  rewrite Hixs, Nat.eqb_refl. cbn [negb]. rewrite Eixs. reflexivity.
Qed.







(** ** The object a call leaves *)

Lemma node_order_perm g bs :
  NoDup bs -> Forall (fun i => (i < n g)%nat) bs -> node_order g bs ≡ₚ seq 0 (n g).
Proof.
  intros Hnd Hlt. apply NoDup_Permutation.
  - apply NoDup_app. split; [exact Hnd|]. split; [|apply NoDup_filter, NoDup_seq].
    intros x Hx Hin. apply list_elem_of_filter in Hin as [Hnot _]. contradiction.
  - apply NoDup_seq.
  - intros x. unfold node_order, rest_of. rewrite elem_of_app, list_elem_of_filter, elem_of_seq.
    split.
    + intros [Hx|[_ Hx]]; [|exact Hx]. rewrite Forall_forall in Hlt.
      specialize (Hlt x Hx). cbn beta in Hlt. lia.
    + intros Hx. destruct (decide (x ∈ bs)); [left; assumption|right; auto].
Qed.

Lemma rearranged_consistent g bs :
  consistent g -> NoDup bs -> Forall (fun i => (i < n g)%nat) bs ->
  consistent (rearranged g (node_order g bs))
  /\ labels (rearranged g (node_order g bs)) ≡ₚ labels g.
Proof.
  intros (Hwf & Hr & Hc & Hl) Hnd Hlt.
  pose proof (node_order_perm g bs Hnd Hlt) as Hp.
  assert (Hlen : length (node_order g bs) = n g).
  { rewrite Hp. apply length_seq. }
  split.
  - split; [|cbn [rearranged A nrows ncols labels n]; rewrite ?length_fmap; auto].
    apply rearranged_wf; [exact Hwf|apply node_order_lt, Hlt|lia].
  - cbn [rearranged labels]. rewrite Hp, <- Hl. rewrite fmap_nth_seq. reflexivity.
Qed.

(** X10. The base is a list of strings, integers and [None], other than
    the object's own list of labels. Whatever the base and whether the call
    returns or raises, the object keeps its [n], [indices], [origin] and
    functional matrix. When the base is not valid the call raises
    [IndexError], [KeyError] or [ValueError] and leaves the object exactly as
    it was. When the base is valid and names no node twice, an object with a
    matrix of size [n] and [n] labels is left with a matrix of size [n] and
    with its [n] labels rearranged, the labeler and the indexer following
    them. *)
Theorem specialize_keeps_object (g : Graph) (base : list pyval) :
  wf g ->
  let o := specialize g base in
  (n (self_after o) = n g /\ indices (self_after o) = indices g
   /\ origin (self_after o) = origin g /\ F (self_after o) = F g)
  /\ (valid_base g base = false ->
      self_after o = g
      /\ (returned o = Err IndexError \/ returned o = Err KeyError
          \/ returned o = Err ValueError))
  /\ (valid_base g base = true -> NoDup (base_indices g base) -> consistent g ->
      consistent (self_after o) /\ labels (self_after o) ≡ₚ labels g).
Proof.
  intros Hwf o. subst o.
  split; [apply self_after_frame|]. split.
  - intros Hv. split; [apply specialize_invalid_self; assumption|].
    apply specialize_invalid_raises; assumption.
  - intros Hv Hnd Hcons. rewrite (specialize_valid g base Hwf Hv). cbn [self_after].
    apply rearranged_consistent; [exact Hcons|exact Hnd|apply bs_lt; assumption].
Qed.

Lemma specialize_keeps_object_witness :
  wf ring4 /\ self_after (specialize ring4 [VInt 9]) = ring4.
Proof.
  split; [exact ring4_wf|].
  exact (proj1 (proj1 (proj2 (specialize_keeps_object ring4 [VInt 9] ring4_wf)) eq_refl)).
Defined.

(** ** Stability *)

Lemma mapM_Forall2 {X Y} (f : X -> result Y) (P : X -> Y -> Prop) l :
  (forall x, x ∈ l -> exists y, f x = Ok y /\ P x y) ->
  exists ys, mapM f l = Ok ys /\ Forall2 P l ys.
Proof.
  induction l as [|x l IH]; intros H.
  - exists []. split; [reflexivity|constructor].
  - destruct (H x) as (y & Ey & Py); [left|].
    destruct IH as (ys & Eys & Pys); [intros z Hz; apply H; right; exact Hz|].
    exists (y :: ys). split; [|constructor; assumption].
    cbn [mapM]. rewrite Ey. cbn [mbind result_bind]. rewrite Eys. reflexivity.
Qed.

Lemma Forall2_seq_lookup {Y} (P : nat -> Y -> Prop) m ys :
  Forall2 P (seq 0 m) ys ->
  length ys = m
  /\ forall i, (i < m)%nat -> exists y, ys !! i = Some y /\ P i y.
Proof.
  intros H. split.
  - rewrite <- (Forall2_length _ _ _ H). apply length_seq.
  - intros i Hi.
    destruct (Forall2_lookup_l _ _ _ i i H) as (y & Ey & Py);
      [apply lookup_seq_lt; exact Hi|].
    exists y. split; assumption.
Qed.

Section StabilityFacts.

Variables val cval : Type.
Variables (vneg vabs : val -> val) (vmax : val -> val -> val).
Variable domain : list val.
Variable grad : (Z -> Z) -> list val -> list val.
Variable eig : list (list val) -> result (list cval).
Variable cabs : cval -> val.
Variable vle : val -> val -> Prop.

Lemma np_max_nonempty (a : list val) :
  a <> [] -> exists m, np_max val vmax a = Ok m.
Proof. destruct a as [|x a]; [congruence|]. intros _. eexists. reflexivity. Qed.

Lemma np_max_empty (a : list val) : np_max val vmax a = Err ValueError <-> a = [].
Proof. destruct a; cbn; split; congruence. Qed.

Lemma foldl_vmax_is_max x a :
  max_order val vmax vle -> is_max val vle (x :: a) (foldl vmax x a).
Proof.
  intros (Hrefl & Htrans & Hmax). revert x.
  induction a as [|y a IH]; intros x; cbn [foldl].
  - split; [left|]. constructor; [apply Hrefl|constructor].
  - destruct (IH (vmax x y)) as (Hin & Hall).
    apply Forall_cons in Hall as (Hxy & Hall).
    assert (Hx : vle x (vmax x y)).
    { destruct (Hmax x y) as [(-> & _)|(-> & H)]; [apply Hrefl|exact H]. }
    assert (Hy : vle y (vmax x y)).
    { destruct (Hmax x y) as [(-> & H)|(-> & _)]; [exact H|apply Hrefl]. }
    split.
    + apply elem_of_cons in Hin as [->|Hin].
      * destruct (Hmax x y) as [(-> & _)|(-> & _)]; [left|right; left].
      * right; right; exact Hin.
    + constructor; [eapply Htrans; eassumption|].
      constructor; [eapply Htrans; eassumption|exact Hall].
Qed.

Lemma np_max_is_max a m :
  max_order val vmax vle -> np_max val vmax a = Ok m -> is_max val vle a m.
Proof.
  intros Ho. destruct a as [|x a]; [discriminate|]. intros [= <-].
  apply foldl_vmax_is_max, Ho.
Qed.

Lemma abs_negated (l : list val) :
  (forall x, vabs (vneg x) = vabs x) -> vabs <$> (vneg <$> l) = vabs <$> l.
Proof.
  intros H. rewrite <- list_fmap_compose. apply list_fmap_ext. intros i x _. apply H.
Qed.

(** C9, amended. Let a network be constructed with a functional matrix
    and without an [origin], with default labels or labels without dots,
    and take it or any network that comes from it by calls of [specialize].
    With a sample that is not empty and a differentiation routine that
    returns one value for each point of the sample, [stability_matrix()]
    returns [n] rows of [n] values; the value at [(i, j)] is what [np.max]
    gives on the absolute values, over the sample, of the derivative of the
    function at the original indices of [i] and [j], the negation not
    changing the absolute values; where the values are ordered and the
    maximum of two values is the larger one, it is a largest of these
    absolute values. [spectral_radius()] raises what the eigenvalue routine
    raises on this matrix, and otherwise returns what [np.max] gives on the
    moduli of the eigenvalues: a largest of them, or [ValueError] when
    there is none. *)
Theorem stability_matrix_entries (A0 : spmatrix) (labels0 : labels_arg) (f : fmatrix)
    (g0 g : Graph) :
  (forall x, vabs (vneg x) = vabs x) ->
  domain <> [] ->
  (forall h x, length (grad h x) = length x) ->
  Graph_init A0 labels0 (Some f) None = Ok g0 ->
  (forall l, labels0 = LList l -> Forall dot_free l) ->
  derived g0 g ->
  exists Df,
    stability_matrix val vneg vabs vmax domain grad g = Ok Df
    /\ length Df = n g
    /\ (forall i, (i < n g)%nat ->
        exists row,
          Df !! i = Some row /\ length row = n g
          /\ original g i = Ok (origin_of g i)
          /\ forall j, (j < n g)%nat ->
             exists m,
               row !! j = Some m
               /\ np_max val vmax
                    (vabs <$> grad (f (origin_of g i) (origin_of g j)) domain) = Ok m
               /\ (max_order val vmax vle ->
                   is_max val vle
                     (vabs <$> grad (f (origin_of g i) (origin_of g j)) domain) m))
    /\ (forall e, eig Df = Err e ->
        spectral_radius val cval vneg vabs vmax domain grad eig cabs g = Err e)
    /\ (forall eigs, eig Df = Ok eigs ->
        spectral_radius val cval vneg vabs vmax domain grad eig cabs g
        = np_max val vmax (cabs <$> eigs)
        /\ (eigs = [] ->
            spectral_radius val cval vneg vabs vmax domain grad eig cabs g
            = Err ValueError)
        /\ (eigs <> [] ->
            exists r,
              spectral_radius val cval vneg vabs vmax domain grad eig cabs g = Ok r
              /\ (max_order val vmax vle -> is_max val vle (cabs <$> eigs) r))).
Proof.
  intros Habs Hdom Hgrad Hinit Hdf Hd.
  pose proof (resolving_init A0 labels0 (Some f) g0 Hinit Hdf) as H0.
  pose proof (resolving_derived _ _ g0 g H0 Hd) as (Hwf & Ho & Hres).
  rewrite <- Ho in Hres.
  assert (HF : F g = Some f).
  { rewrite (derived_F _ _ g0 g H0 Hd).
    destruct (Graph_init_ok _ _ _ _ _ Hinit) as (_ & l & _ & -> & _). reflexivity. }
  assert (Horig : forall i, (i < n g)%nat -> original g i = Ok (origin_of g i)).
  { intros i Hi.
    destruct (original_resolves g (n g0) i Hwf Hres Hi) as (s & o & _ & _ & E & _).
    unfold origin_of. rewrite E. reflexivity. }
  set (Q := fun i j m =>
              np_max val vmax
                (vabs <$> grad (f (origin_of g i) (origin_of g j)) domain) = Ok m).
  set (P := fun i row => Forall2 (Q i) (seq 0 (n g)) row).
  destruct (mapM_Forall2
              (fun i =>
                 o_i ← original g i;
                 mapM (fun j =>
                         o_j ← original g j;
                         func ← match F g with
                                | Some f => Ok (f o_i o_j)
                                | None => Err TypeError
                                end;
                         np_max val vmax (vabs <$> (vneg <$> grad func domain)))
                      (seq 0 (n g)))
              P (seq 0 (n g))) as (Df & EDf & HDf).
  { intros i Hi. apply elem_of_seq in Hi. rewrite (Horig i) by lia.
    cbn [mbind result_bind].
    apply mapM_Forall2. intros j Hj. apply elem_of_seq in Hj.
    rewrite (Horig j) by lia. rewrite HF. cbn [mbind result_bind].
    rewrite (abs_negated _ Habs).
    destruct (np_max_nonempty
                (vabs <$> grad (f (origin_of g i) (origin_of g j)) domain))
      as (m & Em); [|exists m; split; exact Em].
    intros E. apply (f_equal length) in E. rewrite length_fmap, Hgrad in E.
    destruct domain; [congruence|discriminate]. }
  assert (Esm : stability_matrix val vneg vabs vmax domain grad g = Ok Df) by exact EDf.
  clear EDf. exists Df. split; [exact Esm|].
  destruct (Forall2_seq_lookup P (n g) Df HDf) as (HlDf & Hrows).
  split; [exact HlDf|]. split; [|split].
  - intros i Hi. destruct (Hrows i Hi) as (row & Erow & Prow).
    exists row. destruct (Forall2_seq_lookup (Q i) (n g) row Prow) as (Hlrow & Hent).
    split; [exact Erow|]. split; [exact Hlrow|]. split; [apply Horig, Hi|].
    intros j Hj. destruct (Hent j Hj) as (m & Em & Qm). exists m.
    split; [exact Em|]. split; [exact Qm|].
    intros Hord. apply np_max_is_max; assumption.
  - intros e He. unfold spectral_radius.
    rewrite Esm. cbn [mbind result_bind]. rewrite He. reflexivity.
  - intros eigs He.
    assert (Esr : spectral_radius val cval vneg vabs vmax domain grad eig cabs g
                  = np_max val vmax (cabs <$> eigs)).
    { unfold spectral_radius. rewrite Esm. cbn [mbind result_bind]. rewrite He.
      reflexivity. }
    split; [exact Esr|]. split.
    + intros ->. rewrite Esr. reflexivity.
    + intros Hne. destruct (np_max_nonempty (cabs <$> eigs)) as (r & Er).
      { destruct eigs; [congruence|discriminate]. }
      exists r. split; [rewrite Esr; exact Er|].
      intros Hord. apply np_max_is_max; assumption.
Qed.

End StabilityFacts.

(** C9, as it stands, fails: on a network with a dot in a label the
    original index of a node is not found, and on a network without a
    functional matrix there is no function to differentiate; both calls
    raise. *)
Lemma stability_matrix_raises :
  Graph_init (of_rows 2 2 [[0;1]; [1;0]]) (LList [VStr "a.b"; VStr "c"])
    (Some double_plus) None = Ok dottedf
  /\ original dottedf 0 = Err KeyError
  /\ stability_matrix Z Z.opp Z.abs Z.max zdomain zgrad dottedf = Err KeyError
  /\ spectral_radius Z Z Z.opp Z.abs Z.max zdomain zgrad zeig Z.abs dottedf
     = Err KeyError
  /\ F pair21 = None
  /\ stability_matrix Z Z.opp Z.abs Z.max zdomain zgrad pair21 = Err TypeError
  /\ spectral_radius Z Z Z.opp Z.abs Z.max zdomain zgrad zeig Z.abs pair21
     = Err TypeError.
Proof. repeat split; reflexivity. Qed.

Lemma stability_matrix_entries_witness :
  (forall x, Z.abs (Z.opp x) = Z.abs x)
  /\ zdomain <> []
  /\ (forall h x, length (zgrad h x) = length x)
  /\ Graph_init (of_rows 2 2 [[0;1]; [2;0]]) (LList [VStr "0"; VStr "1"])
       (Some double_plus) None = Ok pair21f
  /\ derived pair21f (result_of pair21f [VInt 0])
  /\ exists Df,
       stability_matrix Z Z.opp Z.abs Z.max zdomain zgrad (result_of pair21f [VInt 0])
       = Ok Df
       /\ length Df = n (result_of pair21f [VInt 0]).
Proof.
  assert (Hd : derived pair21f (result_of pair21f [VInt 0])).
  { apply (derived_returned pair21f pair21f [VInt 0]); [apply derived_init|reflexivity]. }
  assert (Hdom : zdomain <> []) by discriminate.
  assert (Hgrad : forall h x, length (zgrad h x) = length x).
  { intros h x. apply length_fmap. }
  split; [exact Z.abs_opp|]. split; [exact Hdom|]. split; [exact Hgrad|].
  split; [exact pair21f_init|]. split; [exact Hd|].
  destruct (stability_matrix_entries Z Z Z.opp Z.abs Z.max zdomain zgrad zeig Z.abs Z.le
              _ _ double_plus pair21f _
              Z.abs_opp Hdom Hgrad pair21f_init pair21f_dot_free Hd)
    as (Df & E & Hl & _).
  exists Df. split; [exact E|exact Hl].
Defined.

(** ** Labels and indices as base *)

Lemma base_indices_as_int g (bs : list nat) : base_indices g (as_int <$> bs) = bs.
Proof.
  unfold base_indices. rewrite <- list_fmap_compose. rewrite <- (list_fmap_id bs) at 2.
  apply list_fmap_ext. intros i x _. cbn. apply Nat2Z.id.
Qed.

Lemma valid_base_as_int g base :
  wf g -> valid_base g base = true -> valid_base g (as_int <$> base_indices g base) = true.
Proof.
  intros Hwf Hv. pose proof (bs_lt g base Hwf Hv) as Hlt.
  pose proof (valid_base_nonempty g base Hv) as Hne.
  unfold valid_base in *. apply andb_true_iff in Hv as [Hv _].
  apply andb_true_iff in Hv as [_ Hlen].
  apply andb_true_iff. split; [apply andb_true_iff; split|].
  - apply negb_true_iff, bool_decide_eq_false. intros E.
    apply (f_equal length) in E. rewrite length_fmap in E. cbn in E. lia.
  - rewrite length_fmap, length_base_indices. exact Hlen.
  - unfold homogeneous_known. apply orb_true_iff. left. apply forallb_forall.
    intros b Hb. apply list_elem_of_In, list_elem_of_fmap in Hb as (i & -> & Hi).
    rewrite Forall_forall in Hlt. specialize (Hlt i Hi). cbn beta in Hlt.
    unfold known_index, as_int. apply andb_true_iff.
    split; [apply Z.leb_le|apply Z.ltb_lt]; lia.
Qed.

(** X18. Labels and indices are interchangeable as base: on a valid base
    given as labels, in a list other than the object's own list of labels,
    [specialize] does to the object, and returns or raises, what it does on
    the list of their indices, and it leaves that list of indices in the
    caller's list; a base given as indices is left as it is. Given the
    object's own list of labels, none of which occurs twice, the call
    leaves the indices [0 .. n-1] in that list as well, and raises
    [ValueError]. *)
Theorem specialize_by_label (g : Graph) (base : list pyval) :
  wf g -> valid_base g base = true ->
  let ixs := as_int <$> base_indices g base in
  specialize g base = specialize g ixs
  /\ caller_base (specialize g base) = ixs
  /\ (Forall (fun b => known_index g b = true) base -> ixs = base)
  /\ (forall i b, base !! i = Some b -> known_label g b = true ->
        exists k, indexer g !! b = Some k /\ ixs !! i = Some (as_int k))
  /\ (NoDup (labels g) -> length (labels g) = n g -> (0 < n g)%nat ->
      nrows (A g) = n g -> ncols (A g) = n g ->
      caller_base (specialize_own g) = as_int <$> seq 0 (n g)
      /\ returned (specialize_own g) = Err ValueError).
Proof.
  intros Hwf Hv ixs. subst ixs.
  assert (Hown : NoDup (labels g) -> length (labels g) = n g -> (0 < n g)%nat ->
                 nrows (A g) = n g -> ncols (A g) = n g ->
                 caller_base (specialize_own g) = as_int <$> seq 0 (n g)
                 /\ returned (specialize_own g) = Err ValueError).
  { intros Hnd Hlen Hn Hr Hc.
    rewrite (specialize_own_outcome g Hwf Hnd Hlen Hn Hr Hc). split; reflexivity. }
  pose proof (specialize_valid g base Hwf Hv) as H1. cbv zeta in H1.
  pose proof (specialize_valid g _ Hwf (valid_base_as_int g base Hwf Hv)) as H2.
  cbv zeta in H2. rewrite base_indices_as_int in H2.
  split; [rewrite H1, H2; reflexivity|]. split; [rewrite H1; reflexivity|].
  split; [|split; [|exact Hown]].
  - intros Hk. unfold base_indices. rewrite <- list_fmap_compose.
    rewrite <- (list_fmap_id base) at 2. apply list_fmap_ext. intros i b Hb.
    rewrite Forall_forall in Hk. specialize (Hk b (list_elem_of_lookup_2 _ _ _ Hb)).
    destruct b as [s|z|]; try discriminate Hk. cbn in Hk |- *.
    apply andb_true_iff in Hk as [Hk _]. apply Z.leb_le in Hk.
    unfold as_int. rewrite Z2Nat.id by exact Hk. reflexivity.
  - intros i b Hb Hk. destruct b as [s|z|]; try discriminate Hk. cbn in Hk.
    apply bool_decide_eq_true in Hk as [k Hk]. exists k. split; [exact Hk|].
    unfold base_indices. rewrite !list_lookup_fmap, Hb. cbn. rewrite Hk. reflexivity.
Qed.

Lemma specialize_by_label_witness :
  wf ring4 /\ valid_base ring4 [VStr "c"; VStr "a"] = true
  /\ specialize ring4 [VStr "c"; VStr "a"] = specialize ring4 [VInt 2; VInt 0].
Proof.
  split; [exact ring4_wf|]. split; [reflexivity|].
  exact (proj1 (specialize_by_label ring4 [VStr "c"; VStr "a"] ring4_wf eq_refl)).
Defined.
